(** * Synapse: wire protocol, compression policy and path confinement

    A shallow embedding of the transfer engine of Synapse (formerly LanDrop):
    - [internal/transfer/protocol.go]: chunked sub-stream framing;
    - [internal/transfer/sender.go]: [getCompressionMethod], [handleTransfer];
    - [internal/transfer/receiver.go]: [ReceiveConnectWithOptions], [unzip];
    - [pkg/utils/utils.go]: [SanitizeFilename].

    Go byte slices and Go strings are [list byte] (paths follow the Unix
    conventions of [path/filepath], separator [/]); [int64] and [uint32]
    values are [Z] with the conversions written out.  The libraries the code
    calls but does not define (BLAKE3, zstd, gzip, encoding/json,
    archive/zip) are the fields of a record [Libs]; the round-trip laws
    their documentation states are the record [LibsOk].

    The first part holds the embedding, the second the properties. *)

From Stdlib Require Import Strings.String.
From Stdlib Require Import ZArith NArith List Lia Bool Arith.
From Stdlib Require Import Strings.Byte.
Import ListNotations.
Open Scope list_scope.

Set Implicit Arguments.

(* ================================================================== *)
(** ** Bytes and big-endian integers ([encoding/binary]) *)

Module Bytes.

Open Scope Z_scope.

Definition byte_of_Z (z : Z) : byte :=
  match Byte.of_N (Z.to_N (z mod 256)) with
  | Some b => b
  | None => x00
  end.

Definition Z_of_byte (b : byte) : Z := Z.of_N (Byte.to_N b).

(** Go's conversion [uint32(n)] of an [int]: keep the low 32 bits. *)
Definition uint32 (n : Z) : Z := n mod 2 ^ 32.

(** Go's conversion [int64(n)] of a 64-bit pattern: two's complement. *)
Definition int64 (n : Z) : Z :=
  let m := n mod 2 ^ 64 in
  if m <? 2 ^ 63 then m else m - 2 ^ 64.

(** [binary.BigEndian.PutUint32]. *)
Definition put_uint32 (v : Z) : list byte :=
  [byte_of_Z (v / 2 ^ 24); byte_of_Z (v / 2 ^ 16);
   byte_of_Z (v / 2 ^ 8); byte_of_Z v].

(** [binary.BigEndian.Uint32]; [None] when fewer than four bytes are given. *)
Definition get_uint32 (bs : list byte) : option Z :=
  match bs with
  | [b0; b1; b2; b3] =>
      Some (Z_of_byte b0 * 2 ^ 24 + Z_of_byte b1 * 2 ^ 16
            + Z_of_byte b2 * 2 ^ 8 + Z_of_byte b3)
  | _ => None
  end.

(** [binary.BigEndian.PutUint64] applied to [uint64(v)]. *)
Definition put_int64 (v : Z) : list byte :=
  put_uint32 (v mod 2 ^ 64 / 2 ^ 32) ++ put_uint32 (v mod 2 ^ 64).

(** [binary.BigEndian.Uint64] read back as an [int64]. *)
Definition get_int64 (bs : list byte) : option Z :=
  match get_uint32 (firstn 4 bs), get_uint32 (skipn 4 bs) with
  | Some hi, Some lo => Some (int64 (hi * 2 ^ 32 + lo))
  | _, _ => None
  end.

End Bytes.

(* ================================================================== *)
(** ** Readers, writers and connections ([io], [net]) *)

Module IO.

Import Bytes.

Inductive error : Type :=
| EOF                (* io.EOF *)
| ErrUnexpectedEOF   (* io.ErrUnexpectedEOF *)
| ErrNoProgress.     (* a reader that keeps returning 0 bytes and no error *)

(** [io.Writer].  Writes to a connection, a file or a hasher are taken to
    succeed: a failed write ends the session in the source and is not
    modelled. *)
Class Writer (W : Type) := Write : W -> list byte -> W.

(** [io.Reader]: [Read r n] is [r.Read(p)] with [len(p) = n]; it returns the
    bytes stored in [p[:k]], the error, and the reader afterwards. *)
Class Reader (R : Type) := Read : R -> nat -> list byte * option error * R.

(** The receiving end of a connection: the bytes that will still arrive
    (the peer closes after them) and the way the transport cuts them into
    segments; the [reads]-th call delivers at most [S (segment reads)]
    bytes, whatever the size of the buffer. *)
Record Conn : Type := mkConn {
  pending : list byte;
  segment : nat -> nat;
  reads : nat
}.

Definition Conn_Read (c : Conn) (n : nat) : list byte * option error * Conn :=
  match n with
  | O => ([], None, c)
  | S _ =>
      match pending c with
      | [] => ([], Some EOF, c)
      | _ :: _ =>
          let k := Nat.min n (S (segment c (reads c))) in
          (firstn k (pending c), None,
           mkConn (skipn k (pending c)) (segment c) (S (reads c)))
      end
  end.

#[global] Instance Conn_Reader : Reader Conn := Conn_Read.

(** A write-only byte sink (the sending end of a connection, an open file):
    the bytes written so far. *)
Definition Sink : Type := list byte.

Definition Sink_Write (s : Sink) (p : list byte) : Sink := s ++ p.

#[global] Instance Sink_Writer : Writer Sink := Sink_Write.

(** [io.MultiWriter(a, b)]. *)
Definition MultiWriter_Write {A B} `{Writer A} `{Writer B}
    (m : A * B) (p : list byte) : A * B :=
  (Write (fst m) p, Write (snd m) p).

#[global] Instance MultiWriter_Writer {A B} `{Writer A} `{Writer B} :
  Writer (A * B) := MultiWriter_Write.

(** [io.TeeReader(r, w)]: what is read from [r] is written to [w]. *)
Definition TeeReader_Read {R W} `{Reader R} `{Writer W}
    (t : R * W) (n : nat) : list byte * option error * (R * W) :=
  let '(data, err, r') := Read (fst t) n in
  (data, err, (r', match data with [] => snd t | _ => Write (snd t) data end)).

#[global] Instance TeeReader_Reader {R W} `{Reader R} `{Writer W} :
  Reader (R * W) := TeeReader_Read.

(** [io.LimitReader(r, n)]. *)
Record LimitedReader (R : Type) : Type := mkLimited { LR : R; LN : Z }.

Definition LimitedReader_Read {R} `{Reader R}
    (l : LimitedReader R) (n : nat) : list byte * option error * LimitedReader R :=
  if (LN l <=? 0)%Z then ([], Some EOF, l)
  else
    let n' := if (Z.of_nat n >? LN l)%Z then Z.to_nat (LN l) else n in
    let '(data, err, r') := Read (LR l) n' in
    (data, err, mkLimited r' (LN l - Z.of_nat (length data))).

#[global] Instance LimitedReader_Reader {R} `{Reader R} :
  Reader (LimitedReader R) := LimitedReader_Read.

(** [io.ReadFull(r, buf)] with [len(buf) = need]: the loop of
    [io.ReadAtLeast].  [fuel] bounds the number of [Read] calls; [need] calls
    are enough for a reader that makes progress. *)
Fixpoint ReadAtLeast {R} `{Reader R} (fuel : nat) (r : R) (need : nat)
    : list byte * option error * R :=
  match need with
  | O => ([], None, r)
  | S _ =>
      match fuel with
      | O => ([], Some ErrNoProgress, r)
      | S fuel' =>
          let '(data, err, r') := Read r need in
          match err with
          | Some e =>
              (data,
               (if Nat.leb need (length data) then None
                else match data, e with
                     | _ :: _, EOF => Some ErrUnexpectedEOF
                     | _, _ => Some e
                     end), r')
          | None =>
              let '(more, err', r'') :=
                ReadAtLeast fuel' r' (need - length data) in
              (data ++ more,
               match err', data with
               | Some EOF, _ :: _ => Some ErrUnexpectedEOF
               | _, _ => err'
               end, r'')
          end
      end
  end.

Definition ReadFull {R} `{Reader R} (r : R) (need : nat)
    : list byte * option error * R :=
  ReadAtLeast need r need.

(** A consumer that reads to the end of a stream ([io.Copy], a decoder):
    call [i] passes a buffer of [bufs i] bytes.  The result is the bytes
    read, the error that ended the loop and the reader afterwards; [None]
    when [fuel] calls did not reach the end. *)
Fixpoint read_to_end {R} `{Reader R} (fuel : nat) (bufs : nat -> nat)
    (i : nat) (r : R) : option (list byte * error * R) :=
  match fuel with
  | O => None
  | S fuel' =>
      let '(data, err, r') := Read r (bufs i) in
      match err with
      | Some e => Some (data, e, r')
      | None =>
          match read_to_end fuel' bufs (S i) r' with
          | Some (rest, e, r'') => Some (data ++ rest, e, r'')
          | None => None
          end
      end
  end.

(** [io.CopyBuffer(dst, src, buf)] with [len(buf) = buf]: read a block,
    write what was read, stop at the first error; end of stream is success.
    [None] when [fuel] blocks did not reach the end. *)
Fixpoint CopyBuffer {W R} `{Writer W} `{Reader R}
    (fuel : nat) (dst : W) (src : R) (buf : nat)
    : option (W * option error * R) :=
  match fuel with
  | O => None
  | S fuel' =>
      let '(data, err, src') := Read src buf in
      let dst' := match data with [] => dst | _ :: _ => Write dst data end in
      match err with
      | Some EOF => Some (dst', None, src')
      | Some e => Some (dst', Some e, src')
      | None => CopyBuffer fuel' dst' src' buf
      end
  end.

(** [Rep r s]: reader [r] will deliver exactly the bytes [s], in order, and
    then report end of stream.  A lawful reader returns between 1 and
    [len(p)] bytes when some are left. *)
Record Lawful {R} `{Reader R} (Rep : R -> list byte -> Prop) : Prop := {
  law_read : forall r s n, Rep r s -> (0 < n)%nat -> s <> [] ->
    exists k r', (1 <= k <= n)%nat /\
                 Read r n = (firstn k s, None, r') /\ Rep r' (skipn k s);
  law_eof : forall r n, Rep r [] -> (0 < n)%nat ->
    exists r', Read r n = ([], Some EOF, r') /\ Rep r' []
}.

Definition ConnRep (c : Conn) (s : list byte) : Prop := pending c = s.

(** A tee into a sink that held [h0] when the stream [all] began: the sink
    holds [h0] and every byte consumed so far. *)
Definition TeeRep {R} (Rep : R -> list byte -> Prop) (all h0 : list byte)
    (t : R * Sink) (s : list byte) : Prop :=
  Rep (fst t) s /\
  exists consumed, all = consumed ++ s /\ snd t = h0 ++ consumed.

(** A limited reader in front of a stream that goes on with [rest]. *)
Definition LimRep {R} (Rep : R -> list byte -> Prop) (rest : list byte)
    (l : LimitedReader R) (s : list byte) : Prop :=
  Rep (LR l) (s ++ rest) /\ LN l = Z.of_nat (length s).

(** A writer for which two writes are one write of the concatenation. *)
Record LawfulWriter (W : Type) `{Writer W} : Prop := {
  law_write_app : forall (w : W) a b, Write (Write w a) b = Write w (a ++ b);
  law_write_nil : forall (w : W), Write w [] = w
}.

Arguments LawfulWriter W {_}.

End IO.

(* ================================================================== *)
(** ** Chunked sub-stream ([internal/transfer/protocol.go]) *)

Module Protocol.

Import Bytes IO.

Inductive Compression : Type :=
| CompressionNone
| CompressionGzip
| CompressionZstd.

Record FileHeader : Type := mkFileHeader {
  Name : list byte;
  Size : Z;
  IsArchive : bool;
  Compression_ : Compression
}.

Record TransferRequest : Type := mkTransferRequest { Offset : Z }.

(** [ChunkedWriter]: format [[Length uint32][Data]], length 0 is the end. *)
Record ChunkedWriter (W : Type) : Type := NewChunkedWriter { cw : W }.

Definition ChunkedWriter_Write {W} `{Writer W}
    (c : ChunkedWriter W) (p : list byte) : ChunkedWriter W :=
  match p with
  | [] => c
  | _ :: _ =>
      let w1 := Write (cw c) (put_uint32 (uint32 (Z.of_nat (length p)))) in
      NewChunkedWriter (Write w1 p)
  end.

#[global] Instance ChunkedWriter_Writer {W} `{Writer W} :
  Writer (ChunkedWriter W) := ChunkedWriter_Write.

Definition ChunkedWriter_Close {W} `{Writer W} (c : ChunkedWriter W) : W :=
  Write (cw c) (put_uint32 (uint32 0)).

(** [ChunkedReader]. *)
Record ChunkedReader (R : Type) : Type := mkChunkedReader {
  cr : R;
  currChunk : Z;
  eof : bool
}.

Definition NewChunkedReader {R} (r : R) : ChunkedReader R :=
  mkChunkedReader r 0 false.

Definition ChunkedReader_Read {R} `{Reader R}
    (c : ChunkedReader R) (n : nat)
    : list byte * option error * ChunkedReader R :=
  if eof c then ([], Some EOF, c)
  else
    let next : option error * ChunkedReader R :=
      if (currChunk c =? 0)%Z then
        let '(hdr, err, r') := ReadFull (cr c) 4 in
        match err with
        | Some e => (Some e, mkChunkedReader r' 0 false)
        | None =>
            match get_uint32 hdr with
            | Some len =>
                if (len =? 0)%Z then (Some EOF, mkChunkedReader r' 0 true)
                else (None, mkChunkedReader r' len false)
            | None => (Some ErrUnexpectedEOF, mkChunkedReader r' 0 false)
            end
        end
      else (None, c) in
    match next with
    | (Some e, c1) => ([], Some e, c1)
    | (None, c1) =>
        let n' := if (Z.of_nat n >? currChunk c1)%Z
                  then Z.to_nat (currChunk c1) else n in
        let '(data, err, r2) := Read (cr c1) n' in
        (data, err,
         mkChunkedReader r2 (currChunk c1 - Z.of_nat (length data)) (eof c1))
    end.

#[global] Instance ChunkedReader_Reader {R} `{Reader R} :
  Reader (ChunkedReader R) := ChunkedReader_Read.

(** Writing a sequence of slices, then [Close]. *)
Definition write_all {W} `{Writer W} (w : W) (ps : list (list byte)) : W :=
  fold_left Write ps w.

Definition chunked_stream (ps : list (list byte)) : Sink :=
  ChunkedWriter_Close (write_all (NewChunkedWriter ([] : Sink)) ps).

(** The frames of a sequence of slices, as the format describes them. *)
Definition frame (p : list byte) : list byte :=
  match p with
  | [] => []
  | _ :: _ => put_uint32 (Z.of_nat (length p)) ++ p
  end.

Definition frames (ps : list (list byte)) : list byte := flat_map frame ps.

Definition sentinel : list byte := put_uint32 0.

(** A slice of 2^32 zero bytes, the shortest whose length does not fit the
    [uint32] length field. *)
Definition slice_4GiB : list byte := repeat x00 (N.to_nat 4294967296).

(** A slice whose length fits the [uint32] length field. *)
Definition fits (p : list byte) : Prop := (Z.of_nat (length p) < 2 ^ 32)%Z.

(** Empty slices leave no trace in the stream. *)
Definition nonempty (p : list byte) : bool :=
  match p with [] => false | _ :: _ => true end.

End Protocol.

(* ================================================================== *)
(** ** Strings and paths ([strings], [path/filepath] on Unix) *)

Module Path.

Definition str (s : string) : list byte := list_byte_of_string s.

Fixpoint eqb (a b : list byte) : bool :=
  match a, b with
  | [], [] => true
  | x :: a', y :: b' => Byte.eqb x y && eqb a' b'
  | _, _ => false
  end.

Definition Separator : byte := "/"%byte.

Definition IsPathSeparator (c : byte) : bool := Byte.eqb c Separator.

(** [strings.HasPrefix]. *)
Fixpoint HasPrefix (s prefix : list byte) : bool :=
  match prefix, s with
  | [], _ => true
  | p :: prefix', c :: s' => Byte.eqb p c && HasPrefix s' prefix'
  | _ :: _, [] => false
  end.

(** [strings.ToLower] on ASCII letters.  Bytes from 0x80 on are left alone:
    the only runes outside ASCII that lower-case into ASCII are U+0130 and
    U+212A (to [i] and [k]), and no extension [getCompressionMethod] tells
    apart from the default holds either letter. *)
Definition lower_byte (c : byte) : byte :=
  let n := Byte.to_N c in
  if (65 <=? n)%N && (n <=? 90)%N
  then match Byte.of_N (n + 32) with Some c' => c' | None => c end
  else c.

Definition ToLower (s : list byte) : list byte := map lower_byte s.

(** White space as [unicode.IsSpace] sees it, in UTF-8: the number of
    bytes of a white-space rune at the front of [s], 0 when there is none. *)
Definition space_rune (s : list byte) : nat :=
  match s with
  | (x09 | x0a | x0b | x0c | x0d | x20) :: _ => 1
  | xc2 :: (x85 | xa0) :: _ => 2
  | xe1 :: x9a :: x80 :: _ => 3
  | xe2 :: x80 :: (x80 | x81 | x82 | x83 | x84 | x85 | x86 | x87 | x88
                   | x89 | x8a | xa8 | xa9 | xaf) :: _ => 3
  | xe2 :: x81 :: x9f :: _ => 3
  | xe3 :: x80 :: x80 :: _ => 3
  | _ => 0
  end.

(** The same, for the rune at the end of a string given in reverse. *)
Definition space_rune_rev (r : list byte) : nat :=
  match r with
  | (x09 | x0a | x0b | x0c | x0d | x20) :: _ => 1
  | (x85 | xa0) :: xc2 :: _ => 2
  | x80 :: x9a :: xe1 :: _ => 3
  | (x80 | x81 | x82 | x83 | x84 | x85 | x86 | x87 | x88
     | x89 | x8a | xa8 | xa9 | xaf) :: x80 :: xe2 :: _ => 3
  | x9f :: x81 :: xe2 :: _ => 3
  | x80 :: x80 :: xe3 :: _ => 3
  | _ => 0
  end.

Fixpoint trim (rune : list byte -> nat) (fuel : nat) (s : list byte) : list byte :=
  match fuel with
  | O => s
  | S fuel' =>
      match rune s with
      | O => s
      | k => trim rune fuel' (skipn k s)
      end
  end.

(** [strings.TrimSpace]. *)
Definition TrimSpace (s : list byte) : list byte :=
  let l := trim space_rune (length s) s in
  rev (trim space_rune_rev (length l) (rev l)).

(** [strings.Split(s, "/")]. *)
Fixpoint split_sep (s : list byte) : list (list byte) :=
  match s with
  | [] => [[]]
  | c :: t =>
      if IsPathSeparator c then [] :: split_sep t
      else match split_sep t with
           | e :: es => (c :: e) :: es
           | [] => [[c]]
           end
  end.

(** [strings.Join(es, "/")]. *)
Fixpoint join_sep (es : list (list byte)) : list byte :=
  match es with
  | [] => []
  | [e] => e
  | e :: es' => e ++ Separator :: join_sep es'
  end.

Definition dot : list byte := str ".".
Definition dotdot : list byte := str "..".

(** The elements [filepath.Clean] keeps, as its rules state them: empty and
    [.] elements go; [..] removes the element before it when that is a name,
    is dropped at the root, and is kept at the front of a relative path.
    [out] is the output so far, last element first. *)
Fixpoint clean_elems (rooted : bool) (out es : list (list byte))
    : list (list byte) :=
  match es with
  | [] => rev out
  | e :: es' =>
      if eqb e [] || eqb e dot then clean_elems rooted out es'
      else if eqb e dotdot then
        match out with
        | top :: out' =>
            if eqb top dotdot then clean_elems rooted (dotdot :: out) es'
            else clean_elems rooted out' es'
        | [] =>
            if rooted then clean_elems rooted [] es'
            else clean_elems rooted [dotdot] es'
        end
      else clean_elems rooted (e :: out) es'
  end.

(** [filepath.Clean]. *)
Definition Clean (p : list byte) : list byte :=
  match p with
  | [] => dot
  | c :: _ =>
      let rooted := IsPathSeparator c in
      let out := clean_elems rooted [] (split_sep p) in
      if rooted then Separator :: join_sep out
      else match out with
           | [] => dot
           | _ :: _ => join_sep out
           end
  end.

(** [filepath.Join]: the elements from the first non-empty one on, joined
    and cleaned. *)
Fixpoint Join (elem : list (list byte)) : list byte :=
  match elem with
  | [] => []
  | [] :: rest => Join rest
  | (_ :: _) :: _ => Clean (join_sep elem)
  end.

Fixpoint drop_seps (r : list byte) : list byte :=
  match r with
  | c :: r' => if IsPathSeparator c then drop_seps r' else r
  | [] => []
  end.

Fixpoint take_elem (r : list byte) : list byte :=
  match r with
  | c :: r' => if IsPathSeparator c then [] else c :: take_elem r'
  | [] => []
  end.

(** [filepath.Base]: strip the trailing separators, keep what follows the
    last separator left. *)
Definition Base (p : list byte) : list byte :=
  match p with
  | [] => dot
  | _ :: _ =>
      match rev (take_elem (drop_seps (rev p))) with
      | [] => [Separator]
      | e => e
      end
  end.

(** [filepath.Ext]: scan from the end to the last separator; [r] is what
    is left to scan, last byte first, [suffix] what was scanned. *)
Fixpoint ext_scan (r suffix : list byte) : list byte :=
  match r with
  | [] => []
  | c :: r' =>
      if IsPathSeparator c then []
      else if Byte.eqb c "."%byte then c :: suffix
      else ext_scan r' (c :: suffix)
  end.

Definition Ext (p : list byte) : list byte := ext_scan (rev p) [].

(** Where the operating system finds a path, symbolic links apart: the
    names from the root, starting from directory [cwd] (names from the
    root) unless the path is absolute. *)
Fixpoint walk (dir : list (list byte)) (es : list (list byte))
    : list (list byte) :=
  match es with
  | [] => dir
  | e :: es' =>
      if eqb e [] || eqb e dot then walk dir es'
      else if eqb e dotdot then walk (removelast dir) es'
      else walk (dir ++ [e]) es'
  end.

Definition resolve (cwd : list (list byte)) (p : list byte) : list (list byte) :=
  match p with
  | c :: _ => if IsPathSeparator c then walk [] (split_sep p)
              else walk cwd (split_sep p)
  | [] => cwd
  end.

(** [inside d q]: location [q] is a proper descendant of directory [d]. *)
Definition inside (d q : list (list byte)) : Prop :=
  exists more, more <> [] /\ q = d ++ more.

(** An element that names a file or a directory. *)
Definition is_name (e : list byte) : Prop :=
  e <> [] /\ e <> dot /\ e <> dotdot /\ ~ In Separator e.

Definition rooted (p : list byte) : bool :=
  match p with
  | c :: _ => IsPathSeparator c
  | [] => false
  end.

(** The elements [filepath.Clean] keeps of a path. *)
Definition elems_of (p : list byte) : list (list byte) :=
  clean_elems (rooted p) [] (split_sep p).

(** The output of [clean_elems] while it runs, last element first: names
    on top of the [..] elements a relative path starts with. *)
Definition stacked (r : bool) (out : list (list byte)) : Prop :=
  exists ns ds, out = ns ++ ds /\ Forall is_name ns /\
    Forall (fun e => e = dotdot) ds /\ (r = true -> ds = []).

(** What [clean_elems] returns: [..] elements, none for a rooted path,
    then names. *)
Definition cleaned (r : bool) (es : list (list byte)) : Prop :=
  exists ds ns, es = ds ++ ns /\ Forall (fun e => e = dotdot) ds /\
    Forall is_name ns /\ (r = true -> ds = []).

(** A destination that cleans to a directory named below the root or below
    the working directory: not [/], not [.], and not a path that starts
    with [..]. *)
Definition named_below (dest : list byte) : Prop :=
  exists first rest, elems_of dest = first :: rest /\ first <> dotdot.

End Path.

(* ================================================================== *)
(** ** Compression policy ([getCompressionMethod]) *)

Module Sender.

Import Protocol Path.

Definition skip_exts : list (list byte) :=
  map str [".jpg"; ".png"; ".mp4"; ".zip"; ".iso"; ".dmg"; ".gz"; ".zst";
           ".7z"; ".rar"]%string.

Definition compress_exts : list (list byte) :=
  map str [".txt"; ".log"; ".json"; ".md"; ".go"]%string.

(** [internal/transfer/sender.go], lines 341-355. *)
Definition getCompressionMethod (filename : list byte) (isDir : bool)
    : Compression :=
  if isDir then CompressionNone
  else
    let ext := ToLower (Ext filename) in
    if existsb (eqb ext) skip_exts then CompressionNone
    else if existsb (eqb ext) compress_exts then CompressionZstd
    else CompressionNone.

End Sender.

(** The LanDrop copy of the sender kept in the repository
    ([internal/transfer/protocol.go], lines 358-390): its first [return]
    answers zstd for a directory; the [return CompressionNone] that follows
    the comment block is never reached. *)
Module LanDrop.

Import Protocol Path.

Definition getCompressionMethod (filename : list byte) (isDir : bool)
    : Compression :=
  if isDir then CompressionZstd
  else
    let ext := ToLower (Ext filename) in
    if existsb (eqb ext) Sender.skip_exts then CompressionNone
    else if existsb (eqb ext) Sender.compress_exts then CompressionZstd
    else CompressionNone.

End LanDrop.

(* ================================================================== *)
(** ** File names ([pkg/utils/utils.go]) *)

Module Utils.

Import Path.

Definition SanitizeFilename (name : list byte) : list byte :=
  let safeName := Base name in
  if eqb safeName (str ".") || eqb safeName (str "/")
     || eqb (TrimSpace safeName) []
  then str "downloaded_file"
  else safeName.

End Utils.

(* ================================================================== *)
(** ** Sessions ([handleTransfer], [ReceiveConnectWithOptions], [unzip]) *)

Module Transfer.

Import Bytes IO Protocol Path.

Inductive failure : Type :=
| ErrIO (e : IO.error)          (* a read from the connection failed *)
| ErrHeaderTooLarge (n : Z)     (* "header length too large" *)
| ErrUnmarshal                  (* json.Unmarshal failed *)
| ErrOpenDestination            (* "failed to open destination file" *)
| ErrSeek                       (* "failed to seek file" *)
| ErrDecode                     (* the decompressor rejected the stream *)
| ErrChecksumMismatch           (* "checksum mismatch!" *)
| ErrIllegalPath (p : list byte)  (* "illegal file path" *)
| ErrZip                        (* the archive could not be read *)
| Panic.                        (* makeslice: len out of range *)

Inductive res (A : Type) : Type :=
| Ok (a : A)
| Err (e : failure).

Arguments Ok {A} a.
Arguments Err {A} e.

(** An entry of a zip archive, as [unzip] uses it. *)
Record ZipFile : Type := mkZipFile {
  zName : list byte;      (* f.Name *)
  zIsDir : bool;          (* f.FileInfo().IsDir() *)
  zContent : list byte;   (* what f.Open() reads *)
  zReadable : bool        (* creating the file, f.Open() and the copy succeed *)
}.

(** The libraries the engine calls: BLAKE3 ([Sum] of everything written to
    a hasher), the zstd encoder (the [Write] calls it makes on the writer
    under it for a given input, its [Close] included), the zstd and gzip
    decoders ([None]: the stream is rejected), [encoding/json] on the two
    records, and [archive/zip]'s reader. *)
Record Libs : Type := mkLibs {
  Sum : list byte -> list byte;
  zstd_writes : list byte -> list (list byte);
  zstd_decode : list byte -> option (list byte);
  gzip_decode : list byte -> option (list byte);
  Marshal_header : FileHeader -> list byte;
  Unmarshal_header : list byte -> option FileHeader;
  Marshal_request : TransferRequest -> list byte;
  Unmarshal_request : list byte -> option TransferRequest;
  zip_OpenReader : list byte -> option (list ZipFile)
}.

(** The numbers JSON carries in the two records are [int64]. *)
Definition is_int64 (z : Z) : Prop := (- 2 ^ 63 <= z < 2 ^ 63)%Z.

(** What the documentation of the libraries promises.  JSON keeps the
    numbers and flags of a header; the name may come back changed (invalid
    UTF-8 is replaced). *)
Record LibsOk (L : Libs) : Prop := {
  Sum_length : forall b, length (Sum L b) = 32%nat;
  zstd_roundtrip : forall b, zstd_decode L (concat (zstd_writes L b)) = Some b;
  zstd_fits : forall b, Forall fits (zstd_writes L b);
  header_roundtrip : forall h, is_int64 (Size h) -> exists name',
    Unmarshal_header L (Marshal_header L h)
    = Some (mkFileHeader name' (Size h) (IsArchive h) (Compression_ h));
  request_roundtrip : forall r, is_int64 (Offset r) ->
    Unmarshal_request L (Marshal_request L r) = Some r;
  request_length : forall r,
    (Z.of_nat (length (Marshal_request L r)) < 2 ^ 63)%Z
}.

(** The copy buffer: [make([]byte, 4*1024*1024)]. *)
Definition BUFFER : nat := N.to_nat 4194304.

(** *** Outer records *)

(** [sender.go], lines 215-223: the request record.  No bound is put on
    the announced length. *)
Definition sender_read_request (conn : Conn) : res (list byte * Conn) :=
  let '(lenb, err, c1) := ReadFull conn 8 in
  match err with
  | Some e => Err (ErrIO e)
  | None =>
      match get_int64 lenb with
      | None => Err (ErrIO ErrUnexpectedEOF)
      | Some reqLen =>
          if (reqLen <? 0)%Z then Err Panic
          else
            let '(reqBytes, err', c2) := ReadFull c1 (Z.to_nat reqLen) in
            match err' with
            | Some e => Err (ErrIO e)
            | None => Ok (reqBytes, c2)
            end
      end
  end.

(** [receiver.go], lines 320-332: the header record. *)
Definition receiver_read_header (conn : Conn) : res (list byte * Conn) :=
  let '(lenb, err, c1) := ReadFull conn 8 in
  match err with
  | Some e => Err (ErrIO e)
  | None =>
      match get_int64 lenb with
      | None => Err (ErrIO ErrUnexpectedEOF)
      | Some headerLen =>
          if (headerLen >? 65536)%Z then Err (ErrHeaderTooLarge headerLen)
          else if (headerLen <? 0)%Z then Err Panic
          else
            let '(headerBytes, err', c2) := ReadFull c1 (Z.to_nat headerLen) in
            match err' with
            | Some e => Err (ErrIO e)
            | None => Ok (headerBytes, c2)
            end
      end
  end.

(** A record as both sides write it: [binary.Write] of the length, then the
    payload. *)
Definition write_record {W} `{Writer W} (w : W) (payload : list byte) : W :=
  Write (Write w (put_int64 (Z.of_nat (length payload)))) payload.

(** *** Sender *)

(** [sender.go], lines 230-233. *)
Definition clamp_offset (offset fileSize : Z) : Z :=
  if (offset >? fileSize)%Z then 0%Z else offset.

(** [zstd.NewWriter(w)]: the encoder keeps its input; what it writes under
    it is [zstd_writes] of the whole input, complete at [Close]. *)
Record ZstdWriter (W : Type) : Type := mkZstdWriter { zw : W; zin : list byte }.

Definition ZstdWriter_Write {W} (z : ZstdWriter W) (p : list byte) : ZstdWriter W :=
  mkZstdWriter (zw z) (zin z ++ p).

#[global] Instance ZstdWriter_Writer {W} : Writer (ZstdWriter W) :=
  ZstdWriter_Write.

Definition ZstdWriter_Close {W} `{Writer W} (L : Libs) (z : ZstdWriter W) : W :=
  write_all (zw z) (zstd_writes L (zin z)).

Record SendResult : Type := mkSendResult {
  s_out : Sink;            (* every byte written to the connection *)
  s_hashed : Sink;         (* every byte written to the hasher *)
  s_offset : option Z;     (* the offset the source was positioned at *)
  s_read : list byte;      (* the bytes read from the source *)
  s_err : option failure
}.

(** [handleTransfer]: [source] is the content of [sourcePath], read in
    blocks cut by [src_seg]. *)
Definition handleTransfer (L : Libs) (conn : Conn) (originalName : list byte)
    (source : list byte) (src_seg : nat -> nat) (fileSize : Z) (isDir : bool)
    : SendResult :=
  let compression := Sender.getCompressionMethod originalName isDir in
  let header := mkFileHeader (Base originalName) fileSize isDir compression in
  let out0 : Sink := write_record ([] : Sink) (Marshal_header L header) in
  match sender_read_request conn with
  | Err e => mkSendResult out0 [] None [] (Some e)
  | Ok (reqBytes, _) =>
      match Unmarshal_request L reqBytes with
      | None => mkSendResult out0 [] None [] (Some ErrUnmarshal)
      | Some req =>
          let offset := clamp_offset (Offset req) fileSize in
          (* file.Seek(offset, 0): a negative offset is EINVAL *)
          if (offset <? 0)%Z
          then mkSendResult out0 [] (Some offset) [] (Some ErrSeek)
          else
            let file := mkConn (skipn (Z.to_nat offset) source) src_seg 0 in
            let fuel := S (length (pending file)) in
            let hashedDestination : Sink * Sink := (out0, []) in
            let copied : option (Sink * Sink * option IO.error * Conn) :=
              match compression with
              | CompressionZstd =>
                  let chunked := NewChunkedWriter hashedDestination in
                  let zstdWriter := mkZstdWriter chunked [] in
                  match CopyBuffer fuel zstdWriter file BUFFER with
                  | Some (z, None, f) =>
                      Some (ChunkedWriter_Close (ZstdWriter_Close L z), None, f)
                  | Some (z, Some e, f) => Some (cw (zw z), Some e, f)
                  | None => None
                  end
              | _ => CopyBuffer fuel hashedDestination file BUFFER
              end in
            match copied with
            | None =>
                mkSendResult out0 [] (Some offset) []
                  (Some (ErrIO ErrNoProgress))
            | Some (hd, Some e, f) =>
                mkSendResult (fst hd) (snd hd) (Some offset)
                  (firstn (length (pending file) - length (pending f))
                     (pending file))
                  (Some (ErrIO e))
            | Some (hd, None, f) =>
                let checksum := Sum L (snd hd) in
                mkSendResult (Write (fst hd) checksum) (snd hd) (Some offset)
                  (firstn (length (pending file) - length (pending f))
                     (pending file))
                  None
            end
      end
  end.

(** *** Archive extraction *)

Inductive fs_op : Type :=
| MkdirAll (p : list byte)                 (* a directory entry *)
| MkParents (p : list byte)                (* os.MkdirAll(filepath.Dir(p)) *)
| WriteFile (p : list byte) (content : list byte).

(** The loop of [unzip] over [r.File]: the operations on the file system
    in order, and the error that ended the loop. *)
Fixpoint unzip_files (dest : list byte) (files : list ZipFile)
      : list fs_op * option failure :=
  match files with
  | [] => ([], None)
  | f :: rest =>
      let fpath := Join [dest; zName f] in
      if negb (HasPrefix fpath (Clean dest ++ [Separator]))
      then ([], Some (ErrIllegalPath fpath))
      else if zIsDir f then
        let '(ops, e) := unzip_files dest rest in (MkdirAll fpath :: ops, e)
      else if negb (zReadable f) then
        ([MkParents fpath; WriteFile fpath []], Some ErrZip)
      else
        let '(ops, e) := unzip_files dest rest in
        (MkParents fpath :: WriteFile fpath (zContent f) :: ops, e)
  end.

Definition unzip (L : Libs) (src : list byte) (dest : list byte)
      : list fs_op * option failure :=
  match zip_OpenReader L src with
  | None => ([], Some ErrZip)
  | Some files => unzip_files dest files
  end.

(** The paths an extraction wrote to. *)
Definition written (ops : list fs_op) : list (list byte) :=
  flat_map (fun op => match op with
                      | MkdirAll p => [p]
                      | MkParents _ => []
                      | WriteFile p _ => [p]
                      end) ops.

(** *** Receiver *)

Inductive fs_entry : Type :=
| Absent
| Regular (content : list byte)
| Directory.

Record RecvResult : Type := mkRecvResult {
  r_request : Sink;          (* every byte written to the connection *)
  r_offset : Z;              (* the negotiated offset *)
  r_path : list byte;        (* the file the content goes to *)
  r_appended : bool;         (* opened with O_APPEND rather than created *)
  r_file : list byte;        (* its content when the session ends *)
  r_hashed : Sink;           (* every byte written to the hasher *)
  r_rest : list byte;        (* what was left unread on the connection *)
  r_ops : list fs_op;        (* the extraction, for an archive *)
  r_err : option failure
}.

(** The content region under a decompressor: the chunked reader over a tee
    of the connection into the hasher, read to its end with the buffers
    [dbufs] of the decoder, then decoded. *)
Definition read_compressed (decode : list byte -> option (list byte))
    (dbufs : nat -> nat) (conn : Conn) (hasher : Sink) (file : Sink)
    : Sink * Sink * Conn * option failure :=
  let hashedReader : Conn * Sink := (conn, hasher) in
  let chunked := NewChunkedReader hashedReader in
  match read_to_end (S (length (pending conn))) dbufs 0 chunked with
  | Some (compressed, EOF, c') =>
      match decode compressed with
      | Some plain => (Write file plain, snd (cr c'), fst (cr c'), None)
      | None => (file, snd (cr c'), fst (cr c'), Some ErrDecode)
      end
  | Some (_, e, c') => (file, snd (cr c'), fst (cr c'), Some (ErrIO e))
  | None => (file, hasher, conn, Some (ErrIO ErrNoProgress))
  end.

(** The content region without compression: exactly [Size - offset] bytes
    through a limited reader, teed into the hasher. *)
Definition read_plain (remaining : Z) (conn : Conn) (hasher : Sink) (file : Sink)
    : Sink * Sink * Conn * option failure :=
  let limitedReader := mkLimited conn remaining in
  let hashedReader : LimitedReader Conn * Sink := (limitedReader, hasher) in
  match CopyBuffer (S (length (pending conn))) file hashedReader BUFFER with
  | Some (file', err, t) =>
      (file', snd t, LR (fst t), option_map ErrIO err)
  | None => (file, hasher, conn, Some (ErrIO ErrNoProgress))
  end.

(** [receiver.go], lines 341-344. *)
Definition download_dir (DownloadDir : list byte) : list byte :=
  match DownloadDir with
  | [] => str "received_files"
  | _ :: _ => DownloadDir
  end.

(** [receiver.go], lines 355-383: the negotiated offset, the path of the
    destination file, whether it is opened in append mode, and what it
    holds once opened. *)
Definition open_destination (header : FileHeader)
    (downloadDir safeName : list byte) (fs : list byte -> fs_entry)
    (tmp : list byte) : res (Z * list byte * bool * list byte) :=
  if IsArchive header then Ok (0%Z, tmp, false, [])
  else
    let finalPath := Join [downloadDir; safeName] in
    match fs finalPath with
    | Regular old =>
        if (Z.of_nat (length old) <? Size header)%Z
        then Ok (Z.of_nat (length old), finalPath, true, old)
        else Ok (0%Z, finalPath, false, [])
    | Absent => Ok (0%Z, finalPath, false, [])
    | Directory => Err ErrOpenDestination
    end.

(** [ReceiveConnectWithOptions] once the connection is up: [fs] tells what
    is at a path when the session starts, [tmp] is the name
    [os.CreateTemp] hands out. *)
Definition ReceiveConnectWithOptions (L : Libs) (conn : Conn)
    (DownloadDir : list byte) (fs : list byte -> fs_entry)
    (dbufs : nat -> nat) (tmp : list byte) : RecvResult :=
  let failed e := mkRecvResult [] 0 [] false [] [] (pending conn) [] (Some e) in
  match receiver_read_header conn with
  | Err e => failed e
  | Ok (headerBytes, c1) =>
      match Unmarshal_header L headerBytes with
      | None => failed ErrUnmarshal
      | Some header =>
          let safeName := Utils.SanitizeFilename (Name header) in
          let downloadDir := download_dir DownloadDir in
          let opened := open_destination header downloadDir safeName fs tmp in
          match opened with
          | Err e => failed e
          | Ok (offset, outPath, appended, initial) =>
              let req := mkTransferRequest offset in
              let sent : Sink :=
                write_record ([] : Sink) (Marshal_request L req) in
              let '(file, hasher, c2, err) :=
                match Compression_ header with
                | CompressionZstd =>
                    read_compressed (zstd_decode L) dbufs c1 [] initial
                | CompressionGzip =>
                    read_compressed (gzip_decode L) dbufs c1 [] initial
                | CompressionNone =>
                    read_plain (Size header - offset) c1 [] initial
                end in
              let result := mkRecvResult sent offset outPath appended file
                              hasher in
              match err with
              | Some e => result (pending c2) [] (Some e)
              | None =>
                  let '(receivedChecksum, err', c3) := ReadFull c2 32 in
                  match err' with
                  | Some e => result (pending c3) [] (Some (ErrIO e))
                  | None =>
                      if negb (eqb (Sum L hasher) receivedChecksum)
                      then result (pending c3) [] (Some ErrChecksumMismatch)
                      else if IsArchive header then
                        let '(ops, e) := unzip L file downloadDir in
                        result (pending c3) ops e
                      else result (pending c3) [] None
                  end
              end
          end
      end
  end.

(** The path the receiver settles on for a file the sender announces. *)
Definition target_path (L : Libs) (DownloadDir originalName : list byte)
    (fileSize : Z) (isDir : bool) : list byte :=
  let header := mkFileHeader (Base originalName) fileSize isDir
                  (Sender.getCompressionMethod originalName isDir) in
  match Unmarshal_header L (Marshal_header L header) with
  | Some h =>
      Join [download_dir DownloadDir; Utils.SanitizeFilename (Name h)]
  | None => []
  end.

(** *** A session over a perfect channel *)

(** The sender writes its header before it reads anything, and the
    receiver answers the header before it reads anything else: the header
    is what the sender writes when no request has arrived, the request is
    what the receiver writes on the header alone. *)
Definition run_session (L : Libs) (originalName source : list byte)
    (isDir : bool) (DownloadDir : list byte) (fs : list byte -> fs_entry)
    (tmp : list byte) (src_seg seg_s seg_r dbufs : nat -> nat)
    : SendResult * RecvResult :=
  let fileSize := Z.of_nat (length source) in
  let send c := handleTransfer L c originalName source src_seg fileSize isDir in
  let recv c := ReceiveConnectWithOptions L c DownloadDir fs dbufs tmp in
  let header := s_out (send (mkConn [] seg_s 0)) in
  let request := r_request (recv (mkConn header seg_r 0)) in
  let s := send (mkConn request seg_s 0) in
  (s, recv (mkConn (s_out s) seg_r 0)).

(** What the sender feeds the hasher, and puts on the wire between the
    header and the footer, for the content [rest] it reads. *)
Definition wire_content (L : Libs) (c : Compression) (rest : list byte)
    : list byte :=
  match c with
  | CompressionZstd => chunked_stream (zstd_writes L rest)
  | _ => rest
  end.

(** *** A stand-in for the libraries, to run the model *)

(** Stored "compression" (an empty write, then one write for each byte of
    the input), a checksum that pads or cuts its input to 32 bytes, records
    as fixed-width fields. *)
Definition toy_Sum (b : list byte) : list byte := firstn 32 (b ++ repeat x00 32).

Definition toy_writes (b : list byte) : list (list byte) :=
  [] :: map (fun x => [x]) b.

Definition compression_code (c : Compression) : byte :=
  match c with
  | CompressionNone => x00
  | CompressionGzip => x01
  | CompressionZstd => x02
  end.

Definition compression_of_code (b : byte) : Compression :=
  match b with
  | x02 => CompressionZstd
  | x01 => CompressionGzip
  | _ => CompressionNone
  end.

Definition toy_Marshal_header (h : FileHeader) : list byte :=
  put_int64 (Size h) ++ [if IsArchive h then x01 else x00]
  ++ [compression_code (Compression_ h)] ++ firstn 255 (Name h).

Definition toy_Unmarshal_header (b : list byte) : option FileHeader :=
  match get_int64 (firstn 8 b), skipn 8 b with
  | Some size, a :: c :: name =>
      Some (mkFileHeader name size (Byte.eqb a x01) (compression_of_code c))
  | _, _ => None
  end.

Definition toy_Marshal_request (r : TransferRequest) : list byte :=
  put_int64 (Offset r).

Definition toy_Unmarshal_request (b : list byte) : option TransferRequest :=
  match get_int64 (firstn 8 b) with
  | Some o => Some (mkTransferRequest o)
  | None => None
  end.

Definition toy : Libs :=
  mkLibs toy_Sum toy_writes (fun b => Some b) (fun b => Some b)
    toy_Marshal_header toy_Unmarshal_header
    toy_Marshal_request toy_Unmarshal_request
    (fun _ => None).

(** *** Sample sessions *)

Definition fox : list byte := str "the quick brown fox".

Definition sample_session (name : list byte) (fs : list byte -> fs_entry)
    : SendResult * RecvResult :=
  run_session toy name fox false [] fs [] (fun _ => 2%nat) (fun _ => 0%nat)
    (fun _ => 0%nat) (fun _ => 1%nat).

(** A connection on which the request for [offset] has arrived. *)
Definition request_conn (offset : Z) : Conn :=
  mkConn (write_record ([] : Sink)
            (Marshal_request toy (mkTransferRequest offset)))
         (fun _ => 0%nat) 0.

(** A request record that announces 65,537 bytes and carries them. *)
Definition oversized_payload : list byte := repeat x20 (Z.to_nat 65537).

Definition oversized_record : list byte :=
  put_int64 65537 ++ oversized_payload.

(** An archive whose only entry is a file named [../evil.txt]. *)
Definition evil_archive : list ZipFile :=
  [mkZipFile (str "../evil.txt") false (str "x") true].

End Transfer.

(* ================================================================== *)
(** ** Streams that end early *)

Module Short.

Import IO.

(** A limited reader in front of a stream that ends before the limit is
    reached. *)
Definition LimShortRep {R} (Rep : R -> list byte -> Prop)
    (l : LimitedReader R) (s : list byte) : Prop :=
  Rep (LR l) s /\ (Z.of_nat (length s) <= LN l)%Z.

End Short.

(* ================================================================== *)
(** ** Progress reports *)

Module Progress.

Import Bytes IO.

(** [ProgressInfo] ([sender.go], lines 25-31).  Neither wrapper below sets
    [Speed], which stays zero and is left out. *)
Record ProgressInfo : Type := mkProgressInfo {
  BytesSent : Z;
  TotalBytes : Z;
  FileName : list byte;
  PeerAddr : list byte
}.

(** [progressReader] ([sender.go], lines 317-325).  [pr_callback] tells
    whether the callback is set; [pr_reports] are the calls it received,
    the latest first. *)
Record progressReader (R : Type) : Type := mkProgressReader {
  pr_inner : R;
  pr_read : Z;
  pr_total : Z;
  pr_offset : Z;
  pr_fileName : list byte;
  pr_peerAddr : list byte;
  pr_callback : bool;
  pr_reports : list ProgressInfo
}.

(** [progressReader.Read] ([sender.go], lines 327-339). *)
Definition progressReader_Read {R} `{Reader R} (r : progressReader R)
    (n : nat) : list byte * option error * progressReader R :=
  let '(data, err, inner') := Read (pr_inner r) n in
  let read' := int64 (pr_read r + Z.of_nat (length data)) in
  let reports' :=
    if pr_callback r && (0 <? length data)%nat
    then mkProgressInfo (int64 (read' + pr_offset r)) (pr_total r)
           (pr_fileName r) (pr_peerAddr r) :: pr_reports r
    else pr_reports r in
  (data, err,
   mkProgressReader inner' read' (pr_total r) (pr_offset r) (pr_fileName r)
     (pr_peerAddr r) (pr_callback r) reports').

#[global] Instance progressReader_Reader {R} `{Reader R} :
  Reader (progressReader R) := progressReader_Read.

(** [recvProgressWriter] ([receiver.go], lines 552-560). *)
Record recvProgressWriter (W : Type) : Type := mkRecvProgressWriter {
  pw_inner : W;
  pw_written : Z;
  pw_total : Z;
  pw_offset : Z;
  pw_fileName : list byte;
  pw_peerAddr : list byte;
  pw_callback : bool;
  pw_reports : list ProgressInfo
}.

(** [recvProgressWriter.Write] ([receiver.go], lines 562-574); the writer
    under it takes all of [p]. *)
Definition recvProgressWriter_Write {W} `{Writer W}
    (w : recvProgressWriter W) (p : list byte) : recvProgressWriter W :=
  let inner' := Write (pw_inner w) p in
  let written' := int64 (pw_written w + Z.of_nat (length p)) in
  let reports' :=
    if pw_callback w && (0 <? length p)%nat
    then mkProgressInfo (int64 (written' + pw_offset w)) (pw_total w)
           (pw_fileName w) (pw_peerAddr w) :: pw_reports w
    else pw_reports w in
  mkRecvProgressWriter inner' written' (pw_total w) (pw_offset w)
    (pw_fileName w) (pw_peerAddr w) (pw_callback w) reports'.

#[global] Instance recvProgressWriter_Writer {W} `{Writer W} :
  Writer (recvProgressWriter W) := recvProgressWriter_Write.

(** The reader [handleTransfer] builds when a progress callback is set
    ([sender.go], lines 280-289), and the writer
    [ReceiveConnectWithOptions] builds ([receiver.go], lines 438-448). *)
Definition NewProgressReader {R} (file : R) (fileSize offset : Z)
    (fileName peerAddr : list byte) : progressReader R :=
  mkProgressReader file 0 fileSize offset fileName peerAddr true [].

Definition NewRecvProgressWriter {W} (destFile : W) (size offset : Z)
    (safeName address : list byte) : recvProgressWriter W :=
  mkRecvProgressWriter destFile 0 size offset safeName address true [].

(** [descending top l]: the numbers of [l] run strictly down, the first
    below [top]. *)
Fixpoint descending (top : Z) (l : list Z) : Prop :=
  match l with
  | [] => True
  | b :: l' => (b < top)%Z /\ descending b l'
  end.

(** The reports of a wrapper that has counted [count] bytes, the latest
    first: none when it has counted nothing; otherwise the latest says
    [offset + count], the ones before it less and less, and each says more
    than [offset]. *)
Definition reported (offset count : Z) (reports : list ProgressInfo) : Prop :=
  match reports with
  | [] => count = 0%Z
  | i :: older =>
      BytesSent i = (offset + count)%Z /\
      descending (BytesSent i) (map BytesSent older) /\
      Forall (fun j => (offset < BytesSent j)%Z) reports
  end.

(** A progress reader built as [p0] that has consumed a part of the stream
    [all]: it has counted what it consumed and reported as above. *)
Definition ProgressRep {R} (Rep : R -> list byte -> Prop)
    (all : list byte) (p0 : progressReader R)
    (p : progressReader R) (s : list byte) : Prop :=
  Rep (pr_inner p) s /\
  pr_total p = pr_total p0 /\ pr_offset p = pr_offset p0 /\
  pr_fileName p = pr_fileName p0 /\ pr_peerAddr p = pr_peerAddr p0 /\
  pr_callback p = true /\
  exists consumed, all = consumed ++ s /\
    pr_read p = Z.of_nat (length consumed) /\
    reported (pr_offset p0) (pr_read p) (pr_reports p) /\
    Forall (fun i => TotalBytes i = pr_total p0 /\
                     FileName i = pr_fileName p0 /\
                     PeerAddr i = pr_peerAddr p0) (pr_reports p).

End Progress.

(* ================================================================== *)
(** ** Sizes for display *)

Module Format.

Import Bytes Path.




End Format.

(* ================================================================== *)
(** ** The transfer history of the GUI *)

Module History.

(** [HistoryEntry] ([gui/history.go], lines 15-24). *)
Record HistoryEntry : Type := mkHistoryEntry {
  ID : list byte;
  FileName : list byte;
  FileSize : Z;
  Direction : list byte;
  PeerName : list byte;
  Status : list byte;
  Error : list byte;
  Timestamp : list byte
}.

(** The store and the history file; [saved] is the list the file holds,
    [None] while nothing was written. *)
Record historyStore : Type := mkHistoryStore {
  entries : list HistoryEntry;
  saved : option (list HistoryEntry)
}.

(** [saveHistory] (lines 77-89); [writable] tells whether the
    configuration directory can be had and the file written. *)
Definition saveHistory (writable : bool) (store : historyStore)
    : historyStore * bool :=
  if writable then (mkHistoryStore (entries store) (Some (entries store)), true)
  else (store, false).

(** [addHistoryEntry] (lines 56-75); [now_id] and [now_ts] are what the
    clock gives for the identifier and the time stamp. *)
Definition addHistoryEntry (now_id now_ts : list byte) (writable : bool)
    (entry : HistoryEntry) (store : historyStore) : historyStore * bool :=
  let entry1 :=
    match ID entry with
    | [] => mkHistoryEntry now_id (FileName entry) (FileSize entry)
              (Direction entry) (PeerName entry) (Status entry)
              (Error entry) (Timestamp entry)
    | _ :: _ => entry
    end in
  let entry2 :=
    match Timestamp entry1 with
    | [] => mkHistoryEntry (ID entry1) (FileName entry1) (FileSize entry1)
              (Direction entry1) (PeerName entry1) (Status entry1)
              (Error entry1) now_ts
    | _ :: _ => entry1
    end in
  let all := entry2 :: entries store in
  let kept := if (100 <? length all)%nat then firstn 100 all else all in
  saveHistory writable (mkHistoryStore kept (saved store)).

(** The entry as [addHistoryEntry] stores it. *)
Definition stamped (now_id now_ts : list byte) (entry : HistoryEntry)
    : HistoryEntry :=
  mkHistoryEntry
    (match ID entry with [] => now_id | _ :: _ => ID entry end)
    (FileName entry) (FileSize entry) (Direction entry) (PeerName entry)
    (Status entry) (Error entry)
    (match Timestamp entry with [] => now_ts | _ :: _ => Timestamp entry end).

(** A call of [addHistoryEntry]: the clock readings, whether the file can
    be written, and the entry. *)
Record call : Type := mkCall {
  c_id : list byte;
  c_ts : list byte;
  c_writable : bool;
  c_entry : HistoryEntry
}.

Definition add_all (calls : list call) (store : historyStore) : historyStore :=
  fold_left (fun s c =>
               fst (addHistoryEntry (c_id c) (c_ts c) (c_writable c)
                      (c_entry c) s))
            calls store.

End History.

(* ================================================================== *)
(** * Properties *)

Unset Implicit Arguments.

Module BytesFacts.

Import Bytes.
Open Scope Z_scope.

Lemma Z_of_byte_range b : 0 <= Z_of_byte b < 256.
Proof. unfold Z_of_byte. pose proof (Byte.to_N_bounded b). lia. Qed.

Lemma Z_of_byte_of_Z z : Z_of_byte (byte_of_Z z) = z mod 256.
Proof.
  unfold Z_of_byte, byte_of_Z.
  pose proof (Z.mod_pos_bound z 256 ltac:(lia)) as Hb.
  destruct (Byte.of_N (Z.to_N (z mod 256))) eqn:E.
  - apply Byte.to_of_N in E. rewrite E. lia.
  - apply Byte.of_N_None_iff in E. lia.
Qed.

Lemma put_uint32_length v : length (put_uint32 v) = 4%nat.
Proof. reflexivity. Qed.

Lemma put_int64_length v : length (put_int64 v) = 8%nat.
Proof. reflexivity. Qed.

Lemma get_put_uint32 v : 0 <= v < 2 ^ 32 -> get_uint32 (put_uint32 v) = Some v.
Proof.
  intros Hv. unfold get_uint32, put_uint32.
  rewrite !Z_of_byte_of_Z. f_equal.
  change (2 ^ 24) with 16777216. change (2 ^ 16) with 65536.
  change (2 ^ 8) with 256. change (2 ^ 32) with 4294967296 in Hv.
  Z.div_mod_to_equations. lia.
Qed.

Lemma get_put_int64 v :
  - 2 ^ 63 <= v < 2 ^ 63 -> get_int64 (put_int64 v) = Some v.
Proof.
  intros Hv. unfold get_int64, put_int64.
  change (firstn 4 (put_uint32 ?a ++ put_uint32 ?b)) with (put_uint32 a).
  change (skipn 4 (put_uint32 ?a ++ put_uint32 ?b)) with (put_uint32 b).
  assert (H64 : 0 <= v mod 2 ^ 64 < 2 ^ 64) by (apply Z.mod_pos_bound; lia).
  change (2 ^ 64) with 18446744073709551616 in *.
  change (2 ^ 63) with 9223372036854775808 in *.
  change (2 ^ 32) with 4294967296 in *.
  set (m := v mod 18446744073709551616) in *.
  assert (Hlo : get_uint32 (put_uint32 m) = Some (m mod 4294967296)).
  { unfold get_uint32, put_uint32. rewrite !Z_of_byte_of_Z. f_equal.
    change (2 ^ 24) with 16777216. change (2 ^ 16) with 65536.
    change (2 ^ 8) with 256.
    Z.div_mod_to_equations. lia. }
  rewrite get_put_uint32
    by (change (2 ^ 32) with 4294967296; Z.div_mod_to_equations; lia).
  rewrite Hlo. f_equal. unfold int64.
  change (2 ^ 64) with 18446744073709551616 in *.
  change (2 ^ 63) with 9223372036854775808 in *.
  assert (E : m / 4294967296 * 4294967296 + m mod 4294967296 = m)
    by (Z.div_mod_to_equations; lia).
  rewrite E. rewrite (Z.mod_small m) by lia.
  subst m.
  destruct (Z.ltb_spec (v mod 18446744073709551616) 9223372036854775808);
    Z.div_mod_to_equations; lia.
Qed.


End BytesFacts.

(* ================================================================== *)
(** ** Readers that deliver a known byte stream *)

Module IOFacts.

Import Bytes IO.

Lemma Conn_Lawful : Lawful ConnRep.
Proof.
  split.
  - intros r s n Hr Hn Hs. unfold ConnRep in *.
    unfold Read, Conn_Reader, Conn_Read.
    destruct n as [|n']; [lia|].
    destruct (pending r) as [|b t] eqn:E; [congruence|].
    subst s.
    exists (Nat.min (S n') (S (segment r (reads r)))).
    eexists. split; [lia|]. split; reflexivity.
  - intros r n Hr Hn. unfold ConnRep in *.
    unfold Read, Conn_Reader, Conn_Read.
    destruct n as [|n']; [lia|]. rewrite Hr. eexists; split; eauto.
Qed.

Lemma firstn_nonempty {A} k (s : list A) :
  (1 <= k)%nat -> s <> [] -> exists a t, firstn k s = a :: t.
Proof.
  intros Hk Hs. destruct k; [lia|]. destruct s; [congruence|].
  simpl. eauto.
Qed.


Lemma Sink_LawfulWriter : LawfulWriter Sink.
Proof.
  split.
  - intros w a b. unfold Write, Sink_Writer, Sink_Write.
    rewrite app_assoc. reflexivity.
  - intros w. unfold Write, Sink_Writer, Sink_Write. apply app_nil_r.
Qed.

Lemma MultiWriter_LawfulWriter {A B} `{Writer A} `{Writer B} :
  LawfulWriter A -> LawfulWriter B -> LawfulWriter (A * B).
Proof.
  intros HA HB. split.
  - intros [a b] x y.
    change (Write (Write (a, b) x) y)
      with (Write (Write a x) y, Write (Write b x) y).
    change (Write (a, b) (x ++ y)) with (Write a (x ++ y), Write b (x ++ y)).
    rewrite (law_write_app HA), (law_write_app HB). reflexivity.
  - intros [a b].
    change (Write (a, b) []) with (Write a [], Write b []).
    rewrite (law_write_nil HA), (law_write_nil HB). reflexivity.
Qed.

Section LawfulReader.

Context {R : Type} `{Reader R}.
Variable Rep : R -> list byte -> Prop.
Hypothesis HL : Lawful Rep.

Lemma Tee_Lawful all h0 : Lawful (TeeRep Rep all h0).
Proof.
  split.
  - intros [c h] s n [Hp (consumed & Hall & Hh)] Hn Hs. simpl in *.
    pose proof (@law_read _ _ _ HL) as L.
    destruct (L c s n Hp Hn Hs) as (k & c' & Hk & HR & Hc').
    exists k, (c', h ++ firstn k s). split; [exact Hk|]. split.
    + unfold Read at 1, TeeReader_Reader, TeeReader_Read. simpl fst. simpl snd.
      rewrite HR.
      destruct (firstn_nonempty k s (proj1 Hk) Hs) as (a & t & E).
      rewrite E. reflexivity.
    + split; [exact Hc'|]. simpl.
      exists (consumed ++ firstn k s). split.
      * rewrite <- app_assoc, firstn_skipn. exact Hall.
      * rewrite Hh, app_assoc. reflexivity.
  - intros [c h] n [Hp (consumed & Hall & Hh)] Hn. simpl in *.
    pose proof (@law_eof _ _ _ HL) as L.
    destruct (L c n Hp Hn) as (c' & HR & Hc').
    exists (c', h). split.
    + unfold Read at 1, TeeReader_Reader, TeeReader_Read. simpl fst. simpl snd.
      rewrite HR. reflexivity.
    + split; [exact Hc'|]. simpl. eauto.
Qed.

Lemma Lim_Lawful rest : Lawful (LimRep Rep rest).
Proof.
  split.
  - intros [r n0] s n [Hr Hn0] Hn Hs. cbn [LR LN] in *.
    assert (Hlen : (0 < length s)%nat) by (destruct s; simpl; [congruence|lia]).
    unfold Read at 1, LimitedReader_Reader, LimitedReader_Read. cbn [LR LN].
    destruct (Z.leb_spec n0 0) as [Hle|_]; [lia|].
    set (n' := if (Z.of_nat n >? n0)%Z then Z.to_nat n0 else n).
    assert (Hn' : (1 <= n' <= length s)%nat /\ (n' <= n)%nat).
    { subst n'. destruct (Z.gtb_spec (Z.of_nat n) n0); lia. }
    pose proof (@law_read _ _ _ HL) as L.
    destruct (L r (s ++ rest) n' Hr ltac:(lia)) as (k & r' & Hk & HR & Hr').
    { destruct s; [congruence|discriminate]. }
    exists k. eexists. split; [lia|]. rewrite HR.
    rewrite firstn_app in *. rewrite skipn_app in Hr'.
    replace (k - length s)%nat with 0%nat in * by lia.
    simpl firstn in *. simpl skipn in Hr'. rewrite app_nil_r in *.
    split; [reflexivity|]. split; cbn [LR LN]; [exact Hr'|].
    rewrite length_firstn, length_skipn. lia.
  - intros [r n0] n [Hr Hn0] Hn. cbn [LR LN] in *.
    exists (mkLimited r n0). split.
    + unfold Read at 1, LimitedReader_Reader, LimitedReader_Read. cbn [LR LN].
      simpl in Hn0. subst n0. reflexivity.
    + split; assumption.
Qed.


Lemma ReadAtLeast_enough : forall fuel need r s,
  (need <= fuel)%nat -> (need <= length s)%nat -> Rep r s ->
  exists r', ReadAtLeast fuel r need = (firstn need s, None, r') /\
             Rep r' (skipn need s).
Proof.
  induction fuel as [|fuel IH]; intros need r s Hf Hs Hr.
  - assert (need = 0)%nat by lia. subst. simpl. eauto.
  - destruct need as [|m]; [simpl; eauto|].
    assert (Hne : s <> []) by (destruct s; simpl in *; [lia|congruence]).
    pose proof (@law_read _ _ _ HL) as L.
    destruct (L r s (S m) Hr ltac:(lia) Hne)
      as (k & r1 & Hk & HR & Hr1).
    assert (Hlen : length (firstn k s) = k) by (rewrite length_firstn; lia).
    destruct (IH (S m - k)%nat r1 (skipn k s)) as (r2 & HR2 & Hr2);
      [lia | rewrite length_skipn; lia | exact Hr1 |].
    exists r2. split.
    + cbn [ReadAtLeast]. rewrite HR. rewrite Hlen, HR2. f_equal. f_equal.
      rewrite <- (firstn_skipn k (firstn (S m) s)).
      rewrite firstn_firstn, Nat.min_l by lia.
      rewrite skipn_firstn_comm. reflexivity.
    + rewrite skipn_skipn in Hr2.
      replace (S m - k + k)%nat with (S m) in Hr2 by lia. exact Hr2.
Qed.

Lemma ReadFull_enough need r s :
  (need <= length s)%nat -> Rep r s ->
  exists r', ReadFull r need = (firstn need s, None, r') /\
             Rep r' (skipn need s).
Proof. intros. apply ReadAtLeast_enough; auto. Qed.

Lemma ReadFull_app r a rest :
  Rep r (a ++ rest) ->
  exists r', ReadFull r (length a) = (a, None, r') /\ Rep r' rest.
Proof.
  intros Hr.
  destruct (ReadFull_enough (length a) r (a ++ rest)) as (r' & HR & Hr');
    [rewrite length_app; lia | exact Hr |].
  rewrite firstn_app, firstn_all, Nat.sub_diag, app_nil_r in HR by idtac.
  rewrite skipn_app, skipn_all, Nat.sub_diag in Hr'. simpl in *.
  eauto.
Qed.

(** Copying from a lawful reader moves its whole stream to the writer. *)
Lemma CopyBuffer_all {W} `{Writer W} (HW : LawfulWriter W) (buf : nat) :
  (0 < buf)%nat ->
  forall fuel (dst : W) (src : R) s,
  Rep src s -> (length s < fuel)%nat ->
  exists src', CopyBuffer fuel dst src buf = Some (Write dst s, None, src') /\
               Rep src' [].
Proof.
  intros Hb. induction fuel as [|fuel IH]; intros dst src s Hr Hf; [lia|].
  cbn [CopyBuffer]. destruct s as [|b t].
  - pose proof (@law_eof _ _ _ HL) as L.
    destruct (L src buf Hr Hb) as (src' & HR & Hr').
    rewrite HR. rewrite (law_write_nil HW). eauto.
  - pose proof (@law_read _ _ _ HL) as L.
    destruct (L src (b :: t) buf Hr Hb ltac:(discriminate))
      as (k & src' & Hk & HR & Hr').
    rewrite HR.
    destruct (firstn_nonempty k (b :: t) (proj1 Hk) ltac:(discriminate))
      as (a & u & E).
    rewrite E, <- E.
    destruct (IH (Write dst (firstn k (b :: t))) src' (skipn k (b :: t)) Hr')
      as (src'' & HC & Hr'').
    { rewrite length_skipn. cbn [length] in *. lia. }
    rewrite HC. rewrite (law_write_app HW), firstn_skipn. eauto.
Qed.

End LawfulReader.

Lemma ReadFull_conn_app (c : Conn) a rest :
  pending c = a ++ rest ->
  exists c', ReadFull c (length a) = (a, None, c') /\ pending c' = rest.
Proof. intros Hp. exact (ReadFull_app ConnRep Conn_Lawful c a rest Hp). Qed.

End IOFacts.

(* ================================================================== *)
(** ** File names and the compression policy *)

Module PathFacts.

Import Protocol Path.

Lemma eqb_refl a : eqb a a = true.
Proof.
  induction a as [|x a IH]; [reflexivity|]. simpl.
  rewrite IH, (Byte.byte_dec_lb eq_refl). reflexivity.
Qed.

Lemma eqb_eq a : forall b, eqb a b = true <-> a = b.
Proof.
  induction a as [|x a IH]; intros [|y b]; simpl; split; intros E;
    try reflexivity; try discriminate.
  - apply andb_true_iff in E. destruct E as [E1 E2].
    apply Byte.byte_dec_bl in E1. apply IH in E2. congruence.
  - inversion E; subst. rewrite (Byte.byte_dec_lb eq_refl).
    apply IH. reflexivity.
Qed.

Lemma IsPathSeparator_true c : IsPathSeparator c = true <-> c = Separator.
Proof.
  unfold IsPathSeparator. split.
  - apply Byte.byte_dec_bl.
  - intros ->. apply Byte.byte_dec_lb. reflexivity.
Qed.

Lemma existsb_eqb_In x l : existsb (eqb x) l = true <-> In x l.
Proof.
  rewrite existsb_exists. split.
  - intros (y & Hin & E). apply eqb_eq in E. subst. exact Hin.
  - intros Hin. exists x. split; [exact Hin|apply eqb_refl].
Qed.

(** *** [getCompressionMethod] of the sender in use *)

Lemma getCompressionMethod_archive filename :
  Sender.getCompressionMethod filename true = CompressionNone.
Proof. reflexivity. Qed.

(** The answer depends on the name through its extension only. *)
Lemma getCompressionMethod_ext f g isDir :
  Ext f = Ext g ->
  Sender.getCompressionMethod f isDir = Sender.getCompressionMethod g isDir.
Proof. intros E. unfold Sender.getCompressionMethod. rewrite E. reflexivity. Qed.

Lemma skip_not_compress ext :
  In ext Sender.skip_exts -> existsb (eqb ext) Sender.compress_exts = false.
Proof.
  intros Hin. unfold Sender.skip_exts in Hin. cbn [map In] in Hin.
  repeat (destruct Hin as [<-|Hin]; [reflexivity|]). destruct Hin.
Qed.

(** zstd exactly for the five extensions, none for everything else. *)
Lemma getCompressionMethod_file filename :
  Sender.getCompressionMethod filename false
  = if existsb (eqb (ToLower (Ext filename))) Sender.compress_exts
    then CompressionZstd else CompressionNone.
Proof.
  unfold Sender.getCompressionMethod.
  destruct (existsb (eqb (ToLower (Ext filename))) Sender.skip_exts) eqn:E;
    [|reflexivity].
  apply existsb_eqb_In in E. rewrite (skip_not_compress _ E). reflexivity.
Qed.

Lemma getCompressionMethod_zstd_iff filename isDir :
  Sender.getCompressionMethod filename isDir = CompressionZstd
  <-> isDir = false /\ In (ToLower (Ext filename)) Sender.compress_exts.
Proof.
  destruct isDir.
  - rewrite getCompressionMethod_archive. split; [discriminate|].
    intros [E _]. discriminate.
  - rewrite getCompressionMethod_file, <- existsb_eqb_In.
    destruct (existsb _ Sender.compress_exts); split;
      try discriminate; intuition congruence.
Qed.

Lemma getCompressionMethod_skip_table :
  Forall (fun ext =>
            Sender.getCompressionMethod (str "file" ++ ext) false
            = CompressionNone) Sender.skip_exts.
Proof. repeat constructor. Qed.

Lemma getCompressionMethod_compress_table :
  Forall (fun ext =>
            Sender.getCompressionMethod (str "file" ++ ext) false
            = CompressionZstd) Sender.compress_exts.
Proof. repeat constructor. Qed.

(** C6 on the LanDrop copy of the sender ([protocol.go], line 358): for a
    directory its [getCompressionMethod] answers zstd where the claim, and
    the sender in use, answer none; on files the two copies agree. *)
Theorem LanDrop_archive_selects_zstd :
  LanDrop.getCompressionMethod (str "proj") true = CompressionZstd /\
  Sender.getCompressionMethod (str "proj") true = CompressionNone /\
  (forall filename,
     LanDrop.getCompressionMethod filename true = CompressionZstd) /\
  (forall filename,
     LanDrop.getCompressionMethod filename false
     = Sender.getCompressionMethod filename false).
Proof. repeat split. Qed.

(** *** [SanitizeFilename] *)

Lemma drop_seps_all r :
  Forall (fun c => c = Separator) r -> drop_seps r = [].
Proof.
  induction 1 as [|c r Hc _ IH]; [reflexivity|].
  subst c. simpl. exact IH.
Qed.

(** Empty names and names made of separators become [downloaded_file]. *)
Lemma SanitizeFilename_separators name :
  Forall (fun c => c = Separator) name ->
  Utils.SanitizeFilename name = str "downloaded_file".
Proof.
  intros Hall. unfold Utils.SanitizeFilename, Base.
  destruct name as [|c t]; [reflexivity|].
  rewrite drop_seps_all by (apply Forall_rev; exact Hall). reflexivity.
Qed.

Lemma take_elem_no_sep r : ~ In Separator (take_elem r).
Proof.
  induction r as [|c r IH]; [intros []|].
  simpl. destruct (IsPathSeparator c) eqn:E; [intros []|].
  intros [->|Hin]; [|exact (IH Hin)].
  rewrite (proj2 (IsPathSeparator_true Separator) eq_refl) in E. discriminate.
Qed.

(** The sanitized name never holds a separator. *)
Lemma SanitizeFilename_no_separator name :
  ~ In Separator (Utils.SanitizeFilename name).
Proof.
  unfold Utils.SanitizeFilename.
  destruct (eqb (Base name) (str ".") || eqb (Base name) (str "/")
            || eqb (TrimSpace (Base name)) []) eqn:E.
  - vm_compute. intuition discriminate.
  - apply orb_false_iff in E. destruct E as [E _].
    apply orb_false_iff in E. destruct E as [_ E].
    revert E. unfold Base. destruct name as [|c t];
      [intros _; vm_compute; intuition discriminate|].
    destruct (rev (take_elem (drop_seps (rev (c :: t))))) as [|x e] eqn:R.
    + discriminate.
    + intros _ Hin. rewrite <- R in Hin. apply in_rev in Hin.
      exact (take_elem_no_sep _ Hin).
Qed.

(** C9 at the header name [..]: [filepath.Base] leaves it as it is and
    [SanitizeFilename] lets it through, so the target path is the download
    directory joined with [..], the directory above it; the same happens
    for every name whose last element is [..]. *)
Theorem SanitizeFilename_keeps_dotdot :
  Utils.SanitizeFilename (str "..") = str ".." /\
  Utils.SanitizeFilename (str "docs/..") = str ".." /\
  Join [str "received_files"; Utils.SanitizeFilename (str "..")] = str "." /\
  Join [str "/home/u/Synapse-Downloads"; Utils.SanitizeFilename (str "..")]
  = str "/home/u" /\
  ~ inside (resolve [str "home"; str "u"] (str "received_files"))
      (resolve [str "home"; str "u"]
         (Join [str "received_files"; Utils.SanitizeFilename (str "..")])).
Proof.
  repeat (split; [reflexivity|]).
  intros (more & Hne & E). vm_compute in E.
  destruct more; discriminate.
Qed.

(** *** Splitting at separators *)

Lemma IsPathSeparator_false c : IsPathSeparator c = false <-> c <> Separator.
Proof.
  split.
  - intros E ->. rewrite (proj2 (IsPathSeparator_true Separator) eq_refl) in E.
    discriminate.
  - intros Hne. destruct (IsPathSeparator c) eqn:E; [|reflexivity].
    apply IsPathSeparator_true in E. contradiction.
Qed.

Lemma eqb_neq a b : eqb a b = false <-> a <> b.
Proof.
  split.
  - intros E ->. rewrite eqb_refl in E. discriminate.
  - intros Hne. destruct (eqb a b) eqn:E; [|reflexivity].
    apply eqb_eq in E. contradiction.
Qed.

Lemma split_sep_nonempty p : split_sep p <> [].
Proof.
  destruct p as [|c t]; [discriminate|]. simpl.
  destruct (IsPathSeparator c); [discriminate|].
  destruct (split_sep t); discriminate.
Qed.

Lemma split_sep_sep_free p : Forall (fun e => ~ In Separator e) (split_sep p).
Proof.
  induction p as [|c t IH]; [repeat constructor; intros []|].
  simpl. destruct (IsPathSeparator c) eqn:E.
  - constructor; [intros []|exact IH].
  - apply IsPathSeparator_false in E.
    destruct (split_sep t) as [|e es]; [repeat constructor; intros [H|[]]; congruence|].
    inversion IH; subst. constructor; [|assumption].
    intros [H|H]; [congruence|contradiction].
Qed.

Lemma split_sep_app a b :
  split_sep (a ++ Separator :: b) = split_sep a ++ split_sep b.
Proof.
  induction a as [|c a IH].
  - reflexivity.
  - cbn [app split_sep]. rewrite IH.
    destruct (IsPathSeparator c); [reflexivity|].
    destruct (split_sep a) as [|e es] eqn:E;
      [exfalso; exact (split_sep_nonempty a E)|].
    reflexivity.
Qed.

Lemma split_sep_elem e : ~ In Separator e -> split_sep e = [e].
Proof.
  induction e as [|c e IH]; intros Hn; [reflexivity|].
  simpl. assert (Hc : IsPathSeparator c = false).
  { apply IsPathSeparator_false. intros ->. apply Hn. left. reflexivity. }
  rewrite Hc, IH; [reflexivity|]. intros Hin. apply Hn. right. exact Hin.
Qed.

Lemma split_join es :
  es <> [] -> Forall (fun e => ~ In Separator e) es ->
  split_sep (join_sep es) = es.
Proof.
  induction es as [|e es IH]; intros Hne Hall; [congruence|].
  inversion Hall; subst. destruct es as [|e' es'].
  - simpl. apply split_sep_elem. assumption.
  - change (join_sep (e :: e' :: es'))
      with (e ++ Separator :: join_sep (e' :: es')).
    rewrite split_sep_app, split_sep_elem by assumption.
    rewrite IH by (assumption || discriminate). reflexivity.
Qed.

Lemma HasPrefix_app s pre :
  HasPrefix s pre = true -> exists r, s = pre ++ r.
Proof.
  revert s. induction pre as [|p pre IH]; intros s H.
  - exists s. reflexivity.
  - destruct s as [|c s]; [discriminate|]. simpl in H.
    apply andb_true_iff in H. destruct H as [H1 H2].
    apply Byte.byte_dec_bl in H1. subst c.
    destruct (IH s H2) as (r & ->). exists r. reflexivity.
Qed.

(** *** Where a path leads *)

Lemma walk_app d a b : walk d (a ++ b) = walk (walk d a) b.
Proof.
  revert d. induction a as [|e a IH]; intros d; [reflexivity|].
  cbn [app walk]. destruct (eqb e [] || eqb e dot); [apply IH|].
  destruct (eqb e dotdot); apply IH.
Qed.

Lemma walk_name d e es : is_name e -> walk d (e :: es) = walk (d ++ [e]) es.
Proof.
  intros (H1 & H2 & H3 & _). cbn [walk].
  rewrite (proj2 (eqb_neq e []) H1), (proj2 (eqb_neq e dot) H2),
    (proj2 (eqb_neq e dotdot) H3). reflexivity.
Qed.

Lemma walk_names d ns : Forall is_name ns -> walk d ns = d ++ ns.
Proof.
  revert d. induction ns as [|e ns IH]; intros d Hall.
  - simpl. rewrite app_nil_r. reflexivity.
  - inversion Hall; subst. rewrite walk_name by assumption.
    rewrite IH by assumption. rewrite <- app_assoc. reflexivity.
Qed.

(** *** The elements [filepath.Clean] keeps *)

Lemma stacked_rev r out : stacked r out -> cleaned r (rev out).
Proof.
  intros (ns & ds & -> & Hns & Hds & Hr).
  exists (rev ds), (rev ns). rewrite rev_app_distr.
  split; [reflexivity|]. split; [apply Forall_rev; exact Hds|].
  split; [apply Forall_rev; exact Hns|].
  intros E. rewrite (Hr E). reflexivity.
Qed.

Lemma stacked_push r out e : stacked r out -> is_name e -> stacked r (e :: out).
Proof.
  intros (ns & ds & -> & Hns & Hds & Hr) He.
  exists (e :: ns), ds. split; [reflexivity|]. split; [constructor; assumption|].
  split; assumption.
Qed.

Lemma stacked_top r top out :
  stacked r (top :: out) ->
  (top = dotdot /\ r = false /\ Forall (fun e => e = dotdot) out) \/
  (is_name top /\ stacked r out).
Proof.
  intros (ns & ds & E & Hns & Hds & Hr).
  destruct ns as [|n ns].
  - left. simpl in E. subst ds. inversion Hds; subst.
    split; [reflexivity|]. split; [|assumption].
    destruct r; [|reflexivity]. discriminate (Hr eq_refl).
  - right. inversion E; subst. inversion Hns; subst.
    split; [assumption|]. exists ns, ds. auto.
Qed.

Lemma is_name_not_dotdot e : is_name e -> e <> dotdot.
Proof. intros (_ & _ & H & _). exact H. Qed.

Section Cleaning.

Variable r : bool.

Lemma clean_elems_spec : forall es out d,
  Forall (fun e => ~ In Separator e) es ->
  stacked r out -> (r = true -> d = []) ->
  cleaned r (clean_elems r out es) /\
  walk d (clean_elems r out es) = walk d (rev out ++ es).
Proof.
  induction es as [|e es IH]; intros out d Hes Hout Hd.
  - simpl. rewrite app_nil_r. split; [apply stacked_rev; exact Hout|reflexivity].
  - inversion Hes as [|? ? He Hes']; subst. cbn [clean_elems].
    destruct (eqb e [] || eqb e dot) eqn:E0.
    { (* empty or . *)
      destruct (IH out d Hes' Hout Hd) as [Hc Hw]. split; [exact Hc|].
      rewrite Hw, !walk_app. cbn [walk]. rewrite E0. reflexivity. }
    apply orb_false_iff in E0. destruct E0 as [E1 E2].
    destruct (eqb e dotdot) eqn:E3.
    { (* .. *)
      apply eqb_eq in E3. subst e.
      destruct out as [|top out'].
      - destruct r eqn:Er.
        + destruct (IH [] d Hes' Hout Hd) as [Hc Hw]. split; [exact Hc|].
          rewrite Hw. simpl. rewrite (Hd eq_refl). reflexivity.
        + assert (Hs : stacked false [dotdot]).
          { exists [], [dotdot]. repeat split; auto. discriminate. }
          destruct (IH [dotdot] d Hes' Hs Hd) as [Hc Hw].
          split; [exact Hc|]. rewrite Hw. reflexivity.
      - destruct (stacked_top _ _ _ Hout) as [(-> & Er & Hdd)|(Hn & Hout')].
        + rewrite eqb_refl.
          assert (Hs : stacked r (dotdot :: dotdot :: out')).
          { exists [], (dotdot :: dotdot :: out'). split; [reflexivity|].
            split; [constructor|]. split; [repeat constructor; exact Hdd|].
            rewrite Er. discriminate. }
          destruct (IH _ d Hes' Hs Hd) as [Hc Hw]. split; [exact Hc|].
          rewrite Hw. cbn [rev]. rewrite <- !app_assoc. reflexivity.
        + rewrite (proj2 (eqb_neq top dotdot) (is_name_not_dotdot _ Hn)).
          destruct (IH out' d Hes' Hout' Hd) as [Hc Hw]. split; [exact Hc|].
          rewrite Hw. cbn [rev]. rewrite <- app_assoc. cbn [app].
          rewrite !walk_app, (walk_name _ top _ Hn).
          cbn [walk]. rewrite E1, E2, eqb_refl. cbn [orb].
          rewrite removelast_last. reflexivity. }
    (* a name *)
    assert (Hn : is_name e).
    { apply eqb_neq in E1, E2, E3. repeat split; assumption. }
    destruct (IH (e :: out) d Hes' (stacked_push _ _ _ Hout Hn) Hd) as [Hc Hw].
    split; [exact Hc|]. rewrite Hw. cbn [rev]. rewrite <- app_assoc.
    reflexivity.
Qed.

End Cleaning.

Lemma stacked_nil r : stacked r [].
Proof. exists [], []. repeat split; auto. Qed.

Lemma elems_of_cleaned p : cleaned (rooted p) (elems_of p).
Proof.
  apply (clean_elems_spec (rooted p) (split_sep p) [] []
           (split_sep_sep_free p) (stacked_nil _) (fun _ => eq_refl)).
Qed.

Lemma resolve_walk cwd p :
  resolve cwd p = walk (if rooted p then [] else cwd) (split_sep p).
Proof.
  destruct p as [|c t]; [reflexivity|]. simpl.
  destruct (IsPathSeparator c); reflexivity.
Qed.

(** A path leads where the elements [filepath.Clean] keeps of it lead. *)
Lemma resolve_elems cwd p :
  resolve cwd p = walk (if rooted p then [] else cwd) (elems_of p).
Proof.
  rewrite resolve_walk. unfold elems_of. symmetry.
  apply (clean_elems_spec (rooted p) (split_sep p) [] _
           (split_sep_sep_free p) (stacked_nil _)).
  intros E. rewrite E. reflexivity.
Qed.

Lemma cleaned_elem r es e :
  cleaned r es -> In e es -> e <> [] /\ ~ In Separator e /\ e <> dot.
Proof.
  intros (ds & ns & -> & Hds & Hns & _) Hin.
  apply in_app_or in Hin. destruct Hin as [Hin|Hin].
  - rewrite Forall_forall in Hds. rewrite (Hds e Hin).
    repeat split; try discriminate. vm_compute. intuition discriminate.
  - rewrite Forall_forall in Hns. destruct (Hns e Hin) as (H1 & H2 & _ & H4).
    auto.
Qed.

Lemma cleaned_sep_free r es :
  cleaned r es -> Forall (fun e => ~ In Separator e) es.
Proof.
  intros Hc. apply Forall_forall. intros e Hin.
  apply (cleaned_elem r es e Hc Hin).
Qed.

Lemma cleaned_names r first rest :
  cleaned r (first :: rest) -> first <> dotdot -> Forall is_name (first :: rest).
Proof.
  intros (ds & ns & E & Hds & Hns & _) Hne.
  destruct ds as [|d ds]; [simpl in E; subst ns; exact Hns|].
  inversion E; subst. inversion Hds; subst. congruence.
Qed.

Lemma Clean_elems p :
  p <> [] ->
  Clean p = if rooted p then Separator :: join_sep (elems_of p)
            else match elems_of p with
                 | [] => dot
                 | _ :: _ => join_sep (elems_of p)
                 end.
Proof. destruct p as [|c t]; [congruence|]. reflexivity. Qed.

Lemma join_sep_head e es :
  e <> [] -> ~ In Separator e -> rooted (join_sep (e :: es)) = false.
Proof.
  intros Hne Hsf. destruct e as [|c e]; [congruence|].
  assert (Hc : IsPathSeparator c = false).
  { apply IsPathSeparator_false. intros ->. apply Hsf. left. reflexivity. }
  destruct es; simpl; exact Hc.
Qed.

(** Cleaning a path does not change where it leads. *)
Lemma resolve_Clean cwd p : resolve cwd (Clean p) = resolve cwd p.
Proof.
  destruct p as [|c t] eqn:Ep; [reflexivity|]. rewrite <- Ep.
  assert (Hp : p <> []) by (subst; discriminate).
  rewrite (resolve_elems cwd p), Clean_elems by exact Hp.
  pose proof (elems_of_cleaned p) as Hc.
  destruct (rooted p) eqn:Er.
  - rewrite resolve_walk. cbn [rooted split_sep].
    change (IsPathSeparator Separator) with true. cbv iota.
    destruct (elems_of p) as [|e es] eqn:Ee; [reflexivity|].
    rewrite split_join;
      [reflexivity | discriminate | exact (cleaned_sep_free _ _ Hc)].
  - destruct (elems_of p) as [|e es] eqn:Ee; [reflexivity|].
    rewrite resolve_walk.
    destruct (cleaned_elem _ _ e Hc (or_introl eq_refl)) as (H1 & H2 & _).
    rewrite (join_sep_head e es H1 H2).
    rewrite split_join;
      [reflexivity | discriminate | exact (cleaned_sep_free _ _ Hc)].
Qed.

(** *** Confinement under a destination *)

Lemma named_below_nonempty dest : named_below dest -> dest <> [].
Proof. intros (first & rest & E & _) ->. discriminate E. Qed.

Lemma Join_two dest name :
  dest <> [] -> Join [dest; name] = Clean (dest ++ Separator :: name).
Proof. destruct dest; [congruence|]. reflexivity. Qed.

Lemma rooted_app dest tail : dest <> [] -> rooted (dest ++ tail) = rooted dest.
Proof. destruct dest; [congruence|]. reflexivity. Qed.

(** What [filepath.Clean] returns, split at the separators. *)
Lemma split_Clean p e es :
  elems_of p = e :: es ->
  split_sep (Clean p) = (if rooted p then [[]] else []) ++ e :: es.
Proof.
  intros Ee. assert (Hp : p <> []) by (intros ->; discriminate Ee).
  pose proof (elems_of_cleaned p) as Hc. rewrite Ee in Hc.
  rewrite Clean_elems by exact Hp. rewrite Ee.
  destruct (rooted p).
  - cbn [split_sep]. change (IsPathSeparator Separator) with true. cbv iota.
    rewrite split_join;
      [reflexivity | discriminate | exact (cleaned_sep_free _ _ Hc)].
  - rewrite split_join;
      [reflexivity | discriminate | exact (cleaned_sep_free _ _ Hc)].
Qed.

(** The check of [unzip], for a destination named below the root or the
    working directory: a joined path that starts with the cleaned
    destination and a separator leads strictly below the destination. *)
Lemma join_confined cwd dest name :
  named_below dest ->
  HasPrefix (Join [dest; name]) (Clean dest ++ [Separator]) = true ->
  inside (resolve cwd dest) (resolve cwd (Join [dest; name])).
Proof.
  intros Hnb Hpre. pose proof (named_below_nonempty dest Hnb) as Hne.
  destruct Hnb as (first & rest & HeD & Hfirst).
  rewrite Join_two in * by exact Hne.
  set (q := dest ++ Separator :: name) in *.
  assert (Hrq : rooted q = rooted dest) by (apply rooted_app; exact Hne).
  destruct (HasPrefix_app _ _ Hpre) as (R & HP).
  rewrite <- app_assoc in HP. cbn [app] in HP.
  pose proof (elems_of_cleaned dest) as HcD. rewrite HeD in HcD.
  pose proof (cleaned_names _ _ _ HcD Hfirst) as HnD.
  pose proof (elems_of_cleaned q) as HcP. rewrite Hrq in HcP.
  assert (Hq : q <> []) by (subst q; destruct dest; discriminate).
  (* the elements of the joined path extend those of the destination *)
  assert (HeP : elems_of q = (first :: rest) ++ split_sep R).
  { apply (f_equal split_sep) in HP.
    rewrite split_sep_app, (split_Clean dest first rest HeD) in HP.
    destruct (elems_of q) as [|e es] eqn:Ee.
    - exfalso. rewrite Clean_elems, Ee, Hrq in HP by exact Hq.
      inversion HnD as [|? ? (H1 & H2 & _) _]; subst.
      destruct (rooted dest); cbn in HP; inversion HP; subst;
        [apply H1|apply H2]; reflexivity.
    - rewrite (split_Clean q e es Ee), Hrq, <- app_assoc in HP.
      apply app_inv_head in HP. exact HP. }
  rewrite HeP in HcP. cbn [app] in HcP.
  pose proof (cleaned_names _ _ _ HcP Hfirst) as HnP.
  inversion HnP as [|? ? _ HnP']; subst.
  apply Forall_app in HnP'. destruct HnP' as [_ HnR].
  exists (split_sep R). split; [apply split_sep_nonempty|].
  rewrite resolve_Clean, (resolve_elems cwd q), (resolve_elems cwd dest).
  rewrite Hrq, HeP, HeD, walk_app. apply walk_names. exact HnR.
Qed.

(** *** Where the sanitized name lands *)

Lemma Base_nonempty name : Base name <> [].
Proof.
  unfold Base. destruct name as [|c t]; [discriminate|].
  destruct (rev (take_elem (drop_seps (rev (c :: t))))); discriminate.
Qed.

(** Apart from [..], what [SanitizeFilename] returns is a name. *)
Lemma SanitizeFilename_name name :
  Utils.SanitizeFilename name = dotdot \/ is_name (Utils.SanitizeFilename name).
Proof.
  destruct (eqb (Utils.SanitizeFilename name) dotdot) eqn:Ed;
    [left; apply eqb_eq; exact Ed|right].
  apply eqb_neq in Ed.
  pose proof (SanitizeFilename_no_separator name) as Hsf.
  revert Ed Hsf. unfold Utils.SanitizeFilename.
  destruct (eqb (Base name) (str ".") || eqb (Base name) (str "/")
            || eqb (TrimSpace (Base name)) []) eqn:E; intros Ed Hsf.
  - repeat split; try discriminate. exact Hsf.
  - apply orb_false_iff in E. destruct E as [E _].
    apply orb_false_iff in E. destruct E as [E _]. apply eqb_neq in E.
    repeat split; [apply Base_nonempty|exact E|exact Ed|exact Hsf].
Qed.

(** The target path of a sanitized name other than [..] is a direct child
    of the download directory. *)
Lemma sanitized_target_inside cwd dir name :
  dir <> [] -> Utils.SanitizeFilename name <> dotdot ->
  resolve cwd (Join [dir; Utils.SanitizeFilename name])
  = resolve cwd dir ++ [Utils.SanitizeFilename name].
Proof.
  intros Hdir Hdd.
  destruct (SanitizeFilename_name name) as [E|Hn]; [contradiction|].
  set (safe := Utils.SanitizeFilename name) in *.
  rewrite Join_two, resolve_Clean by exact Hdir.
  rewrite !resolve_walk, rooted_app, split_sep_app, walk_app by exact Hdir.
  rewrite (split_sep_elem safe) by (destruct Hn as (_ & _ & _ & Hs); exact Hs).
  apply walk_names. constructor; [exact Hn|constructor].
Qed.

End PathFacts.

(* ================================================================== *)
(** ** The chunk framing law *)

Module ProtocolFacts.

Import Bytes IO Protocol IOFacts BytesFacts.

Lemma uint32_fits p : fits p -> uint32 (Z.of_nat (length p)) = Z.of_nat (length p).
Proof. intros Hp. unfold uint32. apply Z.mod_small. unfold fits in Hp. lia. Qed.

Section Writing.

Context {W : Type} `{Writer W}.
Hypothesis HW : LawfulWriter W.

Lemma write_frame (w : W) p :
  fits p -> Write (NewChunkedWriter w) p = NewChunkedWriter (Write w (frame p)).
Proof.
  intros Hp. unfold Write at 1, ChunkedWriter_Writer, ChunkedWriter_Write.
  destruct p as [|b t].
  - simpl. rewrite (law_write_nil HW). reflexivity.
  - rewrite uint32_fits by exact Hp. cbn [cw].
    rewrite (law_write_app HW). reflexivity.
Qed.

Lemma write_all_frames ps : forall w : W,
  Forall fits ps ->
  write_all (NewChunkedWriter w) ps = NewChunkedWriter (Write w (frames ps)).
Proof.
  unfold write_all.
  induction ps as [|p ps IH]; intros w Hps.
  - simpl. rewrite (law_write_nil HW). reflexivity.
  - inversion Hps; subst. cbn [fold_left].
    rewrite write_frame by assumption. rewrite IH by assumption.
    unfold frames. cbn [flat_map]. rewrite (law_write_app HW). reflexivity.
Qed.

Lemma close_after_frames ps (w : W) :
  Forall fits ps ->
  ChunkedWriter_Close (write_all (NewChunkedWriter w) ps)
  = Write w (frames ps ++ sentinel).
Proof.
  intros Hps. rewrite write_all_frames by exact Hps.
  unfold ChunkedWriter_Close. cbn [cw].
  rewrite (law_write_app HW). reflexivity.
Qed.

End Writing.

Lemma chunked_stream_frames ps :
  Forall fits ps -> chunked_stream ps = frames ps ++ sentinel.
Proof.
  intros Hps. unfold chunked_stream.
  rewrite (close_after_frames Sink_LawfulWriter) by exact Hps. reflexivity.
Qed.

Lemma frames_app a b : frames (a ++ b) = frames a ++ frames b.
Proof. unfold frames. apply flat_map_app. Qed.

Lemma frames_filter ps : frames (filter nonempty ps) = frames ps.
Proof.
  induction ps as [|p ps IH]; [reflexivity|].
  destruct p; simpl; [exact IH|].
  unfold frames in *. cbn [flat_map]. rewrite IH. reflexivity.
Qed.

Lemma concat_filter ps : concat (filter nonempty ps) = concat ps.
Proof.
  induction ps as [|p ps IH]; [reflexivity|].
  destruct p; simpl; [exact IH|]. rewrite IH. reflexivity.
Qed.

Section Reading.

Context {R : Type} `{Reader R}.
Variable Rep : R -> list byte -> Prop.
Hypothesis HL : Lawful Rep.

(** After end of stream every read reports end of stream and leaves the
    reader alone. *)
Lemma Read_after_eof (c : ChunkedReader R) n :
  eof c = true -> Read c n = ([], Some EOF, c).
Proof.
  intros He. unfold Read, ChunkedReader_Reader, ChunkedReader_Read.
  rewrite He. reflexivity.
Qed.

(** At a chunk boundary, the sentinel ends the stream and nothing after it
    is touched. *)
Lemma Read_sentinel (c : ChunkedReader R) n rest :
  eof c = false -> currChunk c = 0%Z -> Rep (cr c) (sentinel ++ rest) ->
  exists r', Read c n = ([], Some EOF, mkChunkedReader r' 0 true) /\
             Rep r' rest.
Proof.
  intros He Hc Hr.
  destruct (ReadFull_app Rep HL _ _ _ Hr) as (r' & HR & Hr').
  exists r'. split; [|exact Hr'].
  unfold Read at 1, ChunkedReader_Reader, ChunkedReader_Read.
  rewrite He, Hc. cbn [Z.eqb].
  change (length sentinel) with 4%nat in HR. rewrite HR.
  reflexivity.
Qed.

(** Inside a chunk a read delivers between 1 and [len(p)] bytes of the
    chunk and never asks the stream for more than the chunk holds. *)
Lemma Read_data (c : ChunkedReader R) n cur rest :
  eof c = false -> currChunk c = Z.of_nat (length cur) -> cur <> [] ->
  (0 < n)%nat -> Rep (cr c) (cur ++ rest) ->
  exists k r', (1 <= k <= length cur)%nat /\ (k <= n)%nat /\
    Read c n = (firstn k cur, None,
                mkChunkedReader r' (Z.of_nat (length (skipn k cur))) false) /\
    Rep r' (skipn k cur ++ rest).
Proof.
  intros He Hc Hne Hn Hr.
  assert (Hlen : (0 < length cur)%nat) by (destruct cur; simpl; [congruence|lia]).
  unfold Read at 1, ChunkedReader_Reader, ChunkedReader_Read.
  rewrite He, Hc.
  destruct (Z.eqb_spec (Z.of_nat (length cur)) 0) as [E|_]; [lia|].
  rewrite He, Hc.
  set (n' := if (Z.of_nat n >? Z.of_nat (length cur))%Z
             then Z.to_nat (Z.of_nat (length cur)) else n).
  assert (Hn' : (1 <= n' <= length cur)%nat /\ (n' <= n)%nat).
  { subst n'. destruct (Z.gtb_spec (Z.of_nat n) (Z.of_nat (length cur))); lia. }
  pose proof (@law_read _ _ _ HL) as L.
  destruct (L (cr c) (cur ++ rest) n' Hr ltac:(lia)) as (k & r' & Hk & HR & Hr').
  { destruct cur; [congruence|discriminate]. }
  exists k, r'. split; [lia|]. split; [lia|].
  rewrite HR.
  rewrite firstn_app in *. rewrite skipn_app in Hr'.
  replace (k - length cur)%nat with 0%nat in * by lia.
  simpl firstn in *. simpl skipn in Hr'. rewrite app_nil_r in *.
  split; [|exact Hr'].
  f_equal. f_equal. rewrite length_firstn, length_skipn. lia.
Qed.

(** At a chunk boundary a length header is read in full and the read goes
    on inside the new chunk. *)
Lemma Read_header (c : ChunkedReader R) n p rest :
  eof c = false -> currChunk c = 0%Z -> p <> [] -> fits p ->
  Rep (cr c) (frame p ++ rest) ->
  exists r', Rep r' (p ++ rest) /\
    Read c n = Read (mkChunkedReader r' (Z.of_nat (length p)) false) n.
Proof.
  intros He Hc Hne Hp Hr.
  assert (Hlen : (0 < length p)%nat) by (destruct p; simpl; [congruence|lia]).
  assert (Hf : frame p = put_uint32 (Z.of_nat (length p)) ++ p)
    by (destruct p; [congruence|reflexivity]).
  rewrite Hf, <- app_assoc in Hr.
  destruct (ReadFull_app Rep HL _ _ _ Hr) as (r' & HR & Hr').
  exists r'. split; [exact Hr'|].
  unfold Read, ChunkedReader_Reader, ChunkedReader_Read.
  rewrite He, Hc. cbn [Z.eqb eof currChunk cr].
  rewrite put_uint32_length in HR. rewrite HR.
  rewrite get_put_uint32 by (unfold fits in Hp; lia).
  destruct (Z.eqb_spec (Z.of_nat (length p)) 0) as [E|_]; [lia|].
  reflexivity.
Qed.

(** Reading to the end: the data of the chunk in progress, then of every
    frame, then end of stream exactly at the sentinel. *)
Lemma read_chunks (bufs : nat -> nat) :
  (forall j, 0 < bufs j)%nat ->
  forall fuel cur ps rest i (c : ChunkedReader R),
  Forall (fun p => p <> [] /\ fits p) ps ->
  eof c = false -> currChunk c = Z.of_nat (length cur) ->
  Rep (cr c) (cur ++ frames ps ++ sentinel ++ rest) ->
  (length cur + length (concat ps) < fuel)%nat ->
  exists r',
    read_to_end fuel bufs i c
      = Some (cur ++ concat ps, EOF, mkChunkedReader r' 0 true) /\
    Rep r' rest.
Proof.
  intros Hb.
  induction fuel as [|fuel IH]; intros cur ps rest i c Hps He Hc Hr Hf; [lia|].
  cbn [read_to_end].
  (* one data step from a state inside a chunk *)
  assert (Hstep : forall (c1 : ChunkedReader R) cur1 ps1,
    Forall (fun p => p <> [] /\ fits p) ps1 ->
    cur1 <> [] -> eof c1 = false -> currChunk c1 = Z.of_nat (length cur1) ->
    Rep (cr c1) (cur1 ++ frames ps1 ++ sentinel ++ rest) ->
    (length cur1 + length (concat ps1) < S fuel)%nat ->
    exists r',
      (let '(data, err, r1) := Read c1 (bufs i) in
       match err with
       | Some e => Some (data, e, r1)
       | None => match read_to_end fuel bufs (S i) r1 with
                 | Some (more, e, r2) => Some (data ++ more, e, r2)
                 | None => None
                 end
       end) = Some (cur1 ++ concat ps1, EOF, mkChunkedReader r' 0 true) /\
      Rep r' rest).
  { intros c1 cur1 ps1 Hps1 Hne1 He1 Hc1 Hr1 Hf1.
    destruct (Read_data c1 (bufs i) cur1 _ He1 Hc1 Hne1 (Hb i) Hr1)
      as (k & r1 & Hk & Hkn & HR & Hr1').
    rewrite HR.
    destruct (IH (skipn k cur1) ps1 rest (S i)
                 (mkChunkedReader r1 (Z.of_nat (length (skipn k cur1))) false))
      as (r' & HE & Hr'); auto.
    { rewrite length_skipn. lia. }
    exists r'. rewrite HE. split; [|exact Hr'].
    rewrite app_assoc, firstn_skipn. reflexivity. }
  destruct cur as [|b cur'].
  - destruct ps as [|p ps'].
    + simpl in Hr.
      destruct (Read_sentinel c (bufs i) rest He Hc Hr) as (r' & HR & Hr').
      rewrite HR. exists r'. split; [reflexivity|exact Hr'].
    + inversion Hps as [|? ? [Hpne Hpf] Hps']; subst.
      unfold frames in Hr. cbn [flat_map app] in Hr.
      rewrite <- app_assoc in Hr.
      destruct (Read_header c (bufs i) _ _ He Hc Hpne Hpf Hr) as (r1 & Hr1 & HR).
      rewrite HR.
      destruct (Hstep (mkChunkedReader r1 (Z.of_nat (length p)) false) p ps')
        as (r' & HE & Hr'); auto.
      { simpl in Hf. rewrite length_app in Hf. lia. }
      exists r'. split; [|exact Hr']. exact HE.
  - apply Hstep; auto. discriminate.
Qed.

End Reading.


(** *** Slices too long for the length field *)

Lemma overflow_stream (p : list byte) :
  p <> [] -> uint32 (Z.of_nat (length p)) = 0%Z ->
  chunked_stream [p] = sentinel ++ p ++ sentinel.
Proof.
  intros Hne Hz. unfold chunked_stream, write_all. cbn [fold_left].
  unfold ChunkedWriter_Close, Write, ChunkedWriter_Writer, ChunkedWriter_Write.
  destruct p as [|b t]; [congruence|].
  rewrite Hz. reflexivity.
Qed.

Lemma slice_4GiB_length : Z.of_nat (length slice_4GiB) = 4294967296%Z.
Proof. unfold slice_4GiB. rewrite repeat_length. lia. Qed.

Lemma slice_4GiB_nonempty : slice_4GiB <> [].
Proof.
  intros E. pose proof slice_4GiB_length as L. rewrite E in L.
  discriminate L.
Qed.

(** C4, as stated, at a slice of 2^32 bytes: [uint32(len(p))] is 0, so the
    writer emits the sentinel in front of the data, and the reader reports
    end of stream at its first call having delivered none of the 2^32
    bytes. *)
Lemma chunk_framing_overflow_4GiB :
  firstn 4 (chunked_stream [slice_4GiB]) = sentinel /\
  concat [slice_4GiB] <> [] /\
  exists c',
    read_to_end 1 (fun _ => 1%nat) 0
      (NewChunkedReader (mkConn (chunked_stream [slice_4GiB]) (fun _ => 0%nat) 0))
    = Some ([], EOF, c').
Proof.
  assert (Hz : uint32 (Z.of_nat (length slice_4GiB)) = 0%Z)
    by (rewrite slice_4GiB_length; reflexivity).
  rewrite (overflow_stream slice_4GiB slice_4GiB_nonempty Hz).
  split; [reflexivity|]. split.
  - cbn [concat]. rewrite app_nil_r. exact slice_4GiB_nonempty.
  - cbn [read_to_end].
    destruct (Read_sentinel ConnRep Conn_Lawful
                (NewChunkedReader
                   (mkConn (sentinel ++ slice_4GiB ++ sentinel) (fun _ => 0%nat) 0))
                1%nat (slice_4GiB ++ sentinel) eq_refl eq_refl eq_refl)
      as (r' & HR & _).
    rewrite HR. eauto.
Qed.

(** *** The framing law on a connection *)

(** C4 (amended): slices shorter than 2^32 bytes written through a
    [ChunkedWriter] and closed are read back by a [ChunkedReader] as their
    concatenation, whatever the buffer sizes of the consumer and the
    segmentation of the transport; the read ends with end of stream at the
    sentinel; a zero-length write emits nothing; after end of stream every
    read reports end of stream again. *)
Theorem chunk_framing_law :
  forall (ps : list (list byte)) (seg bufs : nat -> nat) (fuel : nat),
  Forall fits ps ->
  (forall j, 0 < bufs j)%nat ->
  (length (concat ps) < fuel)%nat ->
  (forall (w : Sink), Write (NewChunkedWriter w) [] = NewChunkedWriter w) /\
  exists c',
    read_to_end fuel bufs 0
      (NewChunkedReader (mkConn (chunked_stream ps) seg 0))
    = Some (concat ps, EOF, c') /\
    eof c' = true /\ pending (cr c') = [] /\
    forall n, Read c' n = ([], Some EOF, c').
Proof.
  intros ps seg bufs fuel Hps Hb Hf. split; [reflexivity|].
  rewrite chunked_stream_frames by exact Hps.
  rewrite <- frames_filter. rewrite <- concat_filter in *.
  destruct (read_chunks ConnRep Conn_Lawful bufs Hb fuel []
              (filter nonempty ps) [] 0%nat
              (NewChunkedReader
                 (mkConn (frames (filter nonempty ps) ++ sentinel) seg 0)))
    as (r' & HE & Hr').
  - apply Forall_forall. intros p Hin. apply filter_In in Hin.
    destruct Hin as [Hin Hne]. split.
    + destruct p; [discriminate|congruence].
    + rewrite Forall_forall in Hps. apply Hps, Hin.
  - reflexivity.
  - reflexivity.
  - unfold ConnRep. cbn [cr NewChunkedReader pending app].
    rewrite app_nil_r. reflexivity.
  - simpl. exact Hf.
  - exists (mkChunkedReader r' 0 true). split; [exact HE|].
    split; [reflexivity|]. split; [exact Hr'|].
    intros n. apply Read_after_eof. reflexivity.
Qed.

Lemma chunk_framing_law_witness :
  exists c',
    read_to_end 4 (fun _ => 2%nat) 0
      (NewChunkedReader
         (mkConn (chunked_stream [[x01; x02]; []; [x03]]) (fun _ => 0%nat) 0))
    = Some ([x01; x02; x03], EOF, c') /\
    eof c' = true /\ pending (cr c') = [] /\
    forall n, Read c' n = ([], Some EOF, c').
Proof.
  refine (proj2 (chunk_framing_law [[x01; x02]; []; [x03]]
                   (fun _ => 0%nat) (fun _ => 2%nat) 4%nat _ _ _)).
  - repeat constructor; unfold fits; simpl; lia.
  - intros j. lia.
  - simpl. lia.
Defined.


(** *** The reader stops at the sentinel *)

(** Inside a chunk, one [Read] of the chunked reader is one [Read] of the
    stream under it, with a buffer no longer than what is left of the
    chunk. *)
Lemma Read_request_bound {R} `{Reader R} (c : ChunkedReader R) n :
  eof c = false -> (0 < currChunk c)%Z ->
  exists n', (Z.of_nat n' <= currChunk c)%Z /\ (n' <= n)%nat /\
    Read c n = (let '(data, err, r2) := Read (cr c) n' in
                (data, err,
                 mkChunkedReader r2 (currChunk c - Z.of_nat (length data))
                   false)).
Proof.
  intros He Hc.
  exists (if (Z.of_nat n >? currChunk c)%Z then Z.to_nat (currChunk c) else n).
  split; [|split].
  - destruct (Z.gtb_spec (Z.of_nat n) (currChunk c)); lia.
  - destruct (Z.gtb_spec (Z.of_nat n) (currChunk c)); lia.
  - unfold Read at 1, ChunkedReader_Reader, ChunkedReader_Read.
    rewrite He. destruct (Z.eqb_spec (currChunk c) 0) as [E|_]; [lia|].
    rewrite He. reflexivity.
Qed.

(** C10: a chunked reader over the receiver's tee of the connection, fed a
    well-formed chunked stream followed by [trailer], asks the stream for
    no more than the rest of the current chunk at each call; read to its
    end it delivers the data and leaves [trailer] on the connection, the
    hasher having seen the chunked stream and nothing of [trailer]; a
    32-byte footer that starts [trailer] is then read straight from the
    connection. *)
Theorem reader_stops_at_sentinel :
  forall (ps : list (list byte)) (trailer : list byte) (hasher : Sink)
         (seg bufs : nat -> nat) (fuel : nat),
  Forall fits ps ->
  (forall j, 0 < bufs j)%nat ->
  (length (concat ps) < fuel)%nat ->
  (forall (c : ChunkedReader (Conn * Sink)) n,
     eof c = false -> (0 < currChunk c)%Z ->
     exists n', (Z.of_nat n' <= currChunk c)%Z /\
       Read c n = (let '(data, err, r2) := Read (cr c) n' in
                   (data, err,
                    mkChunkedReader r2 (currChunk c - Z.of_nat (length data))
                      false))) /\
  exists conn' hasher',
    read_to_end fuel bufs 0
      (NewChunkedReader (mkConn (chunked_stream ps ++ trailer) seg 0, hasher))
    = Some (concat ps, EOF, mkChunkedReader (conn', hasher') 0 true) /\
    pending conn' = trailer /\
    hasher' = hasher ++ chunked_stream ps /\
    forall footer rest, trailer = footer ++ rest -> length footer = 32%nat ->
      exists conn'', ReadFull conn' 32 = (footer, None, conn'') /\
                     pending conn'' = rest.
Proof.
  intros ps trailer hasher seg bufs fuel Hps Hb Hf. split.
  { intros c n He Hc.
    destruct (Read_request_bound c n He Hc) as (n' & Hn' & _ & HR). eauto. }
  rewrite chunked_stream_frames by exact Hps.
  rewrite <- frames_filter. rewrite <- concat_filter in *.
  rewrite <- app_assoc.
  set (all := frames (filter nonempty ps) ++ sentinel ++ trailer).
  destruct (read_chunks (TeeRep ConnRep all hasher)
              (Tee_Lawful ConnRep Conn_Lawful all hasher) bufs Hb fuel []
              (filter nonempty ps) trailer 0%nat
              (NewChunkedReader (mkConn all seg 0, hasher)))
    as ([conn' hasher'] & HE & [Hc' (consumed & Hall & Hh)]).
  - apply Forall_forall. intros p Hin. apply filter_In in Hin.
    destruct Hin as [Hin Hne]. split.
    + destruct p; [discriminate|congruence].
    + rewrite Forall_forall in Hps. apply Hps, Hin.
  - reflexivity.
  - reflexivity.
  - split; [reflexivity|]. exists []. split; [reflexivity|].
    simpl. rewrite app_nil_r. reflexivity.
  - simpl. exact Hf.
  - cbn [fst snd] in *. exists conn', hasher'.
    split; [exact HE|]. split; [exact Hc'|]. split.
    + subst all. rewrite app_assoc in Hall. apply app_inv_tail in Hall.
      subst consumed. exact Hh.
    + intros footer rest -> H32. rewrite <- H32.
      apply ReadFull_conn_app. exact Hc'.
Qed.

Lemma reader_stops_at_sentinel_witness :
  exists conn' hasher',
    read_to_end 4 (fun _ => 2%nat) 0
      (NewChunkedReader
         (mkConn (chunked_stream [[x01; x02]; []; [x03]] ++ repeat xaa 32)
                 (fun _ => 0%nat) 0, ([] : Sink)))
    = Some ([x01; x02; x03], EOF, mkChunkedReader (conn', hasher') 0 true) /\
    pending conn' = repeat xaa 32 /\
    hasher' = [] ++ chunked_stream [[x01; x02]; []; [x03]] /\
    forall footer rest, repeat xaa 32 = footer ++ rest ->
      length footer = 32%nat ->
      exists conn'', ReadFull conn' 32 = (footer, None, conn'') /\
                     pending conn'' = rest.
Proof.
  refine (proj2 (reader_stops_at_sentinel [[x01; x02]; []; [x03]]
                   (repeat xaa 32) [] (fun _ => 0%nat) (fun _ => 2%nat) 4%nat
                   _ _ _)).
  - repeat constructor; unfold fits; simpl; lia.
  - intros j. lia.
  - simpl. lia.
Defined.

End ProtocolFacts.

(* ================================================================== *)
(** ** Records, sender and receiver *)

Module TransferFacts.

Import Bytes IO Protocol Path Transfer IOFacts BytesFacts PathFacts ProtocolFacts.

Lemma write_record_sink (w : Sink) payload :
  write_record w payload
  = w ++ put_int64 (Z.of_nat (length payload)) ++ payload.
Proof.
  unfold write_record, Write, Sink_Writer, Sink_Write.
  rewrite <- app_assoc. reflexivity.
Qed.

Lemma BUFFER_pos : (0 < BUFFER)%nat.
Proof. unfold BUFFER. lia. Qed.

(** The sender reads a request record of any announced length. *)
Lemma sender_read_request_record conn payload rest :
  pending conn = put_int64 (Z.of_nat (length payload)) ++ payload ++ rest ->
  (Z.of_nat (length payload) < 2 ^ 63)%Z ->
  exists c', sender_read_request conn = Ok (payload, c') /\ pending c' = rest.
Proof.
  intros Hp Hlen. unfold sender_read_request.
  destruct (ReadFull_conn_app conn _ _ Hp) as (c1 & HR1 & Hp1).
  rewrite put_int64_length in HR1. rewrite HR1.
  rewrite get_put_int64 by lia.
  destruct (Z.ltb_spec (Z.of_nat (length payload)) 0) as [Hneg|_]; [lia|].
  rewrite Nat2Z.id.
  destruct (ReadFull_conn_app c1 _ _ Hp1) as (c2 & HR2 & Hp2).
  rewrite HR2. eauto.
Qed.

(** The receiver reads a header record of at most 65,536 bytes. *)
Lemma receiver_read_header_record conn payload rest :
  pending conn = put_int64 (Z.of_nat (length payload)) ++ payload ++ rest ->
  (Z.of_nat (length payload) <= 65536)%Z ->
  exists c', receiver_read_header conn = Ok (payload, c') /\ pending c' = rest.
Proof.
  intros Hp Hlen. unfold receiver_read_header.
  destruct (ReadFull_conn_app conn _ _ Hp) as (c1 & HR1 & Hp1).
  rewrite put_int64_length in HR1. rewrite HR1.
  rewrite get_put_int64 by lia.
  destruct (Z.gtb_spec (Z.of_nat (length payload)) 65536) as [Hbig|_]; [lia|].
  destruct (Z.ltb_spec (Z.of_nat (length payload)) 0) as [Hneg|_]; [lia|].
  rewrite Nat2Z.id.
  destruct (ReadFull_conn_app c1 _ _ Hp1) as (c2 & HR2 & Hp2).
  rewrite HR2. eauto.
Qed.

(** ... and refuses a larger announced length before reading the payload. *)
Lemma receiver_read_header_too_large conn n rest :
  pending conn = put_int64 n ++ rest ->
  (65536 < n < 2 ^ 63)%Z ->
  receiver_read_header conn = Err (ErrHeaderTooLarge n).
Proof.
  intros Hp Hn. unfold receiver_read_header.
  destruct (ReadFull_conn_app conn _ _ Hp) as (c1 & HR1 & Hp1).
  rewrite put_int64_length in HR1. rewrite HR1.
  rewrite get_put_int64 by lia.
  destruct (Z.gtb_spec n 65536) as [_|Hsmall]; [reflexivity|lia].
Qed.

Lemma ZstdWriter_LawfulWriter {W} : LawfulWriter (ZstdWriter W).
Proof.
  split.
  - intros [w i] a b. unfold Write, ZstdWriter_Writer, ZstdWriter_Write.
    cbn [zw zin]. rewrite app_assoc. reflexivity.
  - intros [w i]. unfold Write, ZstdWriter_Writer, ZstdWriter_Write.
    cbn [zw zin]. rewrite app_nil_r. reflexivity.
Qed.

Lemma ZstdWriter_Write_eq {W} (w : W) i p :
  Write (mkZstdWriter w i) p = mkZstdWriter w (i ++ p).
Proof. reflexivity. Qed.

Lemma Write_pair (a b : Sink) x : Write (a, b) x = (a ++ x, b ++ x).
Proof. reflexivity. Qed.

(** Run the copy loop of the goal on a source known to hold [s]. *)
Ltac copy_all HW Hsrc f HC Hf :=
  match goal with
  | |- context [@CopyBuffer ?W ?R ?iw ?ir ?fuel ?dst ?src ?buf] =>
      destruct (@CopyBuffer_all R ir ConnRep Conn_Lawful W iw HW
                  buf BUFFER_pos fuel dst src _ Hsrc ltac:(cbn [length]; lia))
        as (f & HC & Hf);
      rewrite HC
  end.

Section Sending.

Variable L : Libs.
Hypothesis HLibs : LibsOk L.

(** A sender that is handed the request for [offset] streams the source
    from the clamped offset and ends with the digest of what it hashed. *)
Lemma handleTransfer_ok conn originalName source src_seg isDir offset rest :
  pending conn
    = write_record ([] : Sink) (Marshal_request L (mkTransferRequest offset))
      ++ rest ->
  is_int64 offset ->
  (0 <= clamp_offset offset (Z.of_nat (length source)))%Z ->
  let fileSize := Z.of_nat (length source) in
  let compression := Sender.getCompressionMethod originalName isDir in
  let header := mkFileHeader (Base originalName) fileSize isDir compression in
  let off := clamp_offset offset fileSize in
  let content := skipn (Z.to_nat off) source in
  let hashed := wire_content L compression content in
  handleTransfer L conn originalName source src_seg fileSize isDir
  = mkSendResult
      (write_record ([] : Sink) (Marshal_header L header)
       ++ hashed ++ Sum L hashed)
      hashed (Some off) content None.
Proof.
  intros Hp Hint Hoff fileSize compression header off content hashed.
  unfold handleTransfer.
  fold fileSize. fold compression. fold header.
  rewrite write_record_sink, app_nil_l, <- app_assoc in Hp.
  destruct (sender_read_request_record conn _ _ Hp (request_length HLibs _))
    as (c' & HR & _).
  rewrite HR. rewrite (request_roundtrip HLibs) by exact Hint. cbn [Offset].
  fold off.
  destruct (Z.ltb_spec off 0) as [Hneg|_]; [subst off fileSize; lia|].
  cbn [pending]. fold content.
  set (out0 := write_record ([] : Sink) (Marshal_header L header)).
  set (file := mkConn content src_seg 0).
  assert (Hfile : ConnRep file content) by reflexivity.
  destruct compression eqn:Ec.
  - (* none *)
    copy_all (MultiWriter_LawfulWriter Sink_LawfulWriter Sink_LawfulWriter)
             Hfile f HC Hf. rewrite Write_pair. cbn [fst snd app].
    unfold ConnRep in Hf. rewrite Hf. cbn [length].
    rewrite Nat.sub_0_r, firstn_all.
    subst hashed. cbn [wire_content].
    unfold Write, Sink_Writer, Sink_Write. rewrite <- app_assoc. reflexivity.
  - (* gzip is never selected *)
    copy_all (MultiWriter_LawfulWriter Sink_LawfulWriter Sink_LawfulWriter)
             Hfile f HC Hf. rewrite Write_pair. cbn [fst snd app].
    unfold ConnRep in Hf. rewrite Hf. cbn [length].
    rewrite Nat.sub_0_r, firstn_all.
    subst hashed. cbn [wire_content].
    unfold Write, Sink_Writer, Sink_Write. rewrite <- app_assoc. reflexivity.
  - (* zstd *)
    copy_all (@ZstdWriter_LawfulWriter (ChunkedWriter (Sink * Sink)))
             Hfile f HC Hf.
    rewrite !ZstdWriter_Write_eq. unfold ZstdWriter_Close. cbn [zw zin].
    rewrite (close_after_frames
               (MultiWriter_LawfulWriter Sink_LawfulWriter Sink_LawfulWriter))
      by apply (zstd_fits HLibs).
    rewrite Write_pair. cbn [fst snd app].
    unfold ConnRep in Hf. rewrite Hf. cbn [length].
    rewrite Nat.sub_0_r, firstn_all.
    subst hashed. cbn [wire_content].
    rewrite chunked_stream_frames by apply (zstd_fits HLibs).
    unfold Write, Sink_Writer, Sink_Write. rewrite <- app_assoc. reflexivity.
Qed.

End Sending.


Lemma concat_le_frames ps : (length (concat ps) <= length (frames ps))%nat.
Proof.
  induction ps as [|p ps IH]; [simpl; lia|].
  unfold frames in *. cbn [concat flat_map]. rewrite !length_app.
  destruct p; simpl; lia.
Qed.

(** The content region without compression: exactly [remaining] bytes go
    to the file and to the hasher, the rest stays on the connection. *)
Lemma read_plain_ok (c1 : Conn) content tail (file : Sink) :
  pending c1 = content ++ tail ->
  exists c2,
    read_plain (Z.of_nat (length content)) c1 [] file
    = (file ++ content, content, c2, None) /\ pending c2 = tail.
Proof.
  intros Hp. unfold read_plain.
  set (Rep := TeeRep (LimRep ConnRep tail) content []).
  assert (HL : Lawful Rep) by (apply Tee_Lawful, Lim_Lawful, Conn_Lawful).
  assert (Hsrc : Rep (mkLimited c1 (Z.of_nat (length content)), []) content).
  { split; [split; [exact Hp|reflexivity]|].
    exists []. split; reflexivity. }
  match goal with
  | |- context [@CopyBuffer ?W ?R ?iw ?ir ?fuel ?dst ?src ?buf] =>
      destruct (@CopyBuffer_all R ir Rep HL W iw Sink_LawfulWriter
                  buf BUFFER_pos fuel dst src content Hsrc)
        as ([lim h] & HC & [[Hc2 _] (consumed & Hall & Hh)])
  end.
  { rewrite Hp, length_app. lia. }
  rewrite HC. cbn [fst snd LR option_map] in *.
  rewrite app_nil_r in Hall. subst consumed. simpl in Hh. subst h.
  exists (LR lim). split; [reflexivity|exact Hc2].
Qed.

(** The content region under a decompressor: the chunked stream is read up
    to its sentinel and no further; every byte of it went to the hasher. *)
Lemma read_compressed_ok decode dbufs (c1 : Conn) ws tail (file : Sink) :
  (forall j, 0 < dbufs j)%nat ->
  Forall fits ws ->
  pending c1 = chunked_stream ws ++ tail ->
  exists c2,
    read_compressed decode dbufs c1 [] file
    = (match decode (concat ws) with
       | Some plain => file ++ plain
       | None => file
       end, chunked_stream ws, c2,
       match decode (concat ws) with
       | Some _ => None
       | None => Some ErrDecode
       end) /\ pending c2 = tail.
Proof.
  intros Hb Hws Hp. unfold read_compressed.
  rewrite chunked_stream_frames in * by exact Hws.
  rewrite <- frames_filter in *.
  rewrite <- app_assoc in Hp.
  set (all := frames (filter nonempty ws) ++ sentinel ++ tail) in *.
  set (Rep := TeeRep ConnRep all []).
  assert (HL : Lawful Rep) by (apply Tee_Lawful, Conn_Lawful).
  destruct (read_chunks Rep HL dbufs Hb (S (length (pending c1))) []
              (filter nonempty ws) tail 0%nat
              (NewChunkedReader (c1, ([] : Sink))))
    as ([c2 h] & HE & [Hc2 (consumed & Hall & Hh)]).
  - apply Forall_forall. intros p Hin. apply filter_In in Hin.
    destruct Hin as [Hin Hne]. split.
    + destruct p; [discriminate|congruence].
    + rewrite Forall_forall in Hws. apply Hws, Hin.
  - reflexivity.
  - reflexivity.
  - split; [exact Hp|]. exists []. split; reflexivity.
  - rewrite Hp. subst all. rewrite !length_app.
    pose proof (concat_le_frames (filter nonempty ws)). simpl. lia.
  - rewrite HE. cbn [cr fst snd] in *. rewrite app_nil_l, concat_filter.
    subst all. rewrite app_assoc in Hall. apply app_inv_tail in Hall.
    simpl in Hh. subst h consumed.
    exists c2. split; [|exact Hc2].
    destruct (decode (concat ws)); reflexivity.
Qed.

Section Receiving.

Variable L : Libs.
Hypothesis HLibs : LibsOk L.

(** A receiver that is handed a header of at most 65,536 bytes, the
    content the sender produces for the offset it asks for, and the digest
    of what the sender hashed, verifies the checksum and holds what it had
    followed by the content. *)
Lemma receive_ok conn DownloadDir fs dbufs tmp hb h off path app initial
    content rest :
  (forall j, 0 < dbufs j)%nat ->
  (Z.of_nat (length hb) <= 65536)%Z ->
  Unmarshal_header L hb = Some h ->
  Compression_ h <> CompressionGzip ->
  open_destination h (download_dir DownloadDir)
    (Utils.SanitizeFilename (Name h)) fs tmp = Ok (off, path, app, initial) ->
  (Size h - off = Z.of_nat (length content))%Z ->
  let hashed := wire_content L (Compression_ h) content in
  pending conn = write_record ([] : Sink) hb ++ hashed ++ Sum L hashed ++ rest ->
  ReceiveConnectWithOptions L conn DownloadDir fs dbufs tmp
  = mkRecvResult
      (write_record ([] : Sink) (Marshal_request L (mkTransferRequest off)))
      off path app (initial ++ content) hashed rest
      (if IsArchive h
       then fst (unzip L (initial ++ content) (download_dir DownloadDir))
       else [])
      (if IsArchive h
       then snd (unzip L (initial ++ content) (download_dir DownloadDir))
       else None).
Proof.
  intros Hb Hlen Hun Hgz Hopen Hsize hashed Hp.
  unfold ReceiveConnectWithOptions.
  rewrite write_record_sink, app_nil_l, <- app_assoc in Hp.
  destruct (receiver_read_header_record conn _ _ Hp Hlen) as (c1 & HR & Hp1).
  rewrite HR, Hun, Hopen.
  assert (Hcontent : exists c2,
    match Compression_ h with
    | CompressionNone => read_plain (Size h - off) c1 [] initial
    | CompressionGzip => read_compressed (gzip_decode L) dbufs c1 [] initial
    | CompressionZstd => read_compressed (zstd_decode L) dbufs c1 [] initial
    end = (initial ++ content, hashed, c2, None)
    /\ pending c2 = Sum L hashed ++ rest).
  { subst hashed. destruct (Compression_ h) eqn:Ec; cbn [wire_content] in *.
    - rewrite Hsize. apply read_plain_ok. exact Hp1.
    - congruence.
    - destruct (read_compressed_ok (zstd_decode L) dbufs c1
                  (zstd_writes L content) (Sum L (chunked_stream
                     (zstd_writes L content)) ++ rest) initial Hb
                  (zstd_fits HLibs content) Hp1) as (c2 & HRC & Hp2).
      rewrite (zstd_roundtrip HLibs) in HRC. eauto. }
  destruct Hcontent as (c2 & HC & Hp2). rewrite HC.
  pose proof (ReadFull_conn_app c2 _ _ Hp2) as (c3 & HF & Hp3).
  rewrite (Sum_length HLibs) in HF. rewrite HF.
  rewrite eqb_refl. cbn [negb]. rewrite Hp3.
  destruct (IsArchive h); [|reflexivity].
  destruct (unzip L (initial ++ content) (download_dir DownloadDir));
    reflexivity.
Qed.

(** The request leaves as soon as the header is read and the destination
    open, whatever follows on the connection. *)
Lemma receive_request conn DownloadDir fs dbufs tmp hb h off path app initial
    rest :
  (Z.of_nat (length hb) <= 65536)%Z ->
  Unmarshal_header L hb = Some h ->
  open_destination h (download_dir DownloadDir)
    (Utils.SanitizeFilename (Name h)) fs tmp = Ok (off, path, app, initial) ->
  pending conn = write_record ([] : Sink) hb ++ rest ->
  r_request (ReceiveConnectWithOptions L conn DownloadDir fs dbufs tmp)
  = write_record ([] : Sink) (Marshal_request L (mkTransferRequest off)).
Proof.
  intros Hlen Hun Hopen Hp.
  unfold ReceiveConnectWithOptions.
  rewrite write_record_sink, app_nil_l, <- app_assoc in Hp.
  destruct (receiver_read_header_record conn _ _ Hp Hlen) as (c1 & HR & Hp1).
  rewrite HR, Hun, Hopen.
  match goal with
  | |- context [match ?x with CompressionNone => ?a | CompressionGzip => ?b
                              | CompressionZstd => ?c end] =>
      destruct (match x with CompressionNone => a | CompressionGzip => b
                             | CompressionZstd => c end)
        as [[[file hasher] c2] [e|]]
  end; [reflexivity|].
  destruct (ReadFull c2 32) as [[rc [e|]] c3]; [reflexivity|].
  destruct (negb (eqb (Sum L hasher) rc)); [reflexivity|].
  destruct (IsArchive h); [|reflexivity].
  destruct (unzip L file (download_dir DownloadDir)); reflexivity.
Qed.

End Receiving.


Lemma getCompressionMethod_not_gzip name isDir :
  Sender.getCompressionMethod name isDir <> CompressionGzip.
Proof.
  unfold Sender.getCompressionMethod.
  destruct isDir; [discriminate|].
  destruct (existsb _ Sender.skip_exts); [discriminate|].
  destruct (existsb _ Sender.compress_exts); discriminate.
Qed.

(** The sender writes its header before it waits for the request. *)
Lemma handleTransfer_header L originalName source src_seg fileSize isDir seg :
  s_out (handleTransfer L (mkConn [] seg 0) originalName source src_seg
           fileSize isDir)
  = write_record ([] : Sink)
      (Marshal_header L
         (mkFileHeader (Base originalName) fileSize isDir
            (Sender.getCompressionMethod originalName isDir))).
Proof. reflexivity. Qed.

Lemma open_destination_offset h downloadDir safeName fs tmp off path app initial :
  (0 <= Size h)%Z ->
  open_destination h downloadDir safeName fs tmp = Ok (off, path, app, initial) ->
  (0 <= off <= Size h)%Z /\ off = Z.of_nat (length initial).
Proof.
  intros Hs. unfold open_destination.
  destruct (IsArchive h).
  - intros E. inversion E; subst. simpl. lia.
  - destruct (fs _) as [|old|].
    + intros E. inversion E; subst. simpl. lia.
    + destruct (Z.ltb_spec (Z.of_nat (length old)) (Size h));
        intros E; inversion E; subst; simpl; lia.
    + discriminate.
Qed.

Section Sessions.

Variable L : Libs.
Hypothesis HLibs : LibsOk L.

(** A session over a perfect channel, once the receiver could open its
    destination: both sides finish, the sender has streamed the source from
    the negotiated offset, the receiver holds what it had followed by that
    content, and both hashed the same bytes. *)
Lemma session_ok originalName source isDir DownloadDir fs tmp
    src_seg seg_s seg_r dbufs name' off path app initial :
  let N := Z.of_nat (length source) in
  let compression := Sender.getCompressionMethod originalName isDir in
  let header := mkFileHeader (Base originalName) N isDir compression in
  let h := mkFileHeader name' N isDir compression in
  let content := skipn (Z.to_nat off) source in
  let hashed := wire_content L compression content in
  (forall j, 0 < dbufs j)%nat ->
  is_int64 N ->
  (Z.of_nat (length (Marshal_header L header)) <= 65536)%Z ->
  Unmarshal_header L (Marshal_header L header) = Some h ->
  open_destination h (download_dir DownloadDir)
    (Utils.SanitizeFilename name') fs tmp = Ok (off, path, app, initial) ->
  run_session L originalName source isDir DownloadDir fs tmp
    src_seg seg_s seg_r dbufs
  = (mkSendResult
       (write_record ([] : Sink) (Marshal_header L header)
        ++ hashed ++ Sum L hashed)
       hashed (Some off) content None,
     mkRecvResult
       (write_record ([] : Sink) (Marshal_request L (mkTransferRequest off)))
       off path app (initial ++ content) hashed []
       (if isDir
        then fst (unzip L (initial ++ content) (download_dir DownloadDir))
        else [])
       (if isDir
        then snd (unzip L (initial ++ content) (download_dir DownloadDir))
        else None)).
Proof.
  intros N compression header h content hashed Hb HN Hlen Hun Hopen.
  destruct (open_destination_offset h _ _ _ _ _ _ _ _
              (Nat2Z.is_nonneg (length source)) Hopen) as [Hoff _]. cbn [Size h] in Hoff. fold N in Hoff.
  assert (Hclamp : clamp_offset off N = off).
  { unfold clamp_offset. destruct (Z.gtb_spec off N); lia. }
  unfold run_session. cbv zeta. fold N.
  rewrite handleTransfer_header. fold compression. fold header.
  erewrite (receive_request L (mkConn _ seg_r 0) DownloadDir fs dbufs tmp
              (Marshal_header L header) h off path app initial [] Hlen Hun Hopen)
    by (cbn [pending]; rewrite app_nil_r; reflexivity).
  pose proof (handleTransfer_ok L HLibs
                (mkConn (write_record ([] : Sink)
                           (Marshal_request L (mkTransferRequest off)))
                        seg_s 0)
                originalName source src_seg isDir off []
                ltac:(cbn [pending]; rewrite app_nil_r; reflexivity)
                ltac:(unfold is_int64 in *; lia)) as HS.
  cbv zeta in HS. fold N compression header in HS.
  rewrite Hclamp in HS. fold content hashed in HS.
  specialize (HS ltac:(lia)). rewrite HS. cbn [s_out]. f_equal.
  pose proof (receive_ok L HLibs
                (mkConn (write_record ([] : Sink) (Marshal_header L header)
                         ++ hashed ++ Sum L hashed) seg_r 0)
                DownloadDir fs dbufs tmp (Marshal_header L header) h off path
                app initial content [] Hb Hlen Hun
                (getCompressionMethod_not_gzip originalName isDir) Hopen) as HR.
  cbv zeta in HR. cbn [Size Compression_ IsArchive h] in HR.
  fold hashed in HR. apply HR.
  - subst content. rewrite length_skipn. lia.
  - cbn [pending]. rewrite app_nil_r. reflexivity.
Qed.

End Sessions.


Lemma toy_LibsOk : LibsOk toy.
Proof.
  split; cbn [toy Sum zstd_writes zstd_decode Marshal_header Unmarshal_header
              Marshal_request Unmarshal_request].
  - intros b. unfold toy_Sum.
    rewrite length_firstn, length_app, repeat_length. lia.
  - intros b. f_equal. unfold toy_writes. cbn [concat app].
    induction b as [|x b IH]; [reflexivity|]. simpl. rewrite IH. reflexivity.
  - intros b. unfold toy_writes. constructor.
    + unfold fits. simpl. lia.
    + apply Forall_forall. intros p Hin. apply in_map_iff in Hin.
      destruct Hin as (x & <- & _). unfold fits. simpl. lia.
  - intros h Hs. exists (firstn 255 (Name h)).
    unfold toy_Unmarshal_header, toy_Marshal_header.
    change (firstn 8 (put_int64 ?z ++ ?r)) with (put_int64 z).
    change (skipn 8 (put_int64 ?z ++ ?r)) with r.
    rewrite get_put_int64 by exact Hs. cbn [app]. f_equal. f_equal.
    + destruct (IsArchive h); reflexivity.
    + destruct (Compression_ h); reflexivity.
  - intros [o] Ho. unfold toy_Unmarshal_request, toy_Marshal_request.
    cbn [Offset] in *.
    change (firstn 8 (put_int64 o)) with (put_int64 o).
    rewrite get_put_int64 by exact Ho. reflexivity.
  - intros r. unfold toy_Marshal_request. rewrite put_int64_length. lia.
Qed.

Section SessionCases.

Variable L : Libs.
Hypothesis HLibs : LibsOk L.

(** Every way a session can start: an archive goes to a fresh temporary
    file; a file goes to its target, resumed when the target is a shorter
    regular file, created or truncated otherwise. *)
Lemma session_cases originalName source isDir DownloadDir fs tmp
    src_seg seg_s seg_r dbufs :
  let N := Z.of_nat (length source) in
  let compression := Sender.getCompressionMethod originalName isDir in
  let header := mkFileHeader (Base originalName) N isDir compression in
  let target := target_path L DownloadDir originalName N isDir in
  (forall j, 0 < dbufs j)%nat ->
  is_int64 N ->
  (Z.of_nat (length (Marshal_header L header)) <= 65536)%Z ->
  isDir = true \/ fs target <> Directory ->
  exists off path app initial,
    (if isDir then off = 0%Z /\ path = tmp /\ app = false /\ initial = []
     else path = target /\
          match fs target with
          | Regular old =>
              if (Z.of_nat (length old) <? N)%Z
              then off = Z.of_nat (length old) /\ app = true /\ initial = old
              else off = 0%Z /\ app = false /\ initial = []
          | _ => off = 0%Z /\ app = false /\ initial = []
          end) /\
    let content := skipn (Z.to_nat off) source in
    let hashed := wire_content L compression content in
    run_session L originalName source isDir DownloadDir fs tmp
      src_seg seg_s seg_r dbufs
    = (mkSendResult
         (write_record ([] : Sink) (Marshal_header L header)
          ++ hashed ++ Sum L hashed)
         hashed (Some off) content None,
       mkRecvResult
         (write_record ([] : Sink) (Marshal_request L (mkTransferRequest off)))
         off path app (initial ++ content) hashed []
         (if isDir
          then fst (unzip L (initial ++ content) (download_dir DownloadDir))
          else [])
         (if isDir
          then snd (unzip L (initial ++ content) (download_dir DownloadDir))
          else None)).
Proof.
  intros N compression header target Hb HN Hlen Hdest.
  destruct (header_roundtrip HLibs header HN) as (name' & Hun).
  cbn [Size IsArchive Compression_ header] in Hun.
  assert (Htarget : target = Join [download_dir DownloadDir;
                                   Utils.SanitizeFilename name']).
  { subst target. unfold target_path. fold N compression header.
    rewrite Hun. reflexivity. }
  set (h := mkFileHeader name' N isDir compression) in *.
  assert (Hopen : exists off path app initial,
    open_destination h (download_dir DownloadDir)
      (Utils.SanitizeFilename name') fs tmp = Ok (off, path, app, initial) /\
    (if isDir then off = 0%Z /\ path = tmp /\ app = false /\ initial = []
     else path = target /\
          match fs target with
          | Regular old =>
              if (Z.of_nat (length old) <? N)%Z
              then off = Z.of_nat (length old) /\ app = true /\ initial = old
              else off = 0%Z /\ app = false /\ initial = []
          | _ => off = 0%Z /\ app = false /\ initial = []
          end)).
  { unfold open_destination. cbn [IsArchive Size h]. rewrite <- Htarget.
    destruct isDir.
    - exists 0%Z, tmp, false, []. auto.
    - destruct Hdest as [Hd|Hd]; [discriminate|].
      destruct (fs target) as [|old|]; [| |congruence].
      + exists 0%Z, target, false, []. auto.
      + destruct (Z.of_nat (length old) <? N)%Z.
        * exists (Z.of_nat (length old)), target, true, old. auto.
        * exists 0%Z, target, false, []. auto. }
  destruct Hopen as (off & path & app & initial & Hopen & Hcase).
  exists off, path, app, initial. split; [exact Hcase|].
  exact (session_ok L HLibs originalName source isDir DownloadDir fs tmp
           src_seg seg_s seg_r dbufs name' off path app initial
           Hb HN Hlen Hun Hopen).
Qed.

End SessionCases.


Section Claims.

Variable L : Libs.
Hypothesis HLibs : LibsOk L.

(** C1 (amended): in every completed transfer the 32-byte footer is the
    digest of the bytes the sender wrote to the connection between the
    header and the footer, and the receiver hashed the same bytes.  With
    compression none these are the content bytes of the range
    [offset, size), as read from the source and as written to disk; with
    zstd they are the chunk-framed compressed stream, sentinel included,
    not the uncompressed content. *)
Theorem footer_digest originalName source isDir DownloadDir fs tmp
    src_seg seg_s seg_r dbufs :
  let N := Z.of_nat (length source) in
  let compression := Sender.getCompressionMethod originalName isDir in
  let header := mkFileHeader (Base originalName) N isDir compression in
  (forall j, 0 < dbufs j)%nat ->
  is_int64 N ->
  (Z.of_nat (length (Marshal_header L header)) <= 65536)%Z ->
  isDir = true \/
    fs (target_path L DownloadDir originalName N isDir) <> Directory ->
  let run := run_session L originalName source isDir DownloadDir fs tmp
               src_seg seg_s seg_r dbufs in
  let s := fst run in
  let r := snd run in
  let content := skipn (Z.to_nat (r_offset r)) source in
  s_err s = None /\
  s_offset s = Some (r_offset r) /\ (0 <= r_offset r <= N)%Z /\
  s_read s = content /\
  s_out s = write_record ([] : Sink) (Marshal_header L header)
            ++ s_hashed s ++ Sum L (s_hashed s) /\
  length (Sum L (s_hashed s)) = 32%nat /\
  r_hashed r = s_hashed s /\
  match compression with
  | CompressionZstd => s_hashed s = chunked_stream (zstd_writes L content)
  | _ => s_hashed s = content /\
         exists initial, r_file r = initial ++ r_hashed r
  end.
Proof.
  intros N compression header Hb HN Hlen Hdest run s r content.
  destruct (session_cases L HLibs originalName source isDir DownloadDir fs tmp
              src_seg seg_s seg_r dbufs Hb HN Hlen Hdest)
    as (off & path & app & initial & Hcase & Hrun).
  cbv zeta in Hrun. fold N compression header in Hrun.
  subst content s r run. rewrite Hrun.
  cbn [fst snd s_err s_offset s_read s_out s_hashed r_offset r_hashed r_file].
  assert (Hoff : (0 <= off <= N)%Z).
  { destruct isDir.
    - destruct Hcase as (-> & _). subst N. lia.
    - destruct Hcase as (_ & Hc).
      destruct (fs _) as [|old|]; try (destruct Hc as (-> & _); subst N; lia).
      match type of Hc with
      | if ?c then _ else _ => destruct c eqn:E
      end; destruct Hc as (-> & _); [apply Z.ltb_lt in E|]; subst N; lia. }
  repeat (split; [first [reflexivity | exact Hoff
                         | apply (Sum_length HLibs)]|]).
  subst compression.
  destruct (Sender.getCompressionMethod originalName isDir);
    cbn [wire_content]; eauto.
Qed.

(** C2: a file of bytes [B] sent to a receiver that holds nothing at the
    target arrives byte for byte and passes the checksum, whatever the
    name: with an extension that selects zstd as with one that selects
    none. *)
Theorem round_trip_identity originalName B DownloadDir fs tmp
    src_seg seg_s seg_r dbufs :
  let N := Z.of_nat (length B) in
  let compression := Sender.getCompressionMethod originalName false in
  let header := mkFileHeader (Base originalName) N false compression in
  let target := target_path L DownloadDir originalName N false in
  (forall j, 0 < dbufs j)%nat ->
  is_int64 N ->
  (Z.of_nat (length (Marshal_header L header)) <= 65536)%Z ->
  fs target = Absent ->
  let run := run_session L originalName B false DownloadDir fs tmp
               src_seg seg_s seg_r dbufs in
  r_offset (snd run) = 0%Z /\
  r_path (snd run) = target /\
  r_file (snd run) = B /\
  r_err (snd run) = None /\
  s_err (fst run) = None /\
  (compression = CompressionNone \/ compression = CompressionZstd).
Proof.
  intros N compression header target Hb HN Hlen Habs run.
  destruct (session_cases L HLibs originalName B false DownloadDir fs tmp
              src_seg seg_s seg_r dbufs Hb HN Hlen)
    as (off & path & app & initial & Hcase & Hrun).
  { right. fold N target. rewrite Habs. discriminate. }
  cbv zeta in Hrun. fold N compression header target in Hrun, Hcase.
  subst run. rewrite Hrun. cbn [fst snd r_offset r_path r_file r_err s_err].
  destruct Hcase as (-> & Hc). rewrite Habs in Hc.
  destruct Hc as (-> & -> & ->).
  repeat (split; [reflexivity|]).
  pose proof (getCompressionMethod_not_gzip originalName false) as Hg.
  fold compression in Hg. destruct compression; [left|congruence|right];
    reflexivity.
Qed.

(** C3: for a source that is not an archive, a regular target of [k]
    bytes, [k] less than the size [N], makes the receiver ask for offset
    [k] and open the target in append mode; the sender positions the source
    at [k] and reads exactly the remaining [N - k] bytes; the target ends
    as its old content followed by them, which is the source when the old
    content was its first [k] bytes.  A regular target of length at least
    [N], or no target, gives offset 0 and a created (truncated) file that
    ends equal to the source. *)
Theorem resume_negotiation originalName B DownloadDir fs tmp
    src_seg seg_s seg_r dbufs :
  let N := Z.of_nat (length B) in
  let compression := Sender.getCompressionMethod originalName false in
  let header := mkFileHeader (Base originalName) N false compression in
  let target := target_path L DownloadDir originalName N false in
  (forall j, 0 < dbufs j)%nat ->
  is_int64 N ->
  (Z.of_nat (length (Marshal_header L header)) <= 65536)%Z ->
  let run := run_session L originalName B false DownloadDir fs tmp
               src_seg seg_s seg_r dbufs in
  let s := fst run in
  let r := snd run in
  (forall old, fs target = Regular old -> (Z.of_nat (length old) < N)%Z ->
     let k := length old in
     r_offset r = Z.of_nat k /\ r_appended r = true /\ r_path r = target /\
     s_offset s = Some (Z.of_nat k) /\
     s_read s = skipn k B /\
     Z.of_nat (length (s_read s)) = (N - Z.of_nat k)%Z /\
     r_file r = old ++ skipn k B /\
     (old = firstn k B -> r_file r = B) /\
     s_err s = None /\ r_err r = None) /\
  (fs target = Absent \/
   (exists old, fs target = Regular old /\ (N <= Z.of_nat (length old))%Z) ->
     r_offset r = 0%Z /\ r_appended r = false /\ r_path r = target /\
     s_offset s = Some 0%Z /\ r_file r = B /\
     s_err s = None /\ r_err r = None).
Proof.
  intros N compression header target Hb HN Hlen run s r.
  assert (Hrun : fs target <> Directory ->
    exists off path app initial,
      (path = target /\
       match fs target with
       | Regular old =>
           if (Z.of_nat (length old) <? N)%Z
           then off = Z.of_nat (length old) /\ app = true /\ initial = old
           else off = 0%Z /\ app = false /\ initial = []
       | _ => off = 0%Z /\ app = false /\ initial = []
       end) /\
      run = (mkSendResult
               (write_record ([] : Sink) (Marshal_header L header)
                ++ wire_content L compression (skipn (Z.to_nat off) B)
                ++ Sum L (wire_content L compression (skipn (Z.to_nat off) B)))
               (wire_content L compression (skipn (Z.to_nat off) B))
               (Some off) (skipn (Z.to_nat off) B) None,
             mkRecvResult
               (write_record ([] : Sink)
                  (Marshal_request L (mkTransferRequest off)))
               off path app (initial ++ skipn (Z.to_nat off) B)
               (wire_content L compression (skipn (Z.to_nat off) B)) []
               [] None)).
  { intros Hd.
    destruct (session_cases L HLibs originalName B false DownloadDir fs tmp
                src_seg seg_s seg_r dbufs Hb HN Hlen (or_intror Hd))
      as (off & path & app & initial & Hcase & Hrun).
    exists off, path, app, initial. split; [exact Hcase|exact Hrun]. }
  split.
  - intros old Hfs Hlt k.
    destruct Hrun as (off & path & app & initial & (-> & Hc) & Hrun);
      [rewrite Hfs; discriminate|].
    rewrite Hfs in Hc.
    destruct (Z.ltb_spec (Z.of_nat (length old)) N) as [_|Hge]; [|lia].
    destruct Hc as (-> & -> & ->). subst s r. rewrite Hrun.
    cbn [fst snd r_offset r_appended r_path r_file r_err s_err s_offset s_read].
    rewrite Nat2Z.id. fold k.
    repeat (split; [reflexivity|]).
    split; [rewrite length_skipn; subst N k; lia|].
    split; [reflexivity|].
    split; [|split; reflexivity].
    intros Hold. rewrite Hold at 1. apply firstn_skipn.
  - intros Hfs.
    destruct Hrun as (off & path & app & initial & (-> & Hc) & Hrun).
    { destruct Hfs as [E|(old & E & _)]; rewrite E; discriminate. }
    assert (Hfresh : off = 0%Z /\ app = false /\ initial = []).
    { destruct Hfs as [E|(old & E & Hge)]; rewrite E in Hc; [exact Hc|].
      destruct (Z.ltb_spec (Z.of_nat (length old)) N); [lia|exact Hc]. }
    destruct Hfresh as (-> & -> & ->). subst s r. rewrite Hrun.
    cbn [fst snd r_offset r_appended r_path r_file r_err s_err s_offset].
    repeat (split; [reflexivity|]). reflexivity.
Qed.

(** C7 (amended): for a requested offset that is not negative the sender
    uses 0 when it exceeds the size and the offset itself otherwise, so a
    value in [0, size]; it positions the source there and streams to the
    end. *)
Theorem offset_clamp conn originalName source src_seg isDir offset rest :
  let N := Z.of_nat (length source) in
  pending conn
    = write_record ([] : Sink) (Marshal_request L (mkTransferRequest offset))
      ++ rest ->
  (0 <= offset < 2 ^ 63)%Z ->
  let s := handleTransfer L conn originalName source src_seg N isDir in
  exists eff,
    s_offset s = Some eff /\ (0 <= eff <= N)%Z /\
    ((offset > N)%Z -> eff = 0%Z) /\ ((offset <= N)%Z -> eff = offset) /\
    s_read s = skipn (Z.to_nat eff) source /\
    s_err s = None.
Proof.
  intros N Hp Ho s.
  assert (Hc : (0 <= clamp_offset offset N <= N)%Z
               /\ ((offset > N)%Z -> clamp_offset offset N = 0%Z)
               /\ ((offset <= N)%Z -> clamp_offset offset N = offset)).
  { unfold clamp_offset. destruct (Z.gtb_spec offset N); subst N; lia. }
  pose proof (handleTransfer_ok L HLibs conn originalName source src_seg isDir
                offset rest Hp ltac:(unfold is_int64; lia)
                ltac:(apply Hc)) as HS.
  cbv zeta in HS. fold N in HS. subst s. rewrite HS.
  exists (clamp_offset offset N). cbn [s_offset s_read s_err].
  intuition.
Qed.

End Claims.


(** Whatever the encoder, what the sender hashes under zstd ends with the
    sentinel of the chunk framing, and so differs from any content whose
    last byte is not zero. *)
Lemma zstd_hashed_ends_with_sentinel L content :
  LibsOk L ->
  exists pre, wire_content L CompressionZstd content = pre ++ sentinel.
Proof.
  intros HLibs. cbn [wire_content].
  rewrite chunked_stream_frames by apply (zstd_fits HLibs). eauto.
Qed.

Lemma zstd_hashed_is_not_content L init b :
  LibsOk L -> b <> x00 ->
  wire_content L CompressionZstd (init ++ [b]) <> init ++ [b].
Proof.
  intros HLibs Hb E.
  destruct (zstd_hashed_ends_with_sentinel L (init ++ [b]) HLibs) as (pre & Hw).
  rewrite Hw in E.
  change sentinel with ([x00; x00; x00] ++ [x00]) in E.
  rewrite app_assoc in E. apply app_inj_tail in E.
  destruct E as [_ E]. congruence.
Qed.


(** The sample sessions, by the session lemma. *)
Lemma sample_session_eq name fs :
  fs (target_path toy [] name 19 false) <> Directory ->
  (Z.of_nat (length (Marshal_header toy
     (mkFileHeader (Base name) 19 false
        (Sender.getCompressionMethod name false)))) <= 65536)%Z ->
  exists off path app initial,
    (path = target_path toy [] name 19 false /\
     match fs (target_path toy [] name 19 false) with
     | Regular old =>
         if (Z.of_nat (length old) <? 19)%Z
         then off = Z.of_nat (length old) /\ app = true /\ initial = old
         else off = 0%Z /\ app = false /\ initial = []
     | _ => off = 0%Z /\ app = false /\ initial = []
     end) /\
    let compression := Sender.getCompressionMethod name false in
    let content := skipn (Z.to_nat off) fox in
    let hashed := wire_content toy compression content in
    sample_session name fs
    = (mkSendResult
         (write_record ([] : Sink)
            (Marshal_header toy (mkFileHeader (Base name) 19 false compression))
          ++ hashed ++ Sum toy hashed)
         hashed (Some off) content None,
       mkRecvResult
         (write_record ([] : Sink)
            (Marshal_request toy (mkTransferRequest off)))
         off path app (initial ++ content) hashed [] [] None).
Proof.
  intros Hd Hlen.
  apply (session_cases toy toy_LibsOk name fox false [] fs []
           (fun _ => 2%nat) (fun _ => 0%nat) (fun _ => 0%nat) (fun _ => 1%nat)).
  - intros j. lia.
  - unfold is_int64. simpl. lia.
  - exact Hlen.
  - right. exact Hd.
Qed.

Lemma footer_digest_witness :
  let run := sample_session (str "hello.txt") (fun _ => Absent) in
  r_hashed (snd run) = s_hashed (fst run) /\
  s_hashed (fst run) = chunked_stream (zstd_writes toy fox) /\
  s_out (fst run)
  = write_record ([] : Sink)
      (Marshal_header toy
         (mkFileHeader (str "hello.txt") 19 false CompressionZstd))
    ++ s_hashed (fst run) ++ Sum toy (s_hashed (fst run)).
Proof.
  destruct (footer_digest toy toy_LibsOk (str "hello.txt") fox false []
              (fun _ => Absent) [] (fun _ => 2%nat) (fun _ => 0%nat)
              (fun _ => 0%nat) (fun _ => 1%nat))
    as (_ & _ & _ & _ & Hout & _ & Hr & Hz).
  - intros j. lia.
  - unfold is_int64. simpl. lia.
  - vm_compute. discriminate.
  - right. discriminate.
  - split; [exact Hr|]. split; [exact Hz|exact Hout].
Defined.

(** C1, as stated, on [hello.txt] holding "the quick brown fox": zstd is
    selected, the sender hashes 9 chunk-framed bytes more than the 19
    content bytes, and the footer it writes is the digest of those, not of
    the content. *)
Lemma footer_is_not_digest_of_content :
  let s := fst (sample_session (str "hello.txt") (fun _ => Absent)) in
  s_err s = None /\ s_offset s = Some 0%Z /\ s_read s = fox /\
  s_hashed s <> fox /\
  skipn (length (s_out s) - 32) (s_out s) = Sum toy (s_hashed s) /\
  skipn (length (s_out s) - 32) (s_out s) <> Sum toy fox.
Proof.
  destruct (sample_session_eq (str "hello.txt") (fun _ => Absent))
    as (off & path & app & initial & (_ & -> & _ & _) & Hrun).
  - discriminate.
  - vm_compute. discriminate.
  - cbv zeta in *. rewrite Hrun. cbn [fst s_err s_offset s_read s_hashed s_out].
    vm_compute. repeat split; try reflexivity; discriminate.
Qed.

Lemma round_trip_identity_witness :
  let run := sample_session (str "hello.txt") (fun _ => Absent) in
  r_offset (snd run) = 0%Z /\
  r_path (snd run) = str "received_files/hello.txt" /\
  r_file (snd run) = fox /\
  r_err (snd run) = None /\
  s_err (fst run) = None /\
  (CompressionZstd = CompressionNone \/ CompressionZstd = CompressionZstd).
Proof.
  refine (round_trip_identity toy toy_LibsOk (str "hello.txt") fox []
            (fun _ => Absent) [] (fun _ => 2%nat) (fun _ => 0%nat)
            (fun _ => 0%nat) (fun _ => 1%nat) _ _ _ _).
  - intros j. lia.
  - unfold is_int64. simpl. lia.
  - vm_compute. discriminate.
  - reflexivity.
Defined.

Lemma resume_negotiation_witness :
  let run := sample_session (str "fox.bin")
               (fun _ => Regular (str "the quick")) in
  r_offset (snd run) = 9%Z /\ r_appended (snd run) = true /\
  s_offset (fst run) = Some 9%Z /\
  s_read (fst run) = str " brown fox" /\
  r_file (snd run) = fox.
Proof.
  destruct (resume_negotiation toy toy_LibsOk (str "fox.bin") fox []
              (fun _ => Regular (str "the quick")) [] (fun _ => 2%nat)
              (fun _ => 0%nat) (fun _ => 0%nat) (fun _ => 1%nat))
    as [Hres _].
  - intros j. lia.
  - unfold is_int64. simpl. lia.
  - vm_compute. discriminate.
  - destruct (Hres (str "the quick") eq_refl ltac:(simpl; lia))
      as (Ho & Ha & _ & Hs & Hr & _ & _ & Hf & _).
    specialize (Hf eq_refl).
    unfold sample_session. cbv zeta.
    rewrite Ho, Ha, Hs, Hr, Hf. repeat split; reflexivity.
Defined.

Lemma offset_clamp_witness :
  let s := handleTransfer toy (request_conn 25) (str "fox.bin") fox
             (fun _ => 0%nat) 19 false in
  exists eff,
    s_offset s = Some eff /\ (0 <= eff <= 19)%Z /\
    ((25 > 19)%Z -> eff = 0%Z) /\ ((25 <= 19)%Z -> eff = 25%Z) /\
    s_read s = skipn (Z.to_nat eff) fox /\
    s_err s = None.
Proof.
  refine (offset_clamp toy toy_LibsOk (request_conn 25) (str "fox.bin") fox
            (fun _ => 0%nat) false 25 [] _ _).
  - unfold request_conn. cbn [pending]. rewrite app_nil_r. reflexivity.
  - lia.
Defined.

(** C7, as stated, at the requested offset -1 on a source of 19 bytes: -1
    is not greater than the size, so it is used unchanged; it is not in
    [0, 19], the seek fails and nothing is streamed. *)
Lemma negative_offset_not_clamped :
  let s := handleTransfer toy (request_conn (-1)) (str "fox.bin") fox
             (fun _ => 0%nat) 19 false in
  clamp_offset (-1) 19 = (-1)%Z /\
  s_offset s = Some (-1)%Z /\ ~ (0 <= -1 <= 19)%Z /\
  s_read s = [] /\ s_err s = Some ErrSeek.
Proof.
  vm_compute. repeat split; try reflexivity. intros [H _]. apply H. reflexivity.
Qed.

(** C8 at a request record that announces 65,537 bytes: the sender reads
    the length and then the whole payload as its request, with no bound on
    the length; the receiver's reader of the header record refuses the same
    record before it reads the payload. *)
Theorem oversized_request_accepted :
  (exists c',
     sender_read_request (mkConn oversized_record (fun _ => 0%nat) 0)
     = Ok (oversized_payload, c') /\ pending c' = []) /\
  receiver_read_header (mkConn oversized_record (fun _ => 0%nat) 0)
  = Err (ErrHeaderTooLarge 65537).
Proof.
  assert (Hlen : Z.of_nat (length oversized_payload) = 65537%Z).
  { unfold oversized_payload. rewrite repeat_length. lia. }
  split.
  - apply sender_read_request_record.
    + cbn [pending]. unfold oversized_record. rewrite Hlen, app_nil_r.
      reflexivity.
    + rewrite Hlen. lia.
  - apply receiver_read_header_too_large with (rest := oversized_payload).
    + reflexivity.
    + lia.
Qed.


(** C5 at the destination [..] and an archive whose only entry is
    [../evil.txt]: the joined path [../../evil.txt] starts with [../], the
    cleaned destination followed by a separator, so the check passes and
    the file is written two directories up, outside the destination, with
    no error.  Under [received_files] the same archive is refused. *)
Theorem unzip_escapes_dotdot_destination :
  Join [str ".."; str "../evil.txt"] = str "../../evil.txt" /\
  HasPrefix (str "../../evil.txt") (Clean (str "..") ++ [Separator]) = true /\
  unzip_files (str "..") evil_archive
  = ([MkParents (str "../../evil.txt");
      WriteFile (str "../../evil.txt") (str "x")], None) /\
  ~ inside (resolve [str "home"; str "u"; str "dl"] (str ".."))
      (resolve [str "home"; str "u"; str "dl"] (str "../../evil.txt")) /\
  unzip_files (str "received_files") evil_archive
  = ([], Some (ErrIllegalPath (str "evil.txt"))).
Proof.
  repeat (split; [reflexivity|]). split; [|reflexivity].
  intros (more & Hne & E). vm_compute in E.
  destruct more; discriminate.
Qed.


(** Safe extraction, for a destination named below the root or the working
    directory: every path [unzip] writes to leads strictly below the
    destination, and an entry whose joined path leads anywhere else ends
    the extraction with an error. *)
Lemma unzip_confined cwd dest files :
  named_below dest ->
  Forall (fun p => inside (resolve cwd dest) (resolve cwd p))
    (written (fst (unzip_files dest files))) /\
  ((exists f, In f files /\
      ~ inside (resolve cwd dest)
          (resolve cwd (dest ++ Separator :: zName f))) ->
   snd (unzip_files dest files) <> None).
Proof.
  intros Hnb. pose proof (named_below_nonempty dest Hnb) as Hne.
  induction files as [|f files [IHw IHe]].
  - split; [constructor|]. intros (f & [] & _).
  - cbn [unzip_files].
    destruct (HasPrefix (Join [dest; zName f]) (Clean dest ++ [Separator]))
      eqn:Hpre; cbn [negb].
    + pose proof (join_confined cwd dest (zName f) Hnb Hpre) as Hin.
      assert (Hrest : (exists f0, In f0 (f :: files) /\
                 ~ inside (resolve cwd dest)
                     (resolve cwd (dest ++ Separator :: zName f0))) ->
              snd (unzip_files dest files) <> None).
      { intros (f0 & [<-|Hf0] & Hout).
        - exfalso. apply Hout.
          rewrite <- (resolve_Clean cwd (dest ++ Separator :: zName f)).
          rewrite <- Join_two by exact Hne. exact Hin.
        - apply IHe. eauto. }
      destruct (zIsDir f).
      * destruct (unzip_files dest files) as [ops e]. cbn [fst snd written flat_map app] in *.
        split; [constructor; assumption|exact Hrest].
      * destruct (zReadable f); cbn [negb].
        -- destruct (unzip_files dest files) as [ops e].
           cbn [fst snd written flat_map app] in *.
           split; [constructor; assumption|exact Hrest].
        -- cbn [fst snd written flat_map app].
           split; [repeat constructor; exact Hin|discriminate].
    + cbn [fst snd written flat_map]. split; [constructor|discriminate].
Qed.

End TransferFacts.

(* ================================================================== *)
(** ** The chunked stream when it is cut short *)

Module ChunkedFacts.

Import Bytes IO Protocol IOFacts BytesFacts ProtocolFacts.

(** *** What the writer puts on the wire *)

Lemma write_all_length ps : forall w : Sink,
  length (cw (write_all (NewChunkedWriter w) ps))
  = (length w + length (concat ps) + 4 * length (filter nonempty ps))%nat.
Proof.
  unfold write_all.
  induction ps as [|p ps IH]; intros w; [simpl; lia|].
  cbn [fold_left]. destruct p as [|b t].
  - change (Write (NewChunkedWriter w) []) with (NewChunkedWriter w).
    rewrite IH. simpl. lia.
  - change (Write (NewChunkedWriter w) (b :: t))
      with (NewChunkedWriter
              ((w ++ put_uint32 (uint32 (Z.of_nat (length (b :: t)))))
               ++ b :: t)).
    rewrite IH. cbn [concat filter nonempty].
    rewrite !length_app, put_uint32_length. cbn [length]. lia.
Qed.

(** X1: the chunk framing costs four bytes for each non-empty slice written and
    four for the sentinel, whatever the lengths of the slices. *)
Theorem chunked_stream_length ps :
  length (chunked_stream ps)
  = (length (concat ps) + 4 * length (filter nonempty ps) + 4)%nat.
Proof.
  unfold chunked_stream, ChunkedWriter_Close.
  change (Write ?w (put_uint32 (uint32 0))) with (w ++ put_uint32 (uint32 0)).
  rewrite length_app, write_all_length, put_uint32_length. simpl. lia.
Qed.

(** *** Streams that end before the sentinel *)

Section CutStreams.

Context {R : Type} `{Reader R}.
Variable Rep : R -> list byte -> Prop.
Hypothesis HL : Lawful Rep.

(** [io.ReadFull] on a stream that ends too early: everything left is
    consumed; the error is [io.EOF] when nothing was left and
    [io.ErrUnexpectedEOF] otherwise. *)
Lemma ReadAtLeast_short : forall fuel need r s,
  (need <= fuel)%nat -> (length s < need)%nat -> Rep r s ->
  exists r',
    ReadAtLeast fuel r need
    = (s, Some (match s with [] => EOF | _ :: _ => ErrUnexpectedEOF end), r')
    /\ Rep r' [].
Proof.
  induction fuel as [|fuel IH]; intros need r s Hf Hs Hr; [lia|].
  destruct need as [|m]; [lia|]. cbn [ReadAtLeast].
  destruct s as [|b t].
  - pose proof (@law_eof _ _ _ HL) as L.
    destruct (L r (S m) Hr ltac:(lia)) as (r' & HR & Hr').
    rewrite HR. cbn [length Nat.leb]. eauto.
  - pose proof (@law_read _ _ _ HL) as L.
    destruct (L r (b :: t) (S m) Hr ltac:(lia) ltac:(discriminate))
      as (k & r1 & Hk & HR & Hr1).
    rewrite HR.
    destruct k as [|k']; [lia|]. cbn [firstn skipn length] in *.
    destruct (IH (S m - S (length (firstn k' t)))%nat r1 (skipn k' t))
      as (r2 & HR2 & Hr2); [rewrite length_firstn; lia
                           | rewrite length_firstn, length_skipn; lia
                           | exact Hr1 |].
    rewrite HR2. exists r2. split; [|exact Hr2].
    cbn [app]. rewrite (firstn_skipn k' t).
    destruct (skipn k' t); reflexivity.
Qed.

(** At a chunk boundary a length header, whatever follows it, is read in
    full and the read goes on inside the chunk it announces. *)
Lemma Read_header_any (c : ChunkedReader R) n m rest :
  eof c = false -> currChunk c = 0%Z -> (0 < m < 2 ^ 32)%Z ->
  Rep (cr c) (put_uint32 m ++ rest) ->
  exists r', Rep r' rest /\
    Read c n = Read (mkChunkedReader r' m false) n.
Proof.
  intros He Hc Hm Hr.
  destruct (ReadFull_app Rep HL _ _ _ Hr) as (r' & HR & Hr').
  exists r'. split; [exact Hr'|].
  unfold Read, ChunkedReader_Reader, ChunkedReader_Read.
  rewrite He, Hc. cbn [Z.eqb eof currChunk cr].
  rewrite put_uint32_length in HR. rewrite HR.
  rewrite get_put_uint32 by lia.
  destruct (Z.eqb_spec m 0) as [E|_]; [lia|].
  reflexivity.
Qed.

(** Inside a chunk that the stream does not hold in full, the reader
    delivers what is there and then reports a plain end of stream. *)
Lemma Read_short (c : ChunkedReader R) n cur m :
  eof c = false -> currChunk c = m -> (Z.of_nat (length cur) < m)%Z ->
  (0 < n)%nat -> Rep (cr c) cur ->
  match cur with
  | [] => exists r', Rep r' [] /\
      Read c n = ([], Some EOF, mkChunkedReader r' m false)
  | _ :: _ => exists k r', (1 <= k)%nat /\ Rep r' (skipn k cur) /\
      Read c n = (firstn k cur, None,
                  mkChunkedReader r'
                    (m - Z.of_nat (length (firstn k cur))) false)
  end.
Proof.
  intros He Hc Hm Hn Hr.
  set (n' := if (Z.of_nat n >? m)%Z then Z.to_nat m else n).
  assert (Hn' : (1 <= n')%nat).
  { subst n'. destruct (Z.gtb_spec (Z.of_nat n) m); lia. }
  assert (HR0 : Read c n =
    (let '(data, err, r2) := Read (cr c) n' in
     (data, err, mkChunkedReader r2 (m - Z.of_nat (length data)) false))).
  { unfold Read at 1, ChunkedReader_Reader, ChunkedReader_Read.
    rewrite He, Hc.
    destruct (Z.eqb_spec m 0) as [E|_]; [lia|]. rewrite He, Hc.
    reflexivity. }
  rewrite HR0.
  destruct cur as [|b t].
  - pose proof (@law_eof _ _ _ HL) as L.
    destruct (L (cr c) n' Hr ltac:(lia)) as (r' & HR & Hr').
    rewrite HR. exists r'. split; [exact Hr'|].
    cbn [length]. rewrite Z.sub_0_r. reflexivity.
  - pose proof (@law_read _ _ _ HL) as L.
    destruct (L (cr c) (b :: t) n' Hr ltac:(lia) ltac:(discriminate))
      as (k & r' & Hk & HR & Hr').
    rewrite HR. exists k, r'. split; [lia|]. split; [exact Hr'|reflexivity].
Qed.

Lemma read_short_chunk (bufs : nat -> nat) :
  (forall j, 0 < bufs j)%nat ->
  forall fuel cur m i (c : ChunkedReader R),
  eof c = false -> currChunk c = m -> (Z.of_nat (length cur) < m)%Z ->
  Rep (cr c) cur -> (length cur < fuel)%nat ->
  exists c', read_to_end fuel bufs i c = Some (cur, EOF, c') /\
             eof c' = false /\ Rep (cr c') [].
Proof.
  intros Hb. induction fuel as [|fuel IH]; intros cur m i c He Hc Hm Hr Hf;
    [lia|].
  cbn [read_to_end].
  pose proof (Read_short c (bufs i) cur m He Hc Hm (Hb i) Hr) as HS.
  destruct cur as [|b t].
  - destruct HS as (r' & Hr' & HR). rewrite HR.
    eexists. split; [reflexivity|]. split; [reflexivity|exact Hr'].
  - destruct HS as (k & r' & Hk & Hr' & HR). rewrite HR.
    destruct (IH (skipn k (b :: t))
                 (m - Z.of_nat (length (firstn k (b :: t))))%Z (S i)
                 (mkChunkedReader r'
                    (m - Z.of_nat (length (firstn k (b :: t)))) false))
      as (c' & HE & He' & Hr''); auto.
    + rewrite length_firstn, length_skipn. lia.
    + rewrite length_skipn. cbn [length] in *. lia.
    + rewrite HE, firstn_skipn. eauto.
Qed.

(** Reading to the end of a stream of complete frames followed by [tail]:
    the data of the frames, then whatever reading [tail] from a chunk
    boundary gives. *)
Lemma read_frames_then (bufs : nat -> nat) tail dT e k
    (P : ChunkedReader R -> Prop) :
  (forall j, 0 < bufs j)%nat ->
  (forall fuel i (c : ChunkedReader R),
     eof c = false -> currChunk c = 0%Z -> Rep (cr c) tail ->
     (k < fuel)%nat ->
     exists c', read_to_end fuel bufs i c = Some (dT, e, c') /\ P c') ->
  forall fuel cur ps i (c : ChunkedReader R),
  Forall (fun p => p <> [] /\ fits p) ps ->
  eof c = false -> currChunk c = Z.of_nat (length cur) ->
  Rep (cr c) (cur ++ frames ps ++ tail) ->
  (length cur + length (concat ps) + k < fuel)%nat ->
  exists c',
    read_to_end fuel bufs i c = Some (cur ++ concat ps ++ dT, e, c') /\ P c'.
Proof.
  intros Hb Htail.
  induction fuel as [|fuel IH]; intros cur ps i c Hps He Hc Hr Hf; [lia|].
  assert (Hstep : forall (c1 : ChunkedReader R) cur1 ps1,
    Forall (fun p => p <> [] /\ fits p) ps1 ->
    cur1 <> [] -> eof c1 = false -> currChunk c1 = Z.of_nat (length cur1) ->
    Rep (cr c1) (cur1 ++ frames ps1 ++ tail) ->
    (length cur1 + length (concat ps1) + k < S fuel)%nat ->
    exists c',
      (let '(data, err, r1) := Read c1 (bufs i) in
       match err with
       | Some e0 => Some (data, e0, r1)
       | None => match read_to_end fuel bufs (S i) r1 with
                 | Some (more, e0, r2) => Some (data ++ more, e0, r2)
                 | None => None
                 end
       end) = Some (cur1 ++ concat ps1 ++ dT, e, c') /\ P c').
  { intros c1 cur1 ps1 Hps1 Hne1 He1 Hc1 Hr1 Hf1.
    destruct (Read_data Rep HL c1 (bufs i) cur1 _ He1 Hc1 Hne1 (Hb i) Hr1)
      as (k1 & r1 & Hk & Hkn & HR & Hr1').
    rewrite HR.
    destruct (IH (skipn k1 cur1) ps1 (S i)
                 (mkChunkedReader r1 (Z.of_nat (length (skipn k1 cur1))) false))
      as (c' & HE & HP); auto.
    { rewrite length_skipn. lia. }
    exists c'. rewrite HE. split; [|exact HP].
    rewrite app_assoc, firstn_skipn. reflexivity. }
  destruct cur as [|b cur'].
  - destruct ps as [|p ps'].
    + unfold frames in Hr. cbn [flat_map app concat length] in *.
      apply Htail; auto.
    + inversion Hps as [|? ? [Hpne Hpf] Hps']; subst.
      unfold frames in Hr. cbn [flat_map app] in Hr.
      rewrite <- app_assoc in Hr. cbn [read_to_end].
      destruct (Read_header Rep HL c (bufs i) _ _ He Hc Hpne Hpf Hr)
        as (r1 & Hr1 & HR).
      rewrite HR.
      destruct (Hstep (mkChunkedReader r1 (Z.of_nat (length p)) false) p ps')
        as (c' & HE & HP); auto.
      { simpl in Hf. rewrite length_app in Hf. lia. }
      exists c'. split; [|exact HP]. cbn [app concat].
      rewrite <- app_assoc. exact HE.
  - cbn [read_to_end]. apply Hstep; auto. discriminate.
Qed.

(** The three ways a stream can end at a chunk boundary without a sentinel
    or inside a chunk. *)
Lemma tail_nothing (bufs : nat -> nat) :
  (forall j, 0 < bufs j)%nat ->
  forall fuel i (c : ChunkedReader R),
  eof c = false -> currChunk c = 0%Z -> Rep (cr c) [] -> (0 < fuel)%nat ->
  exists c', read_to_end fuel bufs i c = Some ([], EOF, c') /\
             eof c' = false /\ Rep (cr c') [].
Proof.
  intros Hb fuel i c He Hc Hr Hf.
  destruct fuel as [|fuel]; [lia|]. cbn [read_to_end].
  destruct (ReadAtLeast_short 4 4 (cr c) [] (le_n _) ltac:(simpl; lia) Hr)
    as (r' & HR & Hr').
  unfold Read, ChunkedReader_Reader, ChunkedReader_Read.
  rewrite He, Hc. cbn [Z.eqb]. unfold ReadFull. rewrite HR.
  eexists. split; [reflexivity|]. split; [reflexivity|exact Hr'].
Qed.

Lemma tail_header (bufs : nat -> nat) t :
  (forall j, 0 < bufs j)%nat -> (0 < length t < 4)%nat ->
  forall fuel i (c : ChunkedReader R),
  eof c = false -> currChunk c = 0%Z -> Rep (cr c) t -> (0 < fuel)%nat ->
  exists c', read_to_end fuel bufs i c = Some ([], ErrUnexpectedEOF, c') /\
             eof c' = false /\ Rep (cr c') [].
Proof.
  intros Hb Ht fuel i c He Hc Hr Hf.
  destruct fuel as [|fuel]; [lia|]. cbn [read_to_end].
  destruct (ReadAtLeast_short 4 4 (cr c) t (le_n _) ltac:(lia) Hr)
    as (r' & HR & Hr').
  unfold Read, ChunkedReader_Reader, ChunkedReader_Read.
  rewrite He, Hc. cbn [Z.eqb]. unfold ReadFull. rewrite HR.
  destruct t; [simpl in Ht; lia|].
  eexists. split; [reflexivity|]. split; [reflexivity|exact Hr'].
Qed.

Lemma tail_chunk (bufs : nat -> nat) p j :
  (forall j, 0 < bufs j)%nat -> fits p -> (j < length p)%nat ->
  forall fuel i (c : ChunkedReader R),
  eof c = false -> currChunk c = 0%Z ->
  Rep (cr c) (put_uint32 (Z.of_nat (length p)) ++ firstn j p) ->
  (j < fuel)%nat ->
  exists c', read_to_end fuel bufs i c = Some (firstn j p, EOF, c') /\
             eof c' = false /\ Rep (cr c') [].
Proof.
  intros Hb Hp Hj fuel i c He Hc Hr Hf. unfold fits in Hp.
  destruct fuel as [|fuel]; [lia|].
  destruct (Read_header_any c (bufs i) (Z.of_nat (length p)) (firstn j p)
              He Hc ltac:(lia) Hr) as (r' & Hr' & HR).
  destruct (read_short_chunk bufs Hb (S fuel) (firstn j p)
              (Z.of_nat (length p)) i
              (mkChunkedReader r' (Z.of_nat (length p)) false))
    as (c' & HE & He' & Hr''); auto.
  - rewrite length_firstn. lia.
  - rewrite length_firstn. lia.
  - exists c'. split; [|split; [exact He'|exact Hr'']].
    cbn [read_to_end] in *. rewrite HR. exact HE.
Qed.


End CutStreams.

(** On a connection: the slices written so far, followed by [tail]. *)
Lemma read_written_then ps tail dT e k (seg bufs : nat -> nat) fuel :
  Forall fits ps -> (forall j, 0 < bufs j)%nat ->
  (forall fuel i (c : ChunkedReader Conn),
     eof c = false -> currChunk c = 0%Z -> ConnRep (cr c) tail ->
     (k < fuel)%nat ->
     exists c', read_to_end fuel bufs i c = Some (dT, e, c') /\
                eof c' = false) ->
  (length (concat ps) + k < fuel)%nat ->
  exists c',
    read_to_end fuel bufs 0
      (NewChunkedReader
         (mkConn (cw (write_all (NewChunkedWriter ([] : Sink)) ps) ++ tail)
                 seg 0))
    = Some (concat ps ++ dT, e, c') /\ eof c' = false.
Proof.
  intros Hps Hb Htail Hf.
  rewrite (write_all_frames Sink_LawfulWriter) by exact Hps.
  change (cw (NewChunkedWriter (Write ([] : Sink) (frames ps))))
    with (frames ps).
  rewrite <- frames_filter. rewrite <- concat_filter in *.
  apply (read_frames_then ConnRep Conn_Lawful bufs tail dT e k
           (fun c => eof c = false) Hb Htail fuel []
           (filter nonempty ps) 0%nat).
  - apply Forall_forall. intros p Hin. apply filter_In in Hin.
    destruct Hin as [Hin Hne]. split.
    + destruct p; [discriminate|congruence].
    + rewrite Forall_forall in Hps. apply Hps, Hin.
  - reflexivity.
  - reflexivity.
  - reflexivity.
  - simpl. lia.
Qed.

(** X2: a stream whose writer was never closed, so that it ends without the
    sentinel, is read exactly like a closed one: all the data, then a plain
    end of stream.  The reader does not tell a missing sentinel from a
    complete stream. *)
Theorem missing_sentinel_reads_as_end ps (seg bufs : nat -> nat) fuel :
  Forall fits ps -> (forall j, 0 < bufs j)%nat ->
  (length (concat ps) < fuel)%nat ->
  exists c',
    read_to_end fuel bufs 0
      (NewChunkedReader
         (mkConn (cw (write_all (NewChunkedWriter ([] : Sink)) ps)) seg 0))
    = Some (concat ps, EOF, c') /\ eof c' = false.
Proof.
  intros Hps Hb Hf.
  destruct (read_written_then ps [] [] EOF 0 seg bufs fuel Hps Hb) as (c' & HE & He).
  - intros f i c He Hc Hr Hk.
    destruct (tail_nothing ConnRep Conn_Lawful bufs Hb f i c He Hc Hr Hk)
      as (c' & HE & He' & _). eauto.
  - lia.
  - rewrite !app_nil_r in HE. eauto.
Qed.

Lemma missing_sentinel_reads_as_end_witness :
  exists c',
    read_to_end 4 (fun _ => 2%nat) 0
      (NewChunkedReader
         (mkConn (cw (write_all (NewChunkedWriter ([] : Sink))
                        [[x01; x02]; []; [x03]]))
                 (fun _ => 0%nat) 0))
    = Some ([x01; x02; x03], EOF, c') /\ eof c' = false.
Proof.
  refine (missing_sentinel_reads_as_end [[x01; x02]; []; [x03]]
            (fun _ => 0%nat) (fun _ => 2%nat) 4%nat _ _ _).
  - repeat constructor; unfold fits; simpl; lia.
  - intros j. lia.
  - simpl. lia.
Defined.

(** X3: a stream that ends inside a four-byte length header yields the data
    of the chunks before it and then [io.ErrUnexpectedEOF]. *)
Theorem cut_in_length_header ps t (seg bufs : nat -> nat) fuel :
  Forall fits ps -> (forall j, 0 < bufs j)%nat ->
  (0 < length t < 4)%nat ->
  (length (concat ps) < fuel)%nat ->
  exists c',
    read_to_end fuel bufs 0
      (NewChunkedReader
         (mkConn (cw (write_all (NewChunkedWriter ([] : Sink)) ps) ++ t)
                 seg 0))
    = Some (concat ps, ErrUnexpectedEOF, c').
Proof.
  intros Hps Hb Ht Hf.
  destruct (read_written_then ps t [] ErrUnexpectedEOF 0 seg bufs fuel Hps Hb)
    as (c' & HE & He).
  - intros f i c He Hc Hr Hk.
    destruct (tail_header ConnRep Conn_Lawful bufs t Hb Ht f i c He Hc Hr Hk)
      as (c' & HE & He' & _). eauto.
  - lia.
  - rewrite !app_nil_r in HE. eauto.
Qed.

Lemma cut_in_length_header_witness :
  exists c',
    read_to_end 4 (fun _ => 2%nat) 0
      (NewChunkedReader
         (mkConn (cw (write_all (NewChunkedWriter ([] : Sink))
                        [[x01; x02]; []; [x03]]) ++ [x00; x00])
                 (fun _ => 0%nat) 0))
    = Some ([x01; x02; x03], ErrUnexpectedEOF, c').
Proof.
  refine (cut_in_length_header [[x01; x02]; []; [x03]] [x00; x00]
            (fun _ => 0%nat) (fun _ => 2%nat) 4%nat _ _ _ _).
  - repeat constructor; unfold fits; simpl; lia.
  - intros j. lia.
  - simpl. lia.
  - simpl. lia.
Defined.

(** X4: a stream that ends [j] bytes into a chunk of a slice [p] yields the
    data of the chunks before it and the [j] bytes of [p] that arrived, and
    then a plain end of stream: the reader does not report the
    truncation. *)
Theorem cut_inside_chunk ps p j (seg bufs : nat -> nat) fuel :
  Forall fits ps -> fits p -> (forall j, 0 < bufs j)%nat ->
  (j < length p)%nat ->
  (length (concat ps) + j < fuel)%nat ->
  exists c',
    read_to_end fuel bufs 0
      (NewChunkedReader
         (mkConn (cw (write_all (NewChunkedWriter ([] : Sink)) ps)
                  ++ put_uint32 (Z.of_nat (length p)) ++ firstn j p)
                 seg 0))
    = Some (concat ps ++ firstn j p, EOF, c') /\ eof c' = false.
Proof.
  intros Hps Hp Hb Hj Hf.
  apply (read_written_then ps _ (firstn j p) EOF j seg bufs fuel Hps Hb);
    [|exact Hf].
  intros f i c He Hc Hr Hk.
  destruct (tail_chunk ConnRep Conn_Lawful bufs p j Hb Hp Hj f i c He Hc Hr Hk)
    as (c' & HE & He' & _). eauto.
Qed.

Lemma cut_inside_chunk_witness :
  exists c',
    read_to_end 4 (fun _ => 2%nat) 0
      (NewChunkedReader
         (mkConn (cw (write_all (NewChunkedWriter ([] : Sink))
                        [[x01; x02]])
                  ++ put_uint32 (Z.of_nat (length [x03; x04; x05]))
                  ++ firstn 1 [x03; x04; x05])
                 (fun _ => 0%nat) 0))
    = Some ([x01; x02] ++ firstn 1 [x03; x04; x05], EOF, c') /\
    eof c' = false.
Proof.
  refine (cut_inside_chunk [[x01; x02]] [x03; x04; x05] 1
            (fun _ => 0%nat) (fun _ => 2%nat) 4%nat _ _ _ _ _).
  - repeat constructor; unfold fits; simpl; lia.
  - unfold fits; simpl; lia.
  - intros j. lia.
  - simpl. lia.
  - simpl. lia.
Defined.

End ChunkedFacts.

(* ================================================================== *)
(** ** Sanitized names *)

Module UtilsFacts.

Import Bytes Path PathFacts.

(** [filepath.Base] leaves a non-empty string without separators alone. *)
Lemma drop_seps_head c r :
  IsPathSeparator c = false -> drop_seps (c :: r) = c :: r.
Proof. intros E. simpl. rewrite E. reflexivity. Qed.

Lemma take_elem_sep_free r : ~ In Separator r -> take_elem r = r.
Proof.
  induction r as [|c r IH]; intros Hs; [reflexivity|].
  simpl. destruct (IsPathSeparator c) eqn:E.
  - apply IsPathSeparator_true in E. subst c. exfalso. apply Hs. left. reflexivity.
  - rewrite IH; [reflexivity|]. intros Hin. apply Hs. right. exact Hin.
Qed.

Lemma Base_sep_free s : s <> [] -> ~ In Separator s -> Base s = s.
Proof.
  intros Hne Hs. unfold Base. destruct s as [|c t]; [congruence|].
  assert (Hr : ~ In Separator (rev (c :: t))).
  { intros Hin. apply in_rev in Hin. exact (Hs Hin). }
  destruct (rev (c :: t)) as [|x r] eqn:R.
  - apply (f_equal (@length byte)) in R. rewrite length_rev in R. discriminate.
  - rewrite drop_seps_head.
    + rewrite take_elem_sep_free by exact Hr.
      rewrite <- R, rev_involutive. reflexivity.
    + apply IsPathSeparator_false. intros ->. apply Hr. left. reflexivity.
Qed.

(** White space is trimmed rune by rune from the front. *)
Lemma trim_blank s : forall fuel,
  Forall (fun c => space_rune [c] = 1%nat) s -> (length s <= fuel)%nat ->
  trim space_rune fuel s = [].
Proof.
  induction s as [|c s IH]; intros fuel Hall Hf.
  - destruct fuel; reflexivity.
  - destruct fuel as [|fuel]; [simpl in Hf; lia|].
    inversion Hall as [|? ? Hc Hs]; subst.
    assert (E : space_rune (c :: s) = 1%nat).
    { revert Hc. destruct c; vm_compute; congruence. }
    cbn [trim]. rewrite E. cbn [skipn]. apply IH; [exact Hs|simpl in Hf; lia].
Qed.

Lemma TrimSpace_blank s :
  Forall (fun c => space_rune [c] = 1%nat) s -> TrimSpace s = [].
Proof.
  intros Hall. unfold TrimSpace.
  rewrite trim_blank by (auto; lia). reflexivity.
Qed.

Lemma take_elem_app s rest :
  ~ In Separator s -> take_elem (s ++ Separator :: rest) = s.
Proof.
  induction s as [|c s IH]; intros Hs.
  - reflexivity.
  - simpl. destruct (IsPathSeparator c) eqn:E.
    + apply IsPathSeparator_true in E. subst c. exfalso. apply Hs. left. reflexivity.
    + rewrite IH; [reflexivity|]. intros Hin. apply Hs. right. exact Hin.
Qed.

(** The last element of a path is what [filepath.Base] returns. *)
Lemma Base_last_elem dir s :
  s <> [] -> ~ In Separator s -> Base (dir ++ Separator :: s) = s.
Proof.
  intros Hne Hs. unfold Base.
  destruct (dir ++ Separator :: s) as [|c t] eqn:E;
    [destruct dir; discriminate|].
  rewrite <- E. clear E c t.
  rewrite rev_app_distr. cbn [rev]. rewrite <- app_assoc. cbn [app].
  assert (Hr : ~ In Separator (rev s)).
  { intros Hin. apply in_rev in Hin. exact (Hs Hin). }
  destruct (rev s) as [|x r] eqn:R.
  - apply (f_equal (@length byte)) in R. rewrite length_rev in R.
    destruct s; [congruence|discriminate].
  - cbn [app]. rewrite drop_seps_head.
    + change (x :: r ++ Separator :: rev dir)
        with ((x :: r) ++ Separator :: rev dir).
      rewrite take_elem_app by exact Hr.
      rewrite <- R, rev_involutive. destruct s; [congruence|reflexivity].
    + apply IsPathSeparator_false. intros ->. apply Hr. left. reflexivity.
Qed.

Lemma blank_sep_free blank :
  Forall (fun c => In c [x09; x0a; x0b; x0c; x0d; x20]) blank ->
  ~ In Separator blank /\ Forall (fun c => space_rune [c] = 1%nat) blank.
Proof.
  intros Hall. split.
  - intros Hin. rewrite Forall_forall in Hall. specialize (Hall _ Hin).
    simpl in Hall. intuition discriminate.
  - eapply Forall_impl; [|exact Hall]. intros c Hc. simpl in Hc.
    repeat (destruct Hc as [<-|Hc]; [reflexivity|]). destruct Hc.
Qed.

Lemma SanitizeFilename_of_blank_base name :
  TrimSpace (Base name) = [] ->
  Utils.SanitizeFilename name = str "downloaded_file".
Proof.
  intros E. unfold Utils.SanitizeFilename. rewrite E.
  cbn [eqb]. rewrite !orb_true_r. reflexivity.
Qed.

(** X5: a header name made of ASCII white space only (space, tab, line
    feed, vertical tab, form feed, carriage return), alone or as the last
    element of a path, is replaced by [downloaded_file]; so is the empty
    name. *)
Theorem SanitizeFilename_blank blank :
  Forall (fun c => In c [x09; x0a; x0b; x0c; x0d; x20]) blank ->
  Utils.SanitizeFilename blank = str "downloaded_file" /\
  (blank <> [] ->
   forall dir,
     Utils.SanitizeFilename (dir ++ Separator :: blank)
     = str "downloaded_file").
Proof.
  intros Hall. destruct (blank_sep_free blank Hall) as [Hs Hb]. split.
  - destruct blank as [|c t]; [reflexivity|].
    apply SanitizeFilename_of_blank_base.
    rewrite Base_sep_free by (auto; discriminate).
    apply TrimSpace_blank. exact Hb.
  - intros Hne dir. apply SanitizeFilename_of_blank_base.
    rewrite Base_last_elem by assumption.
    apply TrimSpace_blank. exact Hb.
Qed.

Lemma SanitizeFilename_blank_witness :
  Utils.SanitizeFilename [x20; x09] = str "downloaded_file" /\
  ([x20; x09] <> [] ->
   forall dir,
     Utils.SanitizeFilename (dir ++ Separator :: [x20; x09])
     = str "downloaded_file").
Proof.
  apply (SanitizeFilename_blank [x20; x09]).
  repeat constructor; simpl; tauto.
Defined.

(** X6: whatever the header name, the sanitized name is not empty and
    holds no path separator. *)
Theorem SanitizeFilename_single_element name :
  Utils.SanitizeFilename name <> [] /\
  ~ In Separator (Utils.SanitizeFilename name).
Proof.
  split; [|apply SanitizeFilename_no_separator].
  unfold Utils.SanitizeFilename.
  destruct (eqb (Base name) (str ".") || eqb (Base name) (str "/")
            || eqb (TrimSpace (Base name)) []);
    [discriminate|apply Base_nonempty].
Qed.

(** X7: sanitizing is idempotent: a sanitized name is left as it is. *)
Theorem SanitizeFilename_idempotent name :
  Utils.SanitizeFilename (Utils.SanitizeFilename name)
  = Utils.SanitizeFilename name.
Proof.
  pose proof (SanitizeFilename_no_separator name) as Hs.
  assert (Hcase : Utils.SanitizeFilename name = str "downloaded_file" \/
                  (Utils.SanitizeFilename name = Base name /\
                   eqb (Base name) (str ".") || eqb (Base name) (str "/")
                   || eqb (TrimSpace (Base name)) [] = false)).
  { unfold Utils.SanitizeFilename.
    destruct (eqb (Base name) (str ".") || eqb (Base name) (str "/")
              || eqb (TrimSpace (Base name)) []); auto. }
  destruct Hcase as [E|[E Hc]]; rewrite E in *; [reflexivity|].
  unfold Utils.SanitizeFilename.
  rewrite (Base_sep_free (Base name) (Base_nonempty name) Hs).
  rewrite Hc. reflexivity.
Qed.

(** X8: unless the last element of the header name is [..], the file the
    receiver opens is a direct child of the download directory, named by
    the sanitized name, wherever the working directory is. *)
Theorem target_is_child_of_download_dir cwd dir name :
  dir <> [] -> Base name <> dotdot ->
  resolve cwd (Join [dir; Utils.SanitizeFilename name])
  = resolve cwd dir ++ [Utils.SanitizeFilename name].
Proof.
  intros Hdir Hb. apply sanitized_target_inside; [exact Hdir|].
  unfold Utils.SanitizeFilename.
  destruct (eqb (Base name) (str ".") || eqb (Base name) (str "/")
            || eqb (TrimSpace (Base name)) []);
    [discriminate|exact Hb].
Qed.

Lemma target_is_child_of_download_dir_witness :
  resolve [str "home"; str "u"]
    (Join [str "received_files";
           Utils.SanitizeFilename (str "../../etc/passwd")])
  = resolve [str "home"; str "u"] (str "received_files")
    ++ [Utils.SanitizeFilename (str "../../etc/passwd")].
Proof.
  apply (target_is_child_of_download_dir [str "home"; str "u"]
           (str "received_files") (str "../../etc/passwd")).
  - discriminate.
  - vm_compute. discriminate.
Defined.

End UtilsFacts.

(* ================================================================== *)
(** ** The sender: extensions, length prefixes, a missing request *)

Module SenderFacts.

Import Bytes IO Protocol Path Transfer.
Import IOFacts BytesFacts PathFacts TransferFacts ChunkedFacts.

(** *** The extension decides *)

(** Scanning back over bytes that are neither dots nor separators ends at
    the dot before them. *)
Lemma ext_scan_suffix e : forall rest suffix,
  Forall (fun c => c <> "."%byte /\ c <> Separator) e ->
  ext_scan (rev e ++ "."%byte :: rest) suffix = "."%byte :: e ++ suffix.
Proof.
  induction e as [|c e IH] using rev_ind; intros rest suffix Hall;
    [reflexivity|].
  apply Forall_app in Hall. destruct Hall as [He Hc].
  inversion Hc as [|? ? [Hd Hs] _]; subst.
  rewrite rev_app_distr. cbn [rev app ext_scan].
  rewrite (proj2 (IsPathSeparator_false c) Hs).
  destruct (Byte.eqb c ".") eqn:E; [apply Byte.byte_dec_bl in E; congruence|].
  rewrite IH by exact He. rewrite <- app_assoc. reflexivity.
Qed.

Lemma Ext_suffix stem e :
  Forall (fun c => c <> "."%byte /\ c <> Separator) e ->
  Ext (stem ++ "."%byte :: e) = "."%byte :: e.
Proof.
  intros Hall. unfold Ext.
  rewrite rev_app_distr. cbn [rev]. rewrite <- app_assoc. cbn [app].
  rewrite ext_scan_suffix by exact Hall. rewrite app_nil_r. reflexivity.
Qed.

(** Lower-casing neither makes nor removes a dot or a separator. *)
Lemma lower_byte_plain c :
  (lower_byte c = "."%byte -> c = "."%byte) /\
  (lower_byte c <> "."%byte /\ lower_byte c <> Separator ->
   c <> "."%byte /\ c <> Separator).
Proof.
  destruct c; vm_compute; (split; [congruence|]); intros [? ?];
    split; congruence.
Qed.

Lemma ToLower_plain e :
  Forall (fun c => c <> "."%byte /\ c <> Separator) (ToLower e) ->
  Forall (fun c => c <> "."%byte /\ c <> Separator) e.
Proof.
  induction e as [|c e IH]; intros Hall; [constructor|].
  inversion Hall; subst. constructor; [|apply IH; assumption].
  apply lower_byte_plain. assumption.
Qed.

(** Every extension of the two tables is a dot followed by bytes that are
    neither dots nor separators. *)
Lemma table_shape t :
  In t (Sender.compress_exts ++ Sender.skip_exts) ->
  exists l, t = "."%byte :: l /\
            Forall (fun c => c <> "."%byte /\ c <> Separator) l.
Proof.
  intros Hin. vm_compute in Hin.
  repeat (destruct Hin as [<-|Hin];
          [eexists; split; [reflexivity|];
           repeat constructor; discriminate|]).
  destruct Hin.
Qed.

Lemma Ext_table stem ext :
  In (ToLower ext) (Sender.compress_exts ++ Sender.skip_exts) ->
  Ext (stem ++ ext) = ext.
Proof.
  intros Hin. destruct (table_shape _ Hin) as (l & E & Hl).
  destruct ext as [|c e]; [discriminate|].
  cbn [ToLower map] in E. inversion E as [[Ec El]].
  apply (proj1 (lower_byte_plain c)) in Ec. subst c.
  apply Ext_suffix. apply ToLower_plain.
  unfold ToLower. rewrite El. exact Hl.
Qed.

(** X9: the sender in use decides on the last extension of the name alone,
    in any letter case: a name that ends in one of [.txt .log .json .md .go]
    is sent with zstd, a name that ends in one of the ten skipped extensions
    is sent without compression, whatever comes before the extension; a
    directory is always sent without compression. *)
Theorem compression_follows_last_extension stem ext :
  (In (ToLower ext) Sender.compress_exts ->
   Sender.getCompressionMethod (stem ++ ext) false = CompressionZstd) /\
  (In (ToLower ext) Sender.skip_exts ->
   Sender.getCompressionMethod (stem ++ ext) false = CompressionNone) /\
  Sender.getCompressionMethod (stem ++ ext) true = CompressionNone.
Proof.
  split; [|split; [|reflexivity]]; intros Hin.
  - apply getCompressionMethod_zstd_iff. split; [reflexivity|].
    rewrite Ext_table by (apply in_or_app; left; exact Hin). exact Hin.
  - rewrite getCompressionMethod_file.
    rewrite Ext_table by (apply in_or_app; right; exact Hin).
    rewrite (skip_not_compress _ Hin). reflexivity.
Qed.

Lemma compression_follows_last_extension_witness :
  Sender.getCompressionMethod (str "notes.tar" ++ str ".TXT") false
  = CompressionZstd /\
  Sender.getCompressionMethod (str "notes.txt" ++ str ".Gz") false
  = CompressionNone.
Proof.
  split.
  - apply (proj1 (compression_follows_last_extension
                    (str "notes.tar") (str ".TXT"))).
    vm_compute. tauto.
  - apply (proj1 (proj2 (compression_follows_last_extension
                           (str "notes.txt") (str ".Gz")))).
    vm_compute. tauto.
Defined.

(** *** Length prefixes with the sign bit set *)

(** X10: the eight-byte length prefix of a record is read as a signed
    integer.  A prefix that announces a negative length passes the
    receiver's 65,536 check and, on both sides, reaches [make], which
    panics: no payload is read. *)
Theorem negative_record_length_panics conn n rest :
  pending conn = put_int64 n ++ rest ->
  (- 2 ^ 63 <= n < 0)%Z ->
  receiver_read_header conn = Err Panic /\
  sender_read_request conn = Err Panic.
Proof.
  intros Hp Hn.
  destruct (ReadFull_conn_app conn _ _ Hp) as (c1 & HR1 & Hp1).
  rewrite put_int64_length in HR1.
  unfold receiver_read_header, sender_read_request. rewrite HR1.
  rewrite get_put_int64 by lia.
  destruct (Z.gtb_spec n 65536) as [Hbig|_]; [lia|].
  destruct (Z.ltb_spec n 0) as [_|Hpos]; [|lia].
  split; reflexivity.
Qed.

Lemma negative_record_length_panics_witness :
  receiver_read_header (mkConn (put_int64 (-1) ++ [x7b; x7d]) (fun _ => 0%nat) 0)
  = Err Panic /\
  sender_read_request (mkConn (put_int64 (-1) ++ [x7b; x7d]) (fun _ => 0%nat) 0)
  = Err Panic.
Proof.
  apply (negative_record_length_panics
           (mkConn (put_int64 (-1) ++ [x7b; x7d]) (fun _ => 0%nat) 0)
           (-1) [x7b; x7d]).
  - reflexivity.
  - lia.
Defined.

(** *** A request that does not arrive *)

(** The request record cut short: reading it fails. *)
Lemma sender_read_request_cut conn payload part more :
  (Z.of_nat (length payload) < 2 ^ 63)%Z ->
  pending conn = part -> more <> [] ->
  part ++ more = put_int64 (Z.of_nat (length payload)) ++ payload ->
  exists e, sender_read_request conn = Err (ErrIO e).
Proof.
  intros Hn Hp Hmore Hcut. unfold sender_read_request.
  assert (Hlen : (length part + length more = 8 + length payload)%nat).
  { apply (f_equal (@length byte)) in Hcut.
    rewrite !length_app, put_int64_length in Hcut. exact Hcut. }
  assert (Hm : (0 < length more)%nat) by (destruct more; simpl; [congruence|lia]).
  destruct (Nat.lt_ge_cases (length part) 8) as [Hshort|Hlong].
  - destruct (ReadAtLeast_short ConnRep Conn_Lawful 8 8 conn part (le_n _)
                Hshort Hp) as (c1 & HR & _).
    unfold ReadFull. rewrite HR. eauto.
  - assert (Hpart : part = put_int64 (Z.of_nat (length payload))
                           ++ skipn 8 part).
    { rewrite <- (firstn_skipn 8 part) at 1. f_equal.
      apply (f_equal (firstn 8)) in Hcut.
      rewrite !firstn_app, put_int64_length, Nat.sub_diag in Hcut.
      replace (8 - length part)%nat with 0%nat in Hcut by lia.
      rewrite !firstn_O, !app_nil_r in Hcut. rewrite Hcut.
      apply firstn_all2. rewrite put_int64_length. lia. }
    rewrite Hpart in Hp.
    destruct (ReadFull_conn_app conn _ _ Hp) as (c1 & HR1 & Hp1).
    rewrite put_int64_length in HR1. rewrite HR1.
    rewrite get_put_int64 by lia.
    destruct (Z.ltb_spec (Z.of_nat (length payload)) 0) as [Hneg|_]; [lia|].
    rewrite Nat2Z.id.
    destruct (ReadAtLeast_short ConnRep Conn_Lawful (length payload)
                (length payload) c1 (skipn 8 part) (le_n _)
                ltac:(rewrite length_skipn; lia) Hp1) as (c2 & HR2 & _).
    unfold ReadFull. rewrite HR2. eauto.
Qed.

(** X11: a sender whose peer goes away before the whole request record has
    arrived ends with a read error: all it has sent is the header record,
    it has not touched the source and has sent no footer. *)
Theorem sender_without_request L conn originalName source src_seg fileSize
    isDir payload more :
  (Z.of_nat (length payload) < 2 ^ 63)%Z ->
  more <> [] ->
  pending conn ++ more
  = put_int64 (Z.of_nat (length payload)) ++ payload ->
  let s := handleTransfer L conn originalName source src_seg fileSize isDir in
  s_out s
  = write_record ([] : Sink)
      (Marshal_header L
         (mkFileHeader (Base originalName) fileSize isDir
            (Sender.getCompressionMethod originalName isDir))) /\
  s_hashed s = [] /\ s_offset s = None /\ s_read s = [] /\
  exists e, s_err s = Some (ErrIO e).
Proof.
  intros Hn Hmore Hcut. cbv zeta.
  destruct (sender_read_request_cut conn payload (pending conn) more Hn
              eq_refl Hmore Hcut) as (e & HE).
  unfold handleTransfer. rewrite HE.
  cbn [s_out s_hashed s_offset s_read s_err]. eauto 6.
Qed.

Lemma sender_without_request_witness :
  let s := handleTransfer toy
             (mkConn (firstn 5 (put_int64 8)) (fun _ => 0%nat) 0)
             (str "fox.bin") fox (fun _ => 0%nat) 19 false in
  s_out s
  = write_record ([] : Sink)
      (Marshal_header toy
         (mkFileHeader (Base (str "fox.bin")) 19 false
            (Sender.getCompressionMethod (str "fox.bin") false))) /\
  s_hashed s = [] /\ s_offset s = None /\ s_read s = [] /\
  exists e, s_err s = Some (ErrIO e).
Proof.
  apply (sender_without_request toy
           (mkConn (firstn 5 (put_int64 8)) (fun _ => 0%nat) 0)
           (str "fox.bin") fox (fun _ => 0%nat) 19 false
           (put_int64 0) (skipn 5 (put_int64 8) ++ put_int64 0)).
  - vm_compute. reflexivity.
  - vm_compute. discriminate.
  - reflexivity.
Defined.

End SenderFacts.

(* ================================================================== *)
(** ** The receiver: truncation, checksum errors, resumption, extraction *)

Module ReceiverFacts.

Import Bytes IO Protocol Path Transfer Short.
Import IOFacts BytesFacts PathFacts ProtocolFacts TransferFacts ChunkedFacts.

(** *** The content region without compression *)

Section ShortLimit.

Context {R : Type} `{Reader R}.
Variable Rep : R -> list byte -> Prop.
Hypothesis HL : Lawful Rep.

Lemma LimShort_Lawful : Lawful (LimShortRep Rep).
Proof.
  split.
  - intros [r n0] s n [Hr Hn0] Hn Hs. cbn [LR LN] in *.
    assert (Hlen : (0 < length s)%nat) by (destruct s; simpl; [congruence|lia]).
    unfold Read at 1, LimitedReader_Reader, LimitedReader_Read. cbn [LR LN].
    destruct (Z.leb_spec n0 0) as [Hle|_]; [lia|].
    set (n' := if (Z.of_nat n >? n0)%Z then Z.to_nat n0 else n).
    assert (Hn' : (1 <= n' <= n)%nat).
    { subst n'. destruct (Z.gtb_spec (Z.of_nat n) n0); lia. }
    pose proof (@law_read _ _ _ HL) as L.
    destruct (L r s n' Hr ltac:(lia) Hs) as (k & r' & Hk & HR & Hr').
    exists k. eexists. split; [lia|]. rewrite HR.
    split; [reflexivity|]. split; cbn [LR LN]; [exact Hr'|].
    rewrite length_firstn, length_skipn. lia.
  - intros [r n0] n [Hr Hn0] Hn. cbn [LR LN length] in *.
    unfold Read at 1, LimitedReader_Reader, LimitedReader_Read. cbn [LR LN].
    destruct (Z.leb_spec n0 0) as [Hle|Hgt].
    + exists (mkLimited r n0). split; [reflexivity|].
      split; cbn [LR LN length]; [exact Hr|lia].
    + set (n' := if (Z.of_nat n >? n0)%Z then Z.to_nat n0 else n).
      assert (Hn' : (1 <= n')%nat).
      { subst n'. destruct (Z.gtb_spec (Z.of_nat n) n0); lia. }
      pose proof (@law_eof _ _ _ HL) as L.
      destruct (L r n' Hr ltac:(lia)) as (r' & HR & Hr').
      rewrite HR. eexists. split; [reflexivity|].
      split; cbn [LR LN length]; [exact Hr'|lia].
Qed.

End ShortLimit.

(** A stream that ends before the announced size: everything that arrived
    goes to the file and to the hasher. *)
Lemma read_plain_short (c1 : Conn) part remaining (file : Sink) :
  pending c1 = part -> (Z.of_nat (length part) <= remaining)%Z ->
  exists c2,
    read_plain remaining c1 [] file = (file ++ part, part, c2, None) /\
    pending c2 = [].
Proof.
  intros Hp Hlen. unfold read_plain.
  set (Rep := TeeRep (LimShortRep ConnRep) part []).
  assert (HL : Lawful Rep) by (apply Tee_Lawful, LimShort_Lawful, Conn_Lawful).
  assert (Hsrc : Rep (mkLimited c1 remaining, []) part).
  { split; [split; [exact Hp|exact Hlen]|].
    exists []. split; reflexivity. }
  match goal with
  | |- context [@CopyBuffer ?W ?R ?iw ?ir ?fuel ?dst ?src ?buf] =>
      destruct (@CopyBuffer_all R ir Rep HL W iw Sink_LawfulWriter
                  buf BUFFER_pos fuel dst src part Hsrc)
        as ([lim h] & HC & [[Hc2 _] (consumed & Hall & Hh)])
  end.
  { rewrite Hp. lia. }
  rewrite HC. cbn [fst snd LR option_map] in *.
  rewrite app_nil_r in Hall. subst consumed. simpl in Hh. subst h.
  exists (LR lim). split; [reflexivity|exact Hc2].
Qed.

(** In general: at most [remaining] bytes, and all of them when the stream
    holds that many. *)
Lemma read_plain_any (c1 : Conn) part (r : nat) (file : Sink) :
  pending c1 = part ->
  exists c2,
    read_plain (Z.of_nat r) c1 [] file
    = (file ++ firstn r part, firstn r part, c2, None) /\
    pending c2 = skipn r part.
Proof.
  intros Hp. destruct (Nat.le_gt_cases r (length part)) as [Hle|Hgt].
  - rewrite <- (firstn_skipn r part) in Hp.
    destruct (read_plain_ok c1 (firstn r part) (skipn r part) file Hp)
      as (c2 & HR & Hp2).
    rewrite length_firstn, Nat.min_l in HR by exact Hle. eauto.
  - rewrite firstn_all2, skipn_all2 by lia.
    apply read_plain_short; [exact Hp|lia].
Qed.

(** X12: with no compression the receiver takes the content by count: of
    whatever the connection holds, the first [Size - offset] bytes, or all
    of them when there are fewer, go to the file and to the hasher, and
    what follows stays unread on the connection. *)
Theorem plain_content_is_taken_by_count (c1 : Conn) remaining (file : Sink) :
  (0 <= remaining)%Z ->
  exists c2,
    read_plain remaining c1 [] file
    = (file ++ firstn (Z.to_nat remaining) (pending c1),
       firstn (Z.to_nat remaining) (pending c1), c2, None) /\
    pending c2 = skipn (Z.to_nat remaining) (pending c1).
Proof.
  intros Hr.
  destruct (read_plain_any c1 (pending c1) (Z.to_nat remaining) file eq_refl)
    as (c2 & HR & Hp2).
  rewrite Z2Nat.id in HR by exact Hr. eauto.
Qed.

Lemma plain_content_is_taken_by_count_witness :
  exists c2,
    read_plain 3 (mkConn (str "abcdefgh") (fun _ => 1%nat) 0) [] (str "xy")
    = (str "xy" ++ firstn (Z.to_nat 3) (str "abcdefgh"),
       firstn (Z.to_nat 3) (str "abcdefgh"), c2, None) /\
    pending c2 = skipn (Z.to_nat 3) (str "abcdefgh").
Proof.
  apply (plain_content_is_taken_by_count
           (mkConn (str "abcdefgh") (fun _ => 1%nat) 0) 3 (str "xy")).
  lia.
Defined.

Section Receiving.

Variable L : Libs.
Hypothesis HLibs : LibsOk L.

(** The receiver up to the footer, for a header of at most 65,536 bytes
    that announces no compression. *)
Lemma receive_plain conn DownloadDir fs dbufs tmp hb h off path app initial
    (r : nat) stream :
  (Z.of_nat (length hb) <= 65536)%Z ->
  Unmarshal_header L hb = Some h ->
  Compression_ h = CompressionNone ->
  open_destination h (download_dir DownloadDir)
    (Utils.SanitizeFilename (Name h)) fs tmp = Ok (off, path, app, initial) ->
  (Size h - off = Z.of_nat r)%Z ->
  pending conn = write_record ([] : Sink) hb ++ stream ->
  exists c2, pending c2 = skipn r stream /\
  ReceiveConnectWithOptions L conn DownloadDir fs dbufs tmp
  = let result :=
      mkRecvResult
        (write_record ([] : Sink) (Marshal_request L (mkTransferRequest off)))
        off path app (initial ++ firstn r stream) (firstn r stream) in
    let '(receivedChecksum, err', c3) := ReadFull c2 32 in
    match err' with
    | Some e => result (pending c3) [] (Some (ErrIO e))
    | None =>
        if negb (eqb (Sum L (firstn r stream)) receivedChecksum)
        then result (pending c3) [] (Some ErrChecksumMismatch)
        else if IsArchive h then
          let '(ops, e) := unzip L (initial ++ firstn r stream)
                             (download_dir DownloadDir) in
          result (pending c3) ops e
        else result (pending c3) [] None
    end.
Proof.
  intros Hlen Hun Hc Hopen Hsize Hp.
  unfold ReceiveConnectWithOptions.
  rewrite write_record_sink, app_nil_l, <- app_assoc in Hp.
  destruct (receiver_read_header_record conn _ _ Hp Hlen) as (c1 & HR & Hp1).
  rewrite HR, Hun, Hopen, Hc, Hsize.
  destruct (read_plain_any c1 stream r initial Hp1) as (c2 & HP & Hp2).
  rewrite HP. exists c2. split; [exact Hp2|]. reflexivity.
Qed.

(** A stream that ends before the footer is complete. *)
Lemma receive_truncated conn DownloadDir fs dbufs tmp hb h off path
    app initial (r : nat) stream :
  (Z.of_nat (length hb) <= 65536)%Z ->
  Unmarshal_header L hb = Some h ->
  Compression_ h = CompressionNone ->
  open_destination h (download_dir DownloadDir)
    (Utils.SanitizeFilename (Name h)) fs tmp = Ok (off, path, app, initial) ->
  (Size h - off = Z.of_nat r)%Z ->
  pending conn = write_record ([] : Sink) hb ++ stream ->
  (length stream < r + 32)%nat ->
  ReceiveConnectWithOptions L conn DownloadDir fs dbufs tmp
  = mkRecvResult
      (write_record ([] : Sink) (Marshal_request L (mkTransferRequest off)))
      off path app (initial ++ firstn r stream) (firstn r stream) [] []
      (Some (ErrIO (match skipn r stream with
                    | [] => EOF
                    | _ :: _ => ErrUnexpectedEOF
                    end))).
Proof.
  intros Hlen Hun Hc Hopen Hsize Hp Hshort.
  destruct (receive_plain conn DownloadDir fs dbufs tmp hb h off path app
              initial r stream Hlen Hun Hc Hopen Hsize Hp)
    as (c2 & Hp2 & ->).
  destruct (ReadAtLeast_short ConnRep Conn_Lawful 32 32 c2 (skipn r stream)
              (le_n _) ltac:(rewrite length_skipn; lia) Hp2)
    as (c3 & HF & Hp3).
  cbv zeta. unfold ReadFull. rewrite HF. unfold ConnRep in Hp3. rewrite Hp3.
  reflexivity.
Qed.

(** X13: a transfer without compression that breaks off anywhere before
    the end of the footer fails, and the destination file keeps, after what
    it held, exactly the content bytes that arrived: the error is the one
    of reading the checksum, [io.EOF] when no byte of the footer arrived
    and [io.ErrUnexpectedEOF] otherwise; nothing is extracted. *)
Theorem truncated_plain_transfer conn DownloadDir fs dbufs tmp hb h off path
    app initial (r : nat) stream :
  (Z.of_nat (length hb) <= 65536)%Z ->
  Unmarshal_header L hb = Some h ->
  Compression_ h = CompressionNone ->
  open_destination h (download_dir DownloadDir)
    (Utils.SanitizeFilename (Name h)) fs tmp = Ok (off, path, app, initial) ->
  (Size h - off = Z.of_nat r)%Z ->
  pending conn = write_record ([] : Sink) hb ++ stream ->
  (length stream < r + 32)%nat ->
  ReceiveConnectWithOptions L conn DownloadDir fs dbufs tmp
  = mkRecvResult
      (write_record ([] : Sink) (Marshal_request L (mkTransferRequest off)))
      off path app (initial ++ firstn r stream) (firstn r stream) [] []
      (Some (ErrIO (match skipn r stream with
                    | [] => EOF
                    | _ :: _ => ErrUnexpectedEOF
                    end))).
Proof.
  exact (receive_truncated conn DownloadDir fs dbufs tmp hb h off path app
           initial r stream).
Qed.


(** The receiver up to the footer, for a header of at most 65,536 bytes and
    the content region the sender produces for [content]. *)
Lemma receive_content conn DownloadDir fs dbufs tmp hb h off path app initial
    content tail :
  (forall j, 0 < dbufs j)%nat ->
  (Z.of_nat (length hb) <= 65536)%Z ->
  Unmarshal_header L hb = Some h ->
  Compression_ h <> CompressionGzip ->
  open_destination h (download_dir DownloadDir)
    (Utils.SanitizeFilename (Name h)) fs tmp = Ok (off, path, app, initial) ->
  (Size h - off = Z.of_nat (length content))%Z ->
  let hashed := wire_content L (Compression_ h) content in
  pending conn = write_record ([] : Sink) hb ++ hashed ++ tail ->
  exists c2, pending c2 = tail /\
  ReceiveConnectWithOptions L conn DownloadDir fs dbufs tmp
  = let result :=
      mkRecvResult
        (write_record ([] : Sink) (Marshal_request L (mkTransferRequest off)))
        off path app (initial ++ content) hashed in
    let '(receivedChecksum, err', c3) := ReadFull c2 32 in
    match err' with
    | Some e => result (pending c3) [] (Some (ErrIO e))
    | None =>
        if negb (eqb (Sum L hashed) receivedChecksum)
        then result (pending c3) [] (Some ErrChecksumMismatch)
        else if IsArchive h then
          let '(ops, e) := unzip L (initial ++ content)
                             (download_dir DownloadDir) in
          result (pending c3) ops e
        else result (pending c3) [] None
    end.
Proof.
  intros Hb Hlen Hun Hgz Hopen Hsize hashed Hp.
  unfold ReceiveConnectWithOptions.
  rewrite write_record_sink, app_nil_l, <- app_assoc in Hp.
  destruct (receiver_read_header_record conn _ _ Hp Hlen) as (c1 & HR & Hp1).
  rewrite HR, Hun, Hopen.
  assert (Hcontent : exists c2,
    match Compression_ h with
    | CompressionNone => read_plain (Size h - off) c1 [] initial
    | CompressionGzip => read_compressed (gzip_decode L) dbufs c1 [] initial
    | CompressionZstd => read_compressed (zstd_decode L) dbufs c1 [] initial
    end = (initial ++ content, hashed, c2, None)
    /\ pending c2 = tail).
  { subst hashed. destruct (Compression_ h) eqn:Ec; cbn [wire_content] in *.
    - rewrite Hsize. apply read_plain_ok. exact Hp1.
    - congruence.
    - destruct (read_compressed_ok (zstd_decode L) dbufs c1
                  (zstd_writes L content) tail initial Hb
                  (zstd_fits HLibs content) Hp1) as (c2 & HRC & Hp2).
      rewrite (zstd_roundtrip HLibs) in HRC. eauto. }
  destruct Hcontent as (c2 & HC & Hp2). rewrite HC.
  exists c2. split; [exact Hp2|reflexivity].
Qed.

(** X14: when the 32 bytes after the content region are not the digest of
    what the receiver hashed, the session ends with the checksum error: the
    content received stays in the destination file and, for an archive,
    nothing is extracted. *)
Theorem checksum_mismatch_is_reported conn DownloadDir fs dbufs tmp hb h off
    path app initial content footer rest :
  (forall j, 0 < dbufs j)%nat ->
  (Z.of_nat (length hb) <= 65536)%Z ->
  Unmarshal_header L hb = Some h ->
  Compression_ h <> CompressionGzip ->
  open_destination h (download_dir DownloadDir)
    (Utils.SanitizeFilename (Name h)) fs tmp = Ok (off, path, app, initial) ->
  (Size h - off = Z.of_nat (length content))%Z ->
  let hashed := wire_content L (Compression_ h) content in
  length footer = 32%nat ->
  footer <> Sum L hashed ->
  pending conn = write_record ([] : Sink) hb ++ hashed ++ footer ++ rest ->
  ReceiveConnectWithOptions L conn DownloadDir fs dbufs tmp
  = mkRecvResult
      (write_record ([] : Sink) (Marshal_request L (mkTransferRequest off)))
      off path app (initial ++ content) hashed rest []
      (Some ErrChecksumMismatch).
Proof.
  intros Hb Hlen Hun Hgz Hopen Hsize hashed Hf Hne Hp.
  destruct (receive_content conn DownloadDir fs dbufs tmp hb h off path app
              initial content (footer ++ rest) Hb Hlen Hun Hgz Hopen Hsize Hp)
    as (c2 & Hp2 & ->).
  destruct (ReadFull_conn_app c2 footer rest Hp2) as (c3 & HF & Hp3).
  rewrite Hf in HF. cbv zeta. rewrite HF.
  assert (E : eqb (Sum L (wire_content L (Compression_ h) content)) footer
              = false).
  { apply eqb_neq. intros E. apply Hne. symmetry. exact E. }
  rewrite E. cbn [negb]. rewrite Hp3. reflexivity.
Qed.

End Receiving.


Lemma truncated_plain_transfer_witness :
  ReceiveConnectWithOptions toy
    (mkConn (write_record ([] : Sink)
               (Marshal_header toy
                  (mkFileHeader (str "fox.bin") 19 false CompressionNone))
             ++ str "the quick")
            (fun _ => 0%nat) 0)
    [] (fun _ => Absent) (fun _ => 1%nat) []
  = mkRecvResult
      (write_record ([] : Sink) (Marshal_request toy (mkTransferRequest 0)))
      0 (str "received_files/fox.bin") false
      ([] ++ firstn 19 (str "the quick")) (firstn 19 (str "the quick")) [] []
      (Some (ErrIO (match skipn 19 (str "the quick") with
                    | [] => EOF
                    | _ :: _ => ErrUnexpectedEOF
                    end))).
Proof.
  apply (truncated_plain_transfer toy
            (mkConn (write_record ([] : Sink)
               (Marshal_header toy
                  (mkFileHeader (str "fox.bin") 19 false CompressionNone))
             ++ str "the quick")
            (fun _ => 0%nat) 0)
            [] (fun _ => Absent) (fun _ => 1%nat) []
            (Marshal_header toy
               (mkFileHeader (str "fox.bin") 19 false CompressionNone))
            (mkFileHeader (str "fox.bin") 19 false CompressionNone)
            0 (str "received_files/fox.bin") false [] 19 (str "the quick")).
  - vm_compute. discriminate.
  - reflexivity.
  - reflexivity.
  - reflexivity.
  - reflexivity.
  - reflexivity.
  - simpl. lia.
Defined.

Lemma checksum_mismatch_is_reported_witness :
  ReceiveConnectWithOptions toy
    (mkConn (write_record ([] : Sink)
               (Marshal_header toy
                  (mkFileHeader (str "fox.txt") 3 false CompressionZstd))
             ++ wire_content toy
                  (Compression_
                     (mkFileHeader (str "fox.txt") 3 false CompressionZstd))
                  (str "fox")
             ++ repeat xff 32 ++ [])
            (fun _ => 0%nat) 0)
    [] (fun _ => Absent) (fun _ => 1%nat) []
  = mkRecvResult
      (write_record ([] : Sink) (Marshal_request toy (mkTransferRequest 0)))
      0 (str "received_files/fox.txt") false
      ([] ++ str "fox")
      (wire_content toy
         (Compression_ (mkFileHeader (str "fox.txt") 3 false CompressionZstd))
         (str "fox"))
      [] [] (Some ErrChecksumMismatch).
Proof.
  apply (checksum_mismatch_is_reported toy toy_LibsOk
           (mkConn (write_record ([] : Sink)
               (Marshal_header toy
                  (mkFileHeader (str "fox.txt") 3 false CompressionZstd))
             ++ wire_content toy
                  (Compression_
                     (mkFileHeader (str "fox.txt") 3 false CompressionZstd))
                  (str "fox")
             ++ repeat xff 32 ++ [])
            (fun _ => 0%nat) 0)
           [] (fun _ => Absent) (fun _ => 1%nat) []
           (Marshal_header toy
              (mkFileHeader (str "fox.txt") 3 false CompressionZstd))
           (mkFileHeader (str "fox.txt") 3 false CompressionZstd)
           0 (str "received_files/fox.txt") false [] (str "fox")
           (repeat xff 32) []).
  - intros j. lia.
  - vm_compute. discriminate.
  - reflexivity.
  - discriminate.
  - reflexivity.
  - reflexivity.
  - reflexivity.
  - vm_compute. discriminate.
  - reflexivity.
Defined.

(** *** A compressed transfer that breaks off *)


Section Compressed.

Variable L : Libs.


End Compressed.


(** *** Refused headers *)

(** X16: a header record that announces more than 65,536 bytes is refused
    before its payload is read: the session ends with the error, no request
    is sent and nothing is written. *)
Theorem oversized_header_is_refused L conn DownloadDir fs dbufs tmp n rest :
  pending conn = put_int64 n ++ rest ->
  (65536 < n < 2 ^ 63)%Z ->
  let r := ReceiveConnectWithOptions L conn DownloadDir fs dbufs tmp in
  r_err r = Some (ErrHeaderTooLarge n) /\ r_request r = [] /\
  r_file r = [] /\ r_ops r = [].
Proof.
  intros Hp Hn. cbv zeta. unfold ReceiveConnectWithOptions.
  rewrite (receiver_read_header_too_large conn n rest Hp Hn).
  repeat split.
Qed.

Lemma oversized_header_is_refused_witness :
  let r := ReceiveConnectWithOptions toy
             (mkConn (put_int64 65537 ++ oversized_payload) (fun _ => 0%nat) 0)
             [] (fun _ => Absent) (fun _ => 1%nat) [] in
  r_err r = Some (ErrHeaderTooLarge 65537) /\ r_request r = [] /\
  r_file r = [] /\ r_ops r = [].
Proof.
  apply (oversized_header_is_refused toy
           (mkConn (put_int64 65537 ++ oversized_payload) (fun _ => 0%nat) 0)
           [] (fun _ => Absent) (fun _ => 1%nat) [] 65537 oversized_payload).
  - reflexivity.
  - lia.
Defined.

(** *** The negotiated offset *)

(** X17: whatever is at the target path, the offset the receiver asks for
    is the number of bytes its destination holds when the content starts,
    and lies between 0 and the announced size; a destination that is not
    opened in append mode starts empty; an archive always goes to the
    temporary file, from offset 0. *)
Theorem requested_offset_is_what_is_held h downloadDir safeName fs tmp
    off path appended initial :
  (0 <= Size h)%Z ->
  open_destination h downloadDir safeName fs tmp
  = Ok (off, path, appended, initial) ->
  (0 <= off <= Size h)%Z /\ off = Z.of_nat (length initial) /\
  (appended = false -> initial = []) /\
  (IsArchive h = true -> off = 0%Z /\ path = tmp) /\
  (IsArchive h = false -> path = Join [downloadDir; safeName]).
Proof.
  intros Hs. unfold open_destination.
  destruct (IsArchive h).
  - intros E. inversion E; subst. simpl. repeat split; auto; try lia;
      discriminate.
  - destruct (fs _) as [|old|].
    + intros E. inversion E; subst. simpl.
      repeat split; auto; try lia; discriminate.
    + destruct (Z.ltb_spec (Z.of_nat (length old)) (Size h));
        intros E; inversion E; subst; simpl;
        repeat split; auto; try lia; discriminate.
    + discriminate.
Qed.

Lemma requested_offset_is_what_is_held_witness :
  (0 <= 3 <= Size (mkFileHeader (str "fox.bin") 19 false CompressionNone))%Z /\
  3%Z = Z.of_nat (length (str "the")) /\
  (true = false -> str "the" = []) /\
  (IsArchive (mkFileHeader (str "fox.bin") 19 false CompressionNone) = true ->
   3%Z = 0%Z /\ str "d/fox.bin" = str "tmp") /\
  (IsArchive (mkFileHeader (str "fox.bin") 19 false CompressionNone) = false ->
   str "d/fox.bin" = Join [str "d"; str "fox.bin"]).
Proof.
  apply (requested_offset_is_what_is_held
           (mkFileHeader (str "fox.bin") 19 false CompressionNone)
           (str "d") (str "fox.bin") (fun _ => Regular (str "the"))
           (str "tmp") 3 (str "d/fox.bin") true (str "the")).
  - simpl. lia.
  - reflexivity.
Defined.

(** *** Sessions *)

Section Sessions.

Variable L : Libs.
Hypothesis HLibs : LibsOk L.

(** X18: a download without compression that breaks off [j] bytes into
    the content leaves those [j] bytes at the target path and fails; a new
    session that finds them there asks for offset [j], is sent only the
    rest of the source, and ends with the whole source in the file and the
    checksum verified. *)
Theorem interrupted_then_resumed originalName source DownloadDir fs tmp
    src_seg seg_s seg_r dbufs (j : nat) :
  let N := Z.of_nat (length source) in
  let header := mkFileHeader (Base originalName) N false
                  (Sender.getCompressionMethod originalName false) in
  let target := target_path L DownloadDir originalName N false in
  Sender.getCompressionMethod originalName false = CompressionNone ->
  (forall i, 0 < dbufs i)%nat ->
  is_int64 N ->
  (Z.of_nat (length (Marshal_header L header)) <= 65536)%Z ->
  fs target = Absent ->
  (j < length source)%nat ->
  let first :=
    ReceiveConnectWithOptions L
      (mkConn (write_record ([] : Sink) (Marshal_header L header)
               ++ firstn j source) seg_r 0)
      DownloadDir fs dbufs tmp in
  r_path first = target /\ r_file first = firstn j source /\
  r_err first = Some (ErrIO EOF) /\
  forall fs', fs' target = Regular (r_file first) ->
    let run := run_session L originalName source false DownloadDir fs' tmp
                 src_seg seg_s seg_r dbufs in
    r_offset (snd run) = Z.of_nat j /\
    s_read (fst run) = skipn j source /\
    r_file (snd run) = source /\
    s_err (fst run) = None /\ r_err (snd run) = None.
Proof.
  intros N header target Hc Hb HN Hlen Hfs Hj first.
  destruct (header_roundtrip HLibs header HN) as (name' & Hun).
  cbn [Size IsArchive Compression_ header] in Hun.
  assert (Htarget : target = Join [download_dir DownloadDir;
                                   Utils.SanitizeFilename name']).
  { subst target. unfold target_path. fold N header.
    rewrite Hun. reflexivity. }
  set (h := mkFileHeader name' N false
              (Sender.getCompressionMethod originalName false)) in *.
  assert (Hopen : open_destination h (download_dir DownloadDir)
                    (Utils.SanitizeFilename (Name h)) fs tmp
                  = Ok (0%Z, target, false, [])).
  { unfold open_destination. cbn [IsArchive Size Name h].
    rewrite <- Htarget, Hfs. reflexivity. }
  assert (Hfirst : first
    = mkRecvResult
        (write_record ([] : Sink) (Marshal_request L (mkTransferRequest 0)))
        0 target false ([] ++ firstn (length source) (firstn j source))
        (firstn (length source) (firstn j source)) [] []
        (Some (ErrIO (match skipn (length source) (firstn j source) with
                      | [] => EOF
                      | _ :: _ => ErrUnexpectedEOF
                      end)))).
  { subst first.
    apply (receive_truncated L _ DownloadDir fs dbufs tmp
             (Marshal_header L header) h 0 target false []
             (length source) (firstn j source) Hlen Hun Hc Hopen).
    - cbn [Size h]. subst N. lia.
    - reflexivity.
    - rewrite length_firstn. lia. }
  assert (Hcut : firstn (length source) (firstn j source) = firstn j source).
  { apply firstn_all2. rewrite length_firstn. lia. }
  assert (Hnone : skipn (length source) (firstn j source) = []).
  { apply skipn_all2. rewrite length_firstn. lia. }
  rewrite Hfirst. cbn [r_path r_file r_err]. rewrite Hcut, Hnone.
  cbn [List.app].
  split; [reflexivity|]. split; [reflexivity|]. split; [reflexivity|].
  intros fs' Hfs'.
  destruct (session_cases L HLibs originalName source false DownloadDir fs'
              tmp src_seg seg_s seg_r dbufs Hb HN Hlen)
    as (off & path & appended & initial & (-> & Hcase) & Hrun).
  { right. fold N target. rewrite Hfs'. discriminate. }
  fold N target in Hcase. rewrite Hfs' in Hcase.
  rewrite length_firstn, Nat.min_l in Hcase by lia.
  destruct (Z.ltb_spec (Z.of_nat j) N) as [_|Hge]; [|subst N; lia].
  destruct Hcase as (-> & -> & ->).
  rewrite Hrun.
  cbn [fst snd r_offset r_file r_err s_err s_read].
  rewrite Nat2Z.id, firstn_skipn. repeat split.
Qed.

(** X19: a directory is sent as the archive the sender built, never
    compressed and never resumed: whatever the download directory holds,
    the receiver asks for offset 0, writes the archive to the temporary
    file, holds it byte for byte once the checksum is verified, and
    extracts exactly that archive into the download directory. *)
Theorem directory_session originalName archive DownloadDir fs tmp
    src_seg seg_s seg_r dbufs :
  let N := Z.of_nat (length archive) in
  let header := mkFileHeader (Base originalName) N true CompressionNone in
  (forall i, 0 < dbufs i)%nat ->
  is_int64 N ->
  (Z.of_nat (length (Marshal_header L header)) <= 65536)%Z ->
  let run := run_session L originalName archive true DownloadDir fs tmp
               src_seg seg_s seg_r dbufs in
  s_out (fst run)
  = write_record ([] : Sink) (Marshal_header L header)
    ++ archive ++ Sum L archive /\
  s_err (fst run) = None /\
  r_offset (snd run) = 0%Z /\ r_appended (snd run) = false /\
  r_path (snd run) = tmp /\ r_file (snd run) = archive /\
  r_ops (snd run) = fst (unzip L archive (download_dir DownloadDir)) /\
  r_err (snd run) = snd (unzip L archive (download_dir DownloadDir)).
Proof.
  intros N header Hb HN Hlen run.
  destruct (session_cases L HLibs originalName archive true DownloadDir fs
              tmp src_seg seg_s seg_r dbufs Hb HN Hlen (or_introl eq_refl))
    as (off & path & appended & initial & (-> & -> & -> & ->) & Hrun).
  subst run. rewrite Hrun.
  cbn [fst snd s_out s_err r_offset r_appended r_path r_file r_ops r_err].
  repeat split.
Qed.

End Sessions.

Lemma interrupted_then_resumed_witness :
  let first :=
    ReceiveConnectWithOptions toy
      (mkConn (write_record ([] : Sink)
                 (Marshal_header toy
                    (mkFileHeader (Base (str "fox.bin"))
                       (Z.of_nat (length fox)) false
                       (Sender.getCompressionMethod (str "fox.bin") false)))
               ++ firstn 9 fox) (fun _ => 0%nat) 0)
      [] (fun _ => Absent) (fun _ => 1%nat) [] in
  r_path first
  = target_path toy [] (str "fox.bin") (Z.of_nat (length fox)) false /\
  r_file first = firstn 9 fox /\
  r_err first = Some (ErrIO EOF) /\
  forall fs',
    fs' (target_path toy [] (str "fox.bin") (Z.of_nat (length fox)) false)
    = Regular (r_file first) ->
    let run := run_session toy (str "fox.bin") fox false [] fs' []
                 (fun _ => 2%nat) (fun _ => 0%nat) (fun _ => 0%nat)
                 (fun _ => 1%nat) in
    r_offset (snd run) = Z.of_nat 9 /\
    s_read (fst run) = skipn 9 fox /\
    r_file (snd run) = fox /\
    s_err (fst run) = None /\ r_err (snd run) = None.
Proof.
  apply (interrupted_then_resumed toy toy_LibsOk (str "fox.bin") fox []
           (fun _ => Absent) [] (fun _ => 2%nat) (fun _ => 0%nat)
           (fun _ => 0%nat) (fun _ => 1%nat) 9).
  - reflexivity.
  - intros i. lia.
  - vm_compute. split; [discriminate|reflexivity].
  - vm_compute. discriminate.
  - reflexivity.
  - vm_compute. lia.
Defined.

Lemma directory_session_witness :
  let run := run_session toy (str "proj") fox true [] (fun _ => Absent)
               (str "tmp") (fun _ => 2%nat) (fun _ => 0%nat)
               (fun _ => 0%nat) (fun _ => 1%nat) in
  s_out (fst run)
  = write_record ([] : Sink)
      (Marshal_header toy
         (mkFileHeader (Base (str "proj")) (Z.of_nat (length fox)) true
            CompressionNone))
    ++ fox ++ Sum toy fox /\
  s_err (fst run) = None /\
  r_offset (snd run) = 0%Z /\ r_appended (snd run) = false /\
  r_path (snd run) = str "tmp" /\ r_file (snd run) = fox /\
  r_ops (snd run) = fst (unzip toy fox (download_dir [])) /\
  r_err (snd run) = snd (unzip toy fox (download_dir [])).
Proof.
  apply (directory_session toy toy_LibsOk (str "proj") fox []
           (fun _ => Absent) (str "tmp") (fun _ => 2%nat) (fun _ => 0%nat)
           (fun _ => 0%nat) (fun _ => 1%nat)).
  - intros i. lia.
  - vm_compute. split; [discriminate|reflexivity].
  - vm_compute. discriminate.
Defined.

(** *** Extraction *)

(** X20: for a destination named below the root or the working directory,
    every path an extraction creates or writes leads strictly below the
    destination, and an archive with an entry whose joined path leads
    anywhere else is not extracted without an error. *)
Theorem extraction_stays_below_destination cwd dest files :
  named_below dest ->
  Forall (fun p => inside (resolve cwd dest) (resolve cwd p))
    (written (fst (unzip_files dest files))) /\
  ((exists f, In f files /\
      ~ inside (resolve cwd dest)
          (resolve cwd (dest ++ Separator :: zName f))) ->
   snd (unzip_files dest files) <> None).
Proof. exact (unzip_confined cwd dest files). Qed.

Lemma extraction_stays_below_destination_witness :
  Forall (fun p => inside (resolve [str "home"] (str "out"))
                     (resolve [str "home"] p))
    (written (fst (unzip_files (str "out")
                     (mkZipFile (str "a/b.txt") false (str "x") true
                      :: evil_archive)))) /\
  ((exists f, In f (mkZipFile (str "a/b.txt") false (str "x") true
                    :: evil_archive) /\
      ~ inside (resolve [str "home"] (str "out"))
          (resolve [str "home"] (str "out" ++ Separator :: zName f))) ->
   snd (unzip_files (str "out")
          (mkZipFile (str "a/b.txt") false (str "x") true :: evil_archive))
   <> None).
Proof.
  apply (extraction_stays_below_destination [str "home"] (str "out")
           (mkZipFile (str "a/b.txt") false (str "x") true :: evil_archive)).
  exists (str "out"), []. split; [reflexivity|discriminate].
Defined.

(** X21: extraction stops at the first entry that fails the path check:
    the entries before it have been extracted and stay, the entry itself
    and the entries after it are not touched, and the error names the
    offending path. *)
Theorem extraction_stops_at_illegal_entry dest good bad rest :
  snd (unzip_files dest good) = None ->
  HasPrefix (Join [dest; zName bad]) (Clean dest ++ [Separator]) = false ->
  unzip_files dest (good ++ bad :: rest)
  = (fst (unzip_files dest good),
     Some (ErrIllegalPath (Join [dest; zName bad]))).
Proof.
  intros Hgood Hbad. induction good as [|f good IH].
  - cbn [List.app unzip_files fst]. rewrite Hbad. reflexivity.
  - cbn [List.app unzip_files] in *.
    destruct (negb (HasPrefix (Join [dest; zName f])
                      (Clean dest ++ [Separator]))); [discriminate|].
    destruct (zIsDir f).
    + destruct (unzip_files dest good) as [ops e]. cbn [fst snd] in *.
      rewrite (IH Hgood). reflexivity.
    + destruct (negb (zReadable f)); [discriminate|].
      destruct (unzip_files dest good) as [ops e]. cbn [fst snd] in *.
      rewrite (IH Hgood). reflexivity.
Qed.

Lemma extraction_stops_at_illegal_entry_witness :
  unzip_files (str "out")
    ([mkZipFile (str "a/b.txt") false (str "x") true]
     ++ mkZipFile (str "../evil.txt") false (str "y") true
     :: [mkZipFile (str "c.txt") false (str "z") true])
  = (fst (unzip_files (str "out")
            [mkZipFile (str "a/b.txt") false (str "x") true]),
     Some (ErrIllegalPath
             (Join [str "out";
                    zName (mkZipFile (str "../evil.txt") false (str "y")
                             true)]))).
Proof.
  apply (extraction_stops_at_illegal_entry (str "out")
           [mkZipFile (str "a/b.txt") false (str "x") true]
           (mkZipFile (str "../evil.txt") false (str "y") true)
           [mkZipFile (str "c.txt") false (str "z") true]).
  - reflexivity.
  - reflexivity.
Defined.

End ReceiverFacts.

(* ================================================================== *)
(** ** Sizes for display and the history *)

Module FormatFacts.

Import Bytes Path Format.

Lemma int64_small z : (0 <= z < 2 ^ 63)%Z -> int64 z = z.
Proof.
  intros Hz. unfold int64. rewrite Z.mod_small by lia.
  destruct (Z.ltb_spec z (2 ^ 63)); [reflexivity|lia].
Qed.




End FormatFacts.

Module HistoryFacts.

Import History.

Lemma keep_100 (all : list HistoryEntry) :
  (if (100 <? length all)%nat then firstn 100 all else all) = firstn 100 all.
Proof.
  destruct (Nat.ltb_spec 100 (length all)); [reflexivity|].
  symmetry. apply firstn_all2. lia.
Qed.

(** One call: the stamped entry goes in front, one hundred entries are
    kept, and the file is rewritten when it can be. *)
Lemma addHistoryEntry_spec now_id now_ts writable entry store :
  addHistoryEntry now_id now_ts writable entry store
  = let kept := firstn 100 (stamped now_id now_ts entry :: entries store) in
    (mkHistoryStore kept (if writable then Some kept else saved store),
     writable).
Proof.
  unfold addHistoryEntry, saveHistory, stamped.
  destruct entry as [i f sz d p st e t].
  destruct i, t, writable;
    cbn [ID Timestamp FileName FileSize Direction PeerName Status Error
         entries saved];
    rewrite keep_100; reflexivity.
Qed.

Lemma firstn_cons_firstn {A} (x : A) l :
  firstn 100 (x :: firstn 100 l) = firstn 100 (x :: l).
Proof.
  change (x :: firstn 99 (firstn 100 l) = x :: firstn 99 l).
  rewrite firstn_firstn. reflexivity.
Qed.

Lemma add_all_snoc calls c store :
  add_all (calls ++ [c]) store
  = fst (addHistoryEntry (c_id c) (c_ts c) (c_writable c) (c_entry c)
           (add_all calls store)).
Proof. unfold add_all. rewrite fold_left_app. reflexivity. Qed.

(** X23: after any calls of [addHistoryEntry], the last of them [c], the
    store holds the entries added, the newest first, in front of the ones
    it held, cut to the first one hundred: never more than one hundred, the
    entry of [c] (with the identifier and time stamp the clock gave when it
    had none) at the head.  The store is updated even when the history file
    cannot be written; when it can, the file holds what the store
    holds. *)
Theorem history_keeps_newest_hundred calls c store :
  let final := add_all (calls ++ [c]) store in
  entries final
  = firstn 100
      (rev (map (fun k => stamped (c_id k) (c_ts k) (c_entry k))
              (calls ++ [c]))
       ++ entries store) /\
  (length (entries final) <= 100)%nat /\
  hd_error (entries final) = Some (stamped (c_id c) (c_ts c) (c_entry c)) /\
  (c_writable c = true -> saved final = Some (entries final)).
Proof.
  cbv zeta.
  assert (Hall : forall calls c,
    entries (add_all (calls ++ [c]) store)
    = firstn 100
        (rev (map (fun k => stamped (c_id k) (c_ts k) (c_entry k))
                (calls ++ [c]))
         ++ entries store)).
  { clear calls c. induction calls as [|k calls IH] using rev_ind; intros c.
    - cbn [List.app]. unfold add_all. cbn [fold_left].
      rewrite addHistoryEntry_spec. reflexivity.
    - rewrite add_all_snoc, addHistoryEntry_spec. cbn [fst entries].
      rewrite IH. rewrite firstn_cons_firstn.
      rewrite (map_app _ (calls ++ [k]) [c]), rev_app_distr. reflexivity. }
  split; [apply Hall|].
  split; [rewrite Hall; apply firstn_le_length|].
  rewrite add_all_snoc, addHistoryEntry_spec. cbn [fst entries saved].
  split; [reflexivity|].
  intros ->. reflexivity.
Qed.

Lemma history_keeps_newest_hundred_witness :
  let c := mkCall (Path.str "1793000000000000000")
             (Path.str "2026-10-31T07:00:00Z") false
             (mkHistoryEntry [] (Path.str "fox.bin") 19 (Path.str "send")
                (Path.str "peer") (Path.str "completed") [] []) in
  let store := mkHistoryStore [] None in
  let final := add_all ([] ++ [c]) store in
  entries final
  = firstn 100
      (rev (map (fun k => stamped (c_id k) (c_ts k) (c_entry k)) ([] ++ [c]))
       ++ entries store) /\
  (length (entries final) <= 100)%nat /\
  hd_error (entries final) = Some (stamped (c_id c) (c_ts c) (c_entry c)) /\
  (c_writable c = true -> saved final = Some (entries final)).
Proof.
  exact (history_keeps_newest_hundred []
           (mkCall (Path.str "1793000000000000000")
              (Path.str "2026-10-31T07:00:00Z") false
              (mkHistoryEntry [] (Path.str "fox.bin") 19 (Path.str "send")
                 (Path.str "peer") (Path.str "completed") [] []))
           (mkHistoryStore [] None)).
Defined.

End HistoryFacts.

(* ================================================================== *)
(** ** Progress reports *)

Module ProgressFacts.

Import Bytes IO Protocol Path Progress IOFacts FormatFacts.

Lemma reported_push offset count k (reports : list ProgressInfo) total f p :
  (0 <= offset)%Z -> (0 <= count)%Z -> (0 < k)%Z ->
  reported offset count reports ->
  reported offset (count + k)
    (mkProgressInfo (offset + (count + k)) total f p :: reports).
Proof.
  intros Ho Hc Hk Hr. unfold reported in *. cbn [BytesSent map].
  split; [reflexivity|].
  destruct reports as [|i older].
  - split; [exact I|]. repeat constructor. cbn [BytesSent]. lia.
  - destruct Hr as (Hi & Hd & Hall). split.
    + cbn [map descending]. split; [lia|exact Hd].
    + constructor; [cbn [BytesSent]; lia|exact Hall].
Qed.

Section Reader.

Context {R : Type} `{Reader R}.
Variable Rep : R -> list byte -> Prop.
Hypothesis HL : Lawful Rep.

Variable all : list byte.
Variable p0 : progressReader R.
Hypothesis Hoffset : (0 <= pr_offset p0)%Z.
Hypothesis Hrange : (pr_offset p0 + Z.of_nat (length all) < 2 ^ 63)%Z.

(** A progress reader delivers what the reader under it delivers. *)
Lemma Progress_Lawful : Lawful (ProgressRep Rep all p0).
Proof.
  split.
  - intros p s n (Hr & Ht & Ho & Hf & Hp & Hcb &
                  consumed & Hall & Hread & Hrep & Hinfo) Hn Hs.
    pose proof (@law_read _ _ _ HL) as LR.
    destruct (LR (pr_inner p) s n Hr Hn Hs) as (k & r' & Hk & HR & Hr').
    assert (Hlen : (0 < length (firstn k s) <= length s)%nat).
    { rewrite length_firstn. destruct s; [congruence|]. cbn [length]. lia. }
    assert (Hall' : length all = (length consumed + length s)%nat).
    { rewrite Hall, length_app. reflexivity. }
    exists k. eexists. split; [exact Hk|].
    unfold Read at 1, progressReader_Reader, progressReader_Read.
    rewrite HR, Hcb.
    destruct (Nat.ltb_spec 0 (length (firstn k s))) as [_|Hz]; [|lia].
    cbn [andb]. rewrite !Hread.
    rewrite (int64_small (Z.of_nat (length consumed)
                          + Z.of_nat (length (firstn k s)))) by lia.
    rewrite int64_small by lia.
    split; [reflexivity|].
    unfold ProgressRep.
    cbn [pr_inner pr_total pr_offset pr_fileName pr_peerAddr pr_callback
         pr_read pr_reports].
    repeat (split; [assumption|]). split; [reflexivity|].
    exists (consumed ++ firstn k s).
    split; [rewrite <- app_assoc, firstn_skipn; exact Hall|].
    split; [rewrite length_app; lia|].
    split.
    + rewrite Ho.
      replace (Z.of_nat (length consumed) + Z.of_nat (length (firstn k s))
               + pr_offset p0)%Z
        with (pr_offset p0 + (Z.of_nat (length consumed)
                              + Z.of_nat (length (firstn k s))))%Z by lia.
      apply reported_push; try lia. rewrite <- Hread. exact Hrep.
    + constructor; [|exact Hinfo].
      cbn [TotalBytes FileName PeerAddr]. auto.
  - intros p n (Hr & Ht & Ho & Hf & Hp & Hcb &
                consumed & Hall & Hread & Hrep & Hinfo) Hn.
    pose proof (@law_eof _ _ _ HL) as LE.
    destruct (LE (pr_inner p) n Hr Hn) as (r' & HR & Hr').
    eexists. unfold Read at 1, progressReader_Reader, progressReader_Read.
    rewrite HR, Hcb. cbn [length Nat.ltb Nat.leb andb Z.of_nat].
    rewrite Z.add_0_r, Hread.
    rewrite int64_small
      by (rewrite Hall, length_app in Hrange; lia).
    split; [reflexivity|].
    unfold ProgressRep.
    cbn [pr_inner pr_total pr_offset pr_fileName pr_peerAddr pr_callback
         pr_read pr_reports].
    repeat (split; [assumption|]). split; [reflexivity|].
    exists consumed. rewrite <- Hread. auto.
Qed.

End Reader.

(** X24: the reader the sender wraps around the source when a progress
    callback is set changes nothing in what is copied, and reports as it
    goes: when the copy ends the reader has counted every byte of the
    source from the offset on; the reports, the latest first, run strictly
    down from [offset + bytes read], each above [offset]; there is none
    when nothing was read; each carries the size, the name and the peer the
    reader was built with. *)
Theorem progress_reader_reports {R : Type} `{Reader R} {W : Type} `{Writer W}
    (Rep : R -> list byte -> Prop) (file : R) (s : list byte)
    (fileSize offset : Z) (fileName peerAddr : list byte)
    (dst : W) (buf fuel : nat) :
  Lawful Rep -> LawfulWriter W -> Rep file s ->
  (0 <= offset)%Z -> (offset + Z.of_nat (length s) < 2 ^ 63)%Z ->
  (0 < buf)%nat -> (length s < fuel)%nat ->
  exists p',
    CopyBuffer fuel dst
      (NewProgressReader file fileSize offset fileName peerAddr) buf
    = Some (Write dst s, None, p') /\
    pr_read p' = Z.of_nat (length s) /\
    reported offset (Z.of_nat (length s)) (pr_reports p') /\
    Forall (fun i => TotalBytes i = fileSize /\ FileName i = fileName /\
                     PeerAddr i = peerAddr) (pr_reports p').
Proof.
  intros HL HW Hr Ho Hrange Hbuf Hfuel.
  set (p0 := NewProgressReader file fileSize offset fileName peerAddr).
  assert (Hsrc : ProgressRep Rep s p0 p0 s).
  { unfold ProgressRep, p0, NewProgressReader.
    cbn [pr_inner pr_total pr_offset pr_fileName pr_peerAddr pr_callback
         pr_read pr_reports].
    repeat (split; [first [assumption|reflexivity]|]).
    exists []. repeat split. constructor. }
  destruct (CopyBuffer_all (ProgressRep Rep s p0)
              (Progress_Lawful Rep HL s p0 Ho Hrange) HW buf Hbuf fuel dst p0
              s Hsrc Hfuel)
    as (p' & HC & (_ & _ & _ & _ & _ & _ &
                   consumed & Hall & Hread & Hrep & Hinfo)).
  exists p'. split; [exact HC|].
  rewrite app_nil_r in Hall. subst consumed.
  split; [exact Hread|]. rewrite Hread in Hrep.
  split; [exact Hrep|exact Hinfo].
Qed.

Lemma progress_reader_reports_witness :
  exists p',
    CopyBuffer 20 ([] : Sink)
      (NewProgressReader (mkConn (str "quick brown fox") (fun _ => 3%nat) 0)
         19 4 (str "fox.bin") (str "10.0.0.7:4100")) 8
    = Some (Write ([] : Sink) (str "quick brown fox"), None, p') /\
    pr_read p' = Z.of_nat (length (str "quick brown fox")) /\
    reported 4 (Z.of_nat (length (str "quick brown fox"))) (pr_reports p') /\
    Forall (fun i => TotalBytes i = 19%Z /\ FileName i = str "fox.bin" /\
                     PeerAddr i = str "10.0.0.7:4100") (pr_reports p').
Proof.
  apply (progress_reader_reports ConnRep
           (mkConn (str "quick brown fox") (fun _ => 3%nat) 0)
           (str "quick brown fox") 19 4 (str "fox.bin")
           (str "10.0.0.7:4100") ([] : Sink) 8 20).
  - exact Conn_Lawful.
  - exact Sink_LawfulWriter.
  - reflexivity.
  - lia.
  - vm_compute. reflexivity.
  - lia.
  - simpl. lia.
Defined.

Section Writer.

Context {W : Type} `{Writer W}.

Lemma write_all_progress ps : forall (w : recvProgressWriter W),
  pw_callback w = true ->
  (0 <= pw_offset w)%Z -> (0 <= pw_written w)%Z ->
  (pw_offset w + pw_written w + Z.of_nat (length (concat ps)) < 2 ^ 63)%Z ->
  reported (pw_offset w) (pw_written w) (pw_reports w) ->
  let w' := write_all w ps in
  pw_inner w' = write_all (pw_inner w) ps /\
  pw_written w' = (pw_written w + Z.of_nat (length (concat ps)))%Z /\
  reported (pw_offset w) (pw_written w') (pw_reports w') /\
  length (pw_reports w')
  = (length (filter nonempty ps) + length (pw_reports w))%nat /\
  (Forall (fun i => TotalBytes i = pw_total w /\ FileName i = pw_fileName w /\
                    PeerAddr i = pw_peerAddr w) (pw_reports w) ->
   Forall (fun i => TotalBytes i = pw_total w /\ FileName i = pw_fileName w /\
                    PeerAddr i = pw_peerAddr w) (pw_reports w')).
Proof.
  unfold write_all.
  induction ps as [|p ps IH]; intros w Hcb Ho Hw Hrange Hrep; cbv zeta.
  - cbn [fold_left concat length filter]. rewrite Z.add_0_r. auto.
  - cbn [fold_left concat] in *. rewrite length_app in Hrange.
    change (Write w p) with (recvProgressWriter_Write w p).
    set (w1 := recvProgressWriter_Write w p).
    assert (H1 : pw_inner w1 = Write (pw_inner w) p /\
                 pw_written w1 = (pw_written w + Z.of_nat (length p))%Z /\
                 pw_offset w1 = pw_offset w /\ pw_total w1 = pw_total w /\
                 pw_fileName w1 = pw_fileName w /\
                 pw_peerAddr w1 = pw_peerAddr w /\
                 pw_callback w1 = true /\
                 pw_reports w1
                 = if nonempty p
                   then mkProgressInfo
                          (pw_offset w + (pw_written w + Z.of_nat (length p)))
                          (pw_total w) (pw_fileName w) (pw_peerAddr w)
                        :: pw_reports w
                   else pw_reports w).
    { subst w1. unfold recvProgressWriter_Write.
      cbn [pw_inner pw_written pw_offset pw_total pw_fileName pw_peerAddr
           pw_callback pw_reports].
      rewrite Hcb, (int64_small (pw_written w + Z.of_nat (length p))) by lia.
      rewrite int64_small by lia.
      repeat (split; [reflexivity|]).
      destruct p; cbn [length Nat.ltb Nat.leb andb nonempty];
        [reflexivity|].
      rewrite (Z.add_comm _ (pw_offset w)). reflexivity. }
    destruct H1 as (Hi1 & Hw1 & Ho1 & Ht1 & Hf1 & Hp1 & Hcb1 & Hr1).
    assert (Hrep1 : reported (pw_offset w1) (pw_written w1) (pw_reports w1)).
    { rewrite Ho1, Hw1, Hr1. destruct p as [|b t]; cbn [nonempty].
      - cbn [length Z.of_nat]. rewrite Z.add_0_r. exact Hrep.
      - apply reported_push; try assumption.
        change (length (b :: t)) with (S (length t)). lia. }
    destruct (IH w1 Hcb1) as (Hi & Hwr & Hrp & Hlen & Hinfo);
      [lia | lia | lia | exact Hrep1 |].
    rewrite Ho1, Ht1, Hf1, Hp1 in *.
    split; [rewrite Hi, Hi1; reflexivity|].
    split; [rewrite Hwr, Hw1, length_app; lia|].
    split; [exact Hrp|].
    split.
    + rewrite Hlen, Hr1. destruct p; cbn [nonempty filter length]; lia.
    + intros Hall. apply Hinfo. rewrite Hr1.
      destruct (nonempty p); [|exact Hall].
      constructor; [|exact Hall]. cbn [TotalBytes FileName PeerAddr]. auto.
Qed.

(** X25: the writer the receiver wraps around the destination file when a
    progress callback is set hands every slice on unchanged, counts what it
    wrote, and reports once for each non-empty write: the reports, the
    latest first, run strictly down from [offset + bytes written], each
    above [offset], and carry the size, the name and the peer the writer
    was built with. *)
Theorem recv_progress_writer_reports (destFile : W) (size offset : Z)
    (safeName address : list byte) (ps : list (list byte)) :
  (0 <= offset)%Z ->
  (offset + Z.of_nat (length (concat ps)) < 2 ^ 63)%Z ->
  let w' := write_all
              (NewRecvProgressWriter destFile size offset safeName address)
              ps in
  pw_inner w' = write_all destFile ps /\
  pw_written w' = Z.of_nat (length (concat ps)) /\
  reported offset (Z.of_nat (length (concat ps))) (pw_reports w') /\
  length (pw_reports w') = length (filter nonempty ps) /\
  Forall (fun i => TotalBytes i = size /\ FileName i = safeName /\
                   PeerAddr i = address) (pw_reports w').
Proof.
  intros Ho Hrange.
  destruct (write_all_progress ps
              (NewRecvProgressWriter destFile size offset safeName address))
    as (Hi & Hw & Hr & Hl & Hinfo);
    cbn [NewRecvProgressWriter pw_callback pw_offset pw_written pw_reports
         pw_inner pw_total pw_fileName pw_peerAddr] in *;
    try reflexivity; try lia.
  cbv zeta. rewrite Hw in Hr. cbn [length] in Hl. rewrite Nat.add_0_r in Hl.
  rewrite Z.add_0_l in *.
  repeat (split; [assumption|]). apply Hinfo. constructor.
Qed.

End Writer.

Lemma recv_progress_writer_reports_witness :
  let w' := write_all
              (NewRecvProgressWriter ([] : Sink) 19 4 (str "fox.bin")
                 (str "10.0.0.7:4100"))
              [str "quick"; []; str " brown fox"] in
  pw_inner w' = write_all ([] : Sink) [str "quick"; []; str " brown fox"] /\
  pw_written w'
  = Z.of_nat (length (concat [str "quick"; []; str " brown fox"])) /\
  reported 4
    (Z.of_nat (length (concat [str "quick"; []; str " brown fox"])))
    (pw_reports w') /\
  length (pw_reports w')
  = length (filter nonempty [str "quick"; []; str " brown fox"]) /\
  Forall (fun i => TotalBytes i = 19%Z /\ FileName i = str "fox.bin" /\
                   PeerAddr i = str "10.0.0.7:4100") (pw_reports w').
Proof.
  apply (recv_progress_writer_reports ([] : Sink) 19 4 (str "fox.bin")
           (str "10.0.0.7:4100") [str "quick"; []; str " brown fox"]).
  - lia.
  - vm_compute. reflexivity.
Defined.

End ProgressFacts.
